(** * TD_Installment: the modal controller and the collapsible-panel toggler

    A shallow embedding of the two browser scripts of the repository:
    - [Colaps] follows [src/InstallmentProj/src/colaps.js], the click handler
      that expands and collapses a panel;
    - [Modal] follows the modal module (scroll lock manager, [prepareModal]
      with its [showModal] and [closeModal] closures, the public helpers and
      the fallback object installed when the dialog region is missing).

    The document objects the scripts touch are modelled as plain data: a
    [classList] is the ordered token set of the DOM standard, promises are
    cells of a store, and the listeners, timers and reaction jobs the scripts
    register are kept in queues that the events of the page consume.

    The modules [DomFacts], [ColapsFacts] and [ModalFacts] hold what is
    proved about them. *)

From Stdlib Require Import ZArith Ascii String.
From stdpp Require Import base decidable option list strings pretty.

Set Warnings "-register-all".
Local Open Scope Z_scope.

(** ** Document-object primitives shared by both scripts *)

Module Dom.

(** Exceptions that the calls made by the scripts can throw. *)
Inductive Exn :=
| SyntaxError            (* classList.add with an empty token *)
| InvalidCharacterError  (* classList.add with white space inside a token *)
| HierarchyRequestError  (* appendChild of a node that cannot be a child *)
| TypeError.             (* property access on null *)

(** ASCII white space of the DOM standard: TAB, LF, FF, CR and SPACE. *)
Definition ascii_whitespace (c : ascii) : bool :=
  let n := nat_of_ascii c in
  (n =? 9)%nat || (n =? 10)%nat || (n =? 12)%nat || (n =? 13)%nat || (n =? 32)%nat.

Fixpoint has_whitespace (s : string) : bool :=
  match s with
  | EmptyString => false
  | String c r => ascii_whitespace c || has_whitespace r
  end.

(** Cutting a string at every character that satisfies [sep]: two
    separators in a row, or one at either end, give an empty piece. *)
Fixpoint split_at (sep : ascii → bool) (s : string) : list string :=
  match s with
  | EmptyString => [EmptyString]
  | String c r =>
      if sep c then EmptyString :: split_at sep r
      else match split_at sep r with
           | h :: t => String c h :: t
           | [] => [String c EmptyString]
           end
  end.

(** [s.split(' ')] *)
Definition split_space (s : string) : list string :=
  split_at (Ascii.eqb " "%char) s.

(** Whether the class attribute [className] lists the token [t]. *)
Definition has_class (t className : string) : bool :=
  bool_decide (t ∈ split_at ascii_whitespace className).

(** A [DOMTokenList]: the tokens of the class attribute, in order. *)
Abbreviation classList := (list string).

Definition contains (t : string) (l : classList) : bool :=
  bool_decide (t ∈ l).

(** The validation [DOMTokenList.add] runs on every argument before it
    changes anything. *)
Definition check_token (t : string) : option Exn :=
  if String.eqb t "" then Some SyntaxError
  else if has_whitespace t then Some InvalidCharacterError
  else None.

Fixpoint check_tokens (ts : list string) : option Exn :=
  match ts with
  | [] => None
  | t :: r => match check_token t with
              | Some e => Some e
              | None => check_tokens r
              end
  end.

(** Appending to an ordered set: a token already present stays where it is. *)
Definition add_token (l : classList) (t : string) : classList :=
  if contains t l then l else l ++ [t].

(** [classList.add(...ts)] *)
Definition add (ts : list string) (l : classList) : Exn + classList :=
  match check_tokens ts with
  | Some e => inl e
  | None => inr (foldl add_token l ts)
  end.

(** [classList.remove(t)] for a valid token [t]. *)
Definition remove (t : string) (l : classList) : classList :=
  filter (λ x, x ≠ t) l.

End Dom.

(** ** The panel toggler, [colaps.js] *)

Module Colaps.
Import Dom.

(** One panel as the script sees it after start-up: the class list of
    [button.nextElementSibling] and of the [.fa-angle-down] icon found in
    the header. *)
Record Panel := mkPanel { content : classList; icon : classList }.

(** The click listener of a header (lines 6-14).  The two literal tokens
    are valid, so [classList.add] cannot throw (see [add_literals]). *)
Definition click (p : Panel) : Panel :=
  if contains "giveContent" (content p) then
    {| content := remove "giveContent" (content p);
       icon := remove "active" (icon p) |}
  else
    {| content := add_token (content p) "giveContent";
       icon := add_token (icon p) "active" |}.

(** The icon mirrors the content element. *)
Definition mirrored (p : Panel) : Prop :=
  "active" ∈ icon p ↔ "giveContent" ∈ content p.

Fixpoint clicks (n : nat) (p : Panel) : Panel :=
  match n with
  | O => p
  | S k => clicks k (click p)
  end.

(** *** Headers as the start-up loop finds them (lines 1-4) *)

(** For one [.newHeadLine] button: the class list of
    [button.nextElementSibling] and of the first [.fa-angle-down] inside the
    button; each lookup may have given null. *)
Record Header := mkHeader { sibling : option classList; angle : option classList }.

(** The click listener on such a header: the header it leaves and the
    exception it ends with, if any.  [content.classList] on null throws at
    line 7 before anything is changed; [icon.classList] on null throws at
    line 9 or 12, after the content element was changed. *)
Definition click_header (h : Header) : Header * option Exn :=
  match sibling h with
  | None => (h, Some TypeError)
  | Some c =>
      if contains "giveContent" c then
        match angle h with
        | None => (mkHeader (Some (remove "giveContent" c)) None, Some TypeError)
        | Some i => (mkHeader (Some (remove "giveContent" c)) (Some (remove "active" i)), None)
        end
      else
        match angle h with
        | None => (mkHeader (Some (add_token c "giveContent")) None, Some TypeError)
        | Some i =>
            (mkHeader (Some (add_token c "giveContent")) (Some (add_token i "active")), None)
        end
  end.

(** [n] clicks on a header, with the exceptions they ended with, in order. *)
Fixpoint clicks_header (n : nat) (h : Header) : Header * list Exn :=
  match n with
  | O => (h, [])
  | S k =>
      let '(h1, e) := click_header h in
      let '(h2, es) := clicks_header k h1 in
      (h2, match e with Some x => x :: es | None => es end)
  end.

End Colaps.

(** ** The modal controller *)

Module Modal.
Import Dom.

(** *** Values, promises and the closures the module creates *)

Inductive Value :=
| VUndefined
| VBool (b : bool)
| VError (e : Exn).

Inductive PState :=
| Pending
| Fulfilled (v : Value)
| Rejected (v : Value).

(** A promise is named by its position in the store. *)
Abbreviation pid := nat.

(** What a callback handed to [then] or [catch] does in this module: it is
    always the [resolve] or [reject] function of another promise. *)
Inductive Reaction :=
| ThenResolve (target : pid)   (* p.then(resolve) *)
| ThenReject (target : pid)    (* p.then(reject) *)
| CatchReject (target : pid).  (* p.catch(function () { reject(); }) *)

Record Promise := mkPromise { pstate : PState; reactions : list Reaction }.

(** A reaction job of the microtask queue: the callback and the settled
    state of the promise it was registered on. *)
Abbreviation Job := (Reaction * PState)%type.

(** [settings], after [Object.assign] over the defaults. *)
Record Settings := mkSettings { close : string; scrollLock : bool }.

(** The [options] argument: a property that is absent is [None]. *)
Record Options := mkOptions { opt_close : option string; opt_scrollLock : option bool }.

(** The variables [showModal] and [closeModal] capture from one call of
    [prepareModal]: [settings] and the [resolve] function of the promise
    that call returns. *)
Record Closure := mkClosure { settings : Settings; resolve : pid }.

(** The [onTransitionEnd] function of one [closeModal] call: it captures
    the closure above and [resolveClose]. *)
Record Listener := mkListener { env : Closure; resolveClose : pid }.

Inductive Handler :=
| HNull
| HClose (cl : Closure)                     (* closeModal *)
| HOverlay (cl : Closure)                   (* function (e) { if (...) closeModal(); } *)
| HCloseThen (cl : Closure) (r : Reaction). (* function () { close().then(...); } *)

Inductive TimerJob :=
| FallbackCheck             (* the function of lines 82-86 *)
| CallClose (cl : Closure). (* closeModal, as passed to setTimeout by notif *)

Record Timer := mkTimer { due : Z; job : TimerJob }.

(** *** Nodes *)

Inductive Inner (N : Type) :=
| Markup (s : string) (btn : Handler)
    (* innerHTML = s; [btn] is the onclick of the first .close-btn element
       of the parsed markup, when it has one *)
| InnerText (s : string)
| Children (l : list N).
Arguments Markup {N} s btn.
Arguments InnerText {N} s.
Arguments Children {N} l.

Inductive Node :=
| Element (tag id className : string) (style : list (string * string))
          (onclick : Handler) (inner : Inner Node)
| CharData (s : string)        (* Text or Comment *)
| Fragment (kids : list Node)  (* DocumentFragment *)
| Document
| Doctype
| Attr
| Host.  (* the .content element itself or one of its ancestors *)

(** What the .content element holds. *)
Inductive Rendered :=
| RMarkup (s : string) (btn : Handler)
| RNodes (l : list Node).

(** The [content] argument of [showModal]. *)
Inductive Other := Undefined | Null | Boolean (b : bool) | Number (z : Z)
                 | Array (l : list string) | PlainObject.

Inductive Content :=
| CString (s : string)
| CNode (n : Node)
| COther (v : Other).

(** *** The state the module works on *)

(** The dialog region [#modal] and its [.content] child. *)
Record Region := mkRegion {
  classes : classList;             (* modalElement.classList *)
  onclick : Handler;               (* modalElement.onclick *)
  listeners : list Listener;       (* its once-listeners for transitionend *)
  modalContent : option Rendered   (* None: querySelector('.content') gave null *)
}.

(** The window, the body and [scrollControl].  Offsets are in CSS pixels,
    taken as integers. *)
Record Scroll := mkScroll {
  currentPos : Z;           (* scrollControl.currentPos *)
  scrollX : Z;
  scrollY : Z;
  quirks : bool;            (* document.compatMode is BackCompat *)
  body_classes : classList;
  body_top : string;        (* document.body.style.top *)
  scroll_behavior : string  (* document.documentElement.style.scrollBehavior *)
}.

(** Promises, the microtask queue, timers and the clock. *)
Record Loop := mkLoop {
  promises : list Promise;
  jobs : list Job;
  timers : list Timer;
  now : Z
}.

Record State := mkState { region : Region; page : Scroll; loop : Loop }.

Definition with_region (f : Region → Region) (st : State) : State :=
  {| region := f (region st); page := page st; loop := loop st |}.
Definition with_page (f : Scroll → Scroll) (st : State) : State :=
  {| region := region st; page := f (page st); loop := loop st |}.
Definition with_loop (f : Loop → Loop) (st : State) : State :=
  {| region := region st; page := page st; loop := f (loop st) |}.

Definition set_classes (c : classList) (r : Region) : Region :=
  {| classes := c; onclick := onclick r; listeners := listeners r;
     modalContent := modalContent r |}.
Definition set_onclick (h : Handler) (r : Region) : Region :=
  {| classes := classes r; onclick := h; listeners := listeners r;
     modalContent := modalContent r |}.
Definition set_listeners (l : list Listener) (r : Region) : Region :=
  {| classes := classes r; onclick := onclick r; listeners := l;
     modalContent := modalContent r |}.
Definition set_modalContent (c : option Rendered) (r : Region) : Region :=
  {| classes := classes r; onclick := onclick r; listeners := listeners r;
     modalContent := c |}.

Definition set_promises (ps : list Promise) (l : Loop) : Loop :=
  {| promises := ps; jobs := jobs l; timers := timers l; now := now l |}.
Definition set_jobs (js : list Job) (l : Loop) : Loop :=
  {| promises := promises l; jobs := js; timers := timers l; now := now l |}.
Definition set_timers (ts : list Timer) (l : Loop) : Loop :=
  {| promises := promises l; jobs := jobs l; timers := ts; now := now l |}.
Definition set_now (t : Z) (l : Loop) : Loop :=
  {| promises := promises l; jobs := jobs l; timers := timers l; now := t |}.

(** *** Computations that change the state and may throw *)

Definition M (A : Type) : Type := State → State * (Exn + A).

Definition ret {A} (a : A) : M A := λ st, (st, inr a).
Definition bind {A B} (m : M A) (k : A → M B) : M B :=
  λ st, match m st with
        | (st', inr a) => k a st'
        | (st', inl e) => (st', inl e)
        end.
Definition modify (f : State → State) : M unit := λ st, (f st, inr tt).

Notation "a ;> b" := (bind a (λ _, b))
  (at level 90, right associativity, only parsing).

(** *** Promises and the microtask queue *)

Definition promise_state (p : pid) (st : State) : option PState :=
  pstate <$> promises (loop st) !! p.

(** [new Promise(...)]: the next free cell, pending, with no reaction. *)
Definition new_promise (st : State) : State * pid :=
  (with_loop (λ l, set_promises (promises l ++ [mkPromise Pending []]) l) st,
   length (promises (loop st))).

(** Calling [resolve] or [reject]: only a pending promise changes, and its
    reactions become jobs. *)
Definition settle (p : pid) (s : PState) (st : State) : State :=
  match promises (loop st) !! p with
  | Some (mkPromise Pending rs) =>
      with_loop (λ l, set_jobs (jobs l ++ map (λ r, (r, s)) rs)
                        (set_promises (<[p := mkPromise s []]> (promises l)) l)) st
  | _ => st
  end.

(** [p.then(f)] and [p.catch(f)] *)
Definition register (p : pid) (r : Reaction) (st : State) : State :=
  match promises (loop st) !! p with
  | Some (mkPromise Pending rs) =>
      with_loop (λ l, set_promises (<[p := mkPromise Pending (rs ++ [r])]> (promises l)) l) st
  | Some (mkPromise s _) =>
      with_loop (λ l, set_jobs (jobs l ++ [(r, s)]) l) st
  | None => st
  end.

Definition run_job (j : Job) (st : State) : State :=
  match j with
  | (ThenResolve t, Fulfilled v) => settle t (Fulfilled v) st
  | (ThenReject t, Fulfilled v) => settle t (Rejected v) st
  | (CatchReject t, Rejected _) => settle t (Rejected VUndefined) st
  | _ => st
  end.

(** Running the microtask queue, at most [n] jobs. *)
Fixpoint drain (n : nat) (st : State) : State :=
  match n with
  | O => st
  | S k =>
      match jobs (loop st) with
      | [] => st
      | j :: js => drain k (run_job j (with_loop (set_jobs js) st))
      end
  end.

(** Every job run takes one unit from this count, so it bounds the number
    of jobs that can still run (see [drain_all_done]). *)
Definition pending_work (l : Loop) : nat :=
  (length (jobs l) + sum_list (map (λ p, length (reactions p)) (promises l)))%nat.

(** The end of a task: the microtask queue is run until it is empty. *)
Definition drain_all (st : State) : State :=
  drain (pending_work (loop st)) st.

(** The [timeout] argument of [setTimeout] is a Web IDL [long]: an integer
    is taken modulo 2^32 into the signed 32-bit range. *)
Definition to_long (d : Z) : Z := (d + 2147483648) mod 4294967296 - 2147483648.

(** The time a timer set with delay [d] waits: the converted delay, and
    no time when that is negative. *)
Definition timer_delay (d : Z) : Z := Z.max 0 (to_long d).

(** [setTimeout(f, d)] *)
Definition setTimeout (f : TimerJob) (d : Z) (st : State) : State :=
  with_loop (λ l, set_timers (timers l ++ [mkTimer (now l + timer_delay d) f]) l) st.

(** *** The scroll lock manager (lines 30-44) *)

Definition documentElement_scrollTop (s : Scroll) : Z :=
  if quirks s then 0 else scrollY s.

(** Assigning [body.style.top]: a value that is not a length is ignored. *)
Definition assign_top (pos : Z) (old : string) : string :=
  if 0 <=? pos then "-" +:+ pretty pos +:+ "px" else old.

Definition lock (s : Scroll) : Scroll :=
  let pos := if scrollY s =? 0 then documentElement_scrollTop s else scrollY s in
  {| currentPos := pos;
     scrollX := scrollX s; scrollY := scrollY s; quirks := quirks s;
     body_classes := add_token (body_classes s) "locked";
     body_top := assign_top pos (body_top s);
     scroll_behavior := "auto" |}.

Definition unlock (s : Scroll) : Scroll :=
  {| currentPos := currentPos s;
     scrollX := 0; scrollY := currentPos s;   (* window.scrollTo(0, currentPos) *)
     quirks := quirks s;
     body_classes := remove "locked" (body_classes s);
     body_top := "";
     scroll_behavior := "" |}.

(** *** [closeModal] (lines 65-88) *)

(** [onTransitionEnd] *)
Definition onTransitionEnd (l : Listener) (st : State) : State :=
  let st := if scrollLock (settings (env l)) then with_page unlock st else st in
  let st := settle (resolveClose l) (Fulfilled VUndefined) st in
  settle (resolve (env l)) (Fulfilled VUndefined) st.

(** The function given to [setTimeout] at line 82: its [if] has an empty
    body, so running it changes nothing. *)
Definition fallbackCheck (st : State) : State :=
  if negb (contains "active" (classes (region st))) then st else st.

Definition closeModal (cl : Closure) (st : State) : State * pid :=
  let '(st, c) := new_promise st in
  if negb (contains "active" (classes (region st))) then
    (settle c (Fulfilled VUndefined) st, c)
  else
    let st := with_region (λ r, set_listeners (listeners r ++ [mkListener cl c]) r) st in
    let st := with_region (λ r, set_classes (remove "active" (classes r)) r) st in
    let st := setTimeout FallbackCheck 400 st in
    (st, c).

(** *** [showModal] (lines 90-106) *)

(** [modalContent.appendChild(content)] on the container just emptied.
    A fragment gives its children; a node that is not an element, character
    data or a fragment, or that contains the container, is refused. *)
Definition appendChild (n : Node) : Exn + Rendered :=
  match n with
  | Element _ _ _ _ _ _ | CharData _ => inr (RNodes [n])
  | Fragment kids => inr (RNodes kids)
  | Document | Doctype | Attr | Host => inl HierarchyRequestError
  end.

Section WithParser.

(** Whether the markup, once parsed, has an element of class close-btn. *)
Variable markup_has_close_btn : string → bool.

(** [querySelector('.close-btn')] followed by the assignment of its
    [onclick]: the first match in document order gets the handler. *)
Fixpoint bind_node (h : Handler) (n : Node) : option Node :=
  match n with
  | Element tag id cls sty oc inner =>
      if has_class "close-btn" cls then Some (Element tag id cls sty h inner)
      else
        match inner with
        | Markup s b =>
            if markup_has_close_btn s
            then Some (Element tag id cls sty oc (Markup s h)) else None
        | InnerText _ => None
        | Children l =>
            (λ l', Element tag id cls sty oc (Children l')) <$>
            (fix bind_first (l : list Node) : option (list Node) :=
               match l with
               | [] => None
               | x :: r => match bind_node h x with
                           | Some x' => Some (x' :: r)
                           | None => cons x <$> bind_first r
                           end
               end) l
        end
  | _ => None
  end.

Fixpoint bind_nodes (h : Handler) (l : list Node) : option (list Node) :=
  match l with
  | [] => None
  | x :: r => match bind_node h x with
              | Some x' => Some (x' :: r)
              | None => cons x <$> bind_nodes h r
              end
  end.

Definition bind_close_btn (h : Handler) (r : Rendered) : Rendered :=
  match r with
  | RMarkup s b => if markup_has_close_btn s then RMarkup s h else r
  | RNodes l => match bind_nodes h l with
                | Some l' => RNodes l'
                | None => r
                end
  end.

Definition showModal (cl : Closure) (content : Content) : M unit :=
  λ st,
  match modalContent (region st) with
  | None => (st, inl TypeError)
  | Some _ =>
      let rendered :=
        match content with
        | CString s => inr (RMarkup s HNull)
        | CNode n => appendChild n
        | COther _ => inr (RNodes [])
        end in
      match rendered with
      | inl e => (with_region (set_modalContent (Some (RNodes []))) st, inl e)
      | inr r =>
          let st := with_region (set_modalContent (Some r)) st in
          let st := with_region (λ g, set_classes (add_token (classes g) "active") g) st in
          let st := with_region (set_modalContent (Some (bind_close_btn (HClose cl) r))) st in
          let st := if scrollLock (settings cl) then with_page lock st else st in
          (st, inr tt)
      end
  end.

(** *** [prepareModal] (lines 47-112) *)

(** [Object.assign({ close: 'overlay', scrollLock: false }, options)] *)
Definition assign_settings (options : Options) : Settings :=
  {| close := default "overlay" (opt_close options);
     scrollLock := default false (opt_scrollLock options) |}.

(** [if (className) modalElement.classList.add(...className.split(' '))] *)
Definition apply_className (className : option string) : M unit :=
  λ st,
  match className with
  | None => (st, inr tt)
  | Some c =>
      if String.eqb c "" then (st, inr tt)
      else match add (split_space c) (classes (region st)) with
           | inl e => (st, inl e)
           | inr l => (with_region (set_classes l) st, inr tt)
           end
  end.

(** The function given to [new Promise] at line 50; [cl] stands for the
    pair of closures [showModal], [closeModal] of this call. *)
Definition executor (className : option string)
    (setupFunc : option (Closure → M unit)) (cl : Closure) : M unit :=
  modify (with_region (set_classes [])) ;>
  apply_className className ;>
  modify (with_region (set_onclick HNull)) ;>
  (if String.eqb (close (settings cl)) "all" then
     modify (with_region (set_onclick (HClose cl)))
   else if String.eqb (close (settings cl)) "overlay" then
     modify (with_region (set_onclick (HOverlay cl)))
   else ret tt) ;>
  match setupFunc with
  | Some f => f cl
  | None => ret tt
  end.

(** An exception thrown inside the function given to [new Promise]
    rejects the promise. *)
Definition prepareModal (className : option string)
    (setupFunc : option (Closure → M unit)) (options : Options)
    (st : State) : State * pid :=
  let s := assign_settings options in
  let '(st, p) := new_promise st in
  match executor className setupFunc (mkClosure s p) st with
  | (st, inr _) => (st, p)
  | (st, inl e) => (settle p (Rejected (VError e)) st, p)
  end.

(** *** Public helpers (lines 116-201) *)

(** [duration || 5000] *)
Definition or_default (duration : option Z) : Z :=
  match duration with
  | Some d => if d =? 0 then 5000 else d
  | None => 5000
  end.

(** ['notification ' + className] *)
Definition notification_class (className : option string) : string :=
  "notification " +:+ default "undefined" className.

Definition notif (content : Content) (className : option string)
    (duration : option Z) : State → State * pid :=
  let time := or_default duration in
  prepareModal (Some (notification_class className))
    (Some (λ cl, showModal cl content ;> modify (setTimeout (CallClose cl) time)))
    {| opt_close := Some "all"; opt_scrollLock := None |}.

(** The [msg] argument of [success] and [fail]. *)
Inductive Msg :=
| MString (s : string)
| MArray (l : list string)
| MUndefined
| MNull.

(** [msg.join('<br/>')] for an array of strings. *)
Fixpoint join (sep : string) (l : list string) : string :=
  match l with
  | [] => ""
  | [x] => x
  | x :: r => x +:+ sep +:+ join sep r
  end.

(** [finalMsg], as the string the [innerHTML] setter receives. *)
Definition finalMsg (msg : Msg) : string :=
  match msg with
  | MString s => s
  | MArray l => join "<br/>" l
  | MUndefined => "undefined"
  | MNull => ""
  end.

Definition dq : string := String "034"%char EmptyString.

Definition icon_markup (isFailed : bool) : string :=
  if isFailed then "<i class=" +:+ dq +:+ "fas fa-times" +:+ dq +:+ "></i>"
  else "<i class=" +:+ dq +:+ "fas fa-check-circle" +:+ dq +:+ "></i>".

Definition message_icon (isFailed : bool) : Node :=
  Element "div" "" ""
    [("fontSize", "3.5rem");
     ("color", if isFailed then "#dc3545" else "#28a745");
     ("marginBottom", "15px")]
    HNull (Markup (icon_markup isFailed) HNull).

Definition message_text (msg : Msg) : Node :=
  Element "p" "" ""
    [("fontSize", "1.1rem"); ("fontWeight", "bold"); ("color", "#333")]
    HNull (Markup (finalMsg msg) HNull).

Definition message_wrapper (msg : Msg) (isFailed : bool) : Node :=
  Element "div" "" ""
    [("textAlign", "center"); ("padding", "10px")]
    HNull (Children [message_text msg; message_icon isFailed]).

Definition successFail (msg : Msg) (duration : option Z) (isFailed : bool)
    : State → State * pid :=
  notif (CNode (message_wrapper msg isFailed))
        (Some (if isFailed then "error" else "success")) duration.

Definition confirm_button (label className : string) (h : Handler) : Node :=
  Element "button" "" className [("margin", "0 5px")] h (InnerText label).

(** The node [confirmModal] builds; [outer] is the promise it returns. *)
Definition confirm_wrapper (text : string) (cl : Closure) (outer : pid) : Node :=
  Element "div" "" "" [] HNull
    (Children
       [Element "h4" "" "" [("marginBottom", "20px")] HNull (InnerText text);
        Element "div" "" "" [("textAlign", "center")] HNull
          (Children
             [confirm_button "بله" "btn btn-success" (HCloseThen cl (ThenResolve outer));
              confirm_button "خیر" "btn btn-danger" (HCloseThen cl (ThenReject outer))])]).

Definition confirmModal (text : string) (st : State) : State * pid :=
  let '(st, outer) := new_promise st in
  let '(st, p) :=
    prepareModal (Some "choice")
      (Some (λ cl, showModal cl (CNode (confirm_wrapper text cl outer))))
      {| opt_close := None; opt_scrollLock := None |} st in
  (register p (CatchReject outer) st, outer).

Definition nl : string := String "010"%char EmptyString.

Definition spinner_markup : string :=
  nl +:+ "                <div class=" +:+ dq +:+ "loader" +:+ dq +:+ " style=" +:+ dq
  +:+ "display:inline-block; border: 4px solid #f3f3f3; border-top: 4px solid #3498db; border-radius: 50%; width: 40px; height: 40px; animation: spin 1s linear infinite;"
  +:+ dq +:+ "></div>" +:+ nl
  +:+ "                <p style=" +:+ dq +:+ "margin-top:10px; color:#555;" +:+ dq
  +:+ ">لطفا صبر کنید...</p>" +:+ nl
  +:+ "                <style>@keyframes spin { 0% { transform: rotate(0deg); } 100% { transform: rotate(360deg); } }</style>"
  +:+ nl +:+ "            ".

Definition spinner (callback : option (Closure → M unit)) : State → State * pid :=
  prepareModal (Some "spinner")
    (Some (λ cl,
       showModal cl (CNode (Element "div" "" "" [("textAlign", "center")] HNull
                              (Markup spinner_markup HNull))) ;>
       match callback with
       | Some f => f cl
       | None => ret tt
       end))
    {| opt_close := Some "locked"; opt_scrollLock := None |}.

(** The object exported at lines 204-211. *)
Definition custom := prepareModal.
Definition confirm := confirmModal.
Definition success (msg : Msg) (duration : option Z) := successFail msg duration false.
Definition fail (msg : Msg) (duration : option Z) := successFail msg duration true.

(** *** The events of the page *)

(** What a click can hit inside the region.  An element that the markup
    of a string holds is known by the place of that markup only: the content
    element itself ([host = []]) or the element of the content at the path
    [host]; the event tells the [id] of the element hit and whether it is
    the close button of that markup, or lies inside it. *)
Inductive Target :=
| OnRegion                      (* the region itself, outside its content *)
| OnElement (path : list nat)   (* the element of the content at this path *)
| InMarkup (host : list nat) (tid : string) (in_btn : bool)
                                (* an element parsed from markup *)
| Elsewhere (tid : string).     (* the content element itself, or another
                                   element of the region outside the content *)

Inductive Event :=
| TransitionEnd        (* a transition of the region has ended *)
| Tick (dt : Z)        (* time passes *)
| Timeout (i : nat)    (* the i-th pending timer, once due, runs *)
| Click (t : Target)
| Scrolled (y : Z).    (* the window is scrolled *)

(** The click handlers from the element at [path] up to the top of the
    content, and the [id] of that element. *)
Fixpoint locate (path : list nat) (l : list Node) : option (list Handler * string) :=
  match path with
  | [] => None
  | i :: rest =>
      match l !! i with
      | Some (Element _ id _ _ h inner) =>
          match rest, inner with
          | [], _ => Some ([h], id)
          | _, Children kids =>
              (λ '(hs, tid), (hs ++ [h], tid)) <$> locate rest kids
          | _, _ => None
          end
      | _ => None
      end
  end.

(** The handler bound to the close button in the markup of the element at
    [host], and the click handlers from that element up to the top of the
    content. *)
Fixpoint locate_markup (host : list nat) (l : list Node)
    : option (Handler * list Handler) :=
  match host with
  | [] => None
  | i :: rest =>
      match l !! i with
      | Some (Element _ _ _ _ h inner) =>
          match rest, inner with
          | [], Markup _ b => Some (b, [h])
          | [], _ => None
          | _, Children kids =>
              (λ '(b, hs), (b, hs ++ [h])) <$> locate_markup rest kids
          | _, _ => None
          end
      | _ => None
      end
  end.

Definition markup_at (host : list nat) (r : Rendered) : option (Handler * list Handler) :=
  match host, r with
  | [], RMarkup _ b => Some (b, [])
  | [], RNodes _ => None
  | _ :: _, RNodes l => locate_markup host l
  | _ :: _, RMarkup _ _ => None
  end.

(** Running a click handler; [on_region] says that [e.target] is the
    region and [tid] is [e.target.id]. *)
Definition run_handler (on_region : bool) (tid : string) (h : Handler)
    (st : State) : State :=
  match h with
  | HNull => st
  | HClose cl => fst (closeModal cl st)
  | HOverlay cl =>
      if on_region || String.eqb tid "closeModal" then fst (closeModal cl st) else st
  | HCloseThen cl r =>
      let '(st, c) := closeModal cl st in register c r st
  end.

Definition run_timer (f : TimerJob) (st : State) : State :=
  match f with
  | FallbackCheck => fallbackCheck st
  | CallClose cl => fst (closeModal cl st)
  end.

(** One task of the event loop, without the microtasks that follow.  A
    click runs the handlers from the element hit up to the region, whose
    [onclick] comes last; a target that names no element of the region
    stands for no click, and changes nothing. *)
Definition handle (ev : Event) (st : State) : State :=
  match ev with
  | TransitionEnd =>
      let ls := listeners (region st) in
      foldl (λ s l, onTransitionEnd l s) (with_region (set_listeners []) st) ls
  | Tick dt =>
      with_loop (λ l, set_now (now l + Z.max 0 dt) l) st
  | Timeout i =>
      match timers (loop st) !! i with
      | Some t =>
          if due t <=? now (loop st) then
            run_timer (job t) (with_loop (λ l, set_timers (delete i (timers l)) l) st)
          else st
      | None => st
      end
  | Click OnRegion =>
      run_handler true "modal" (onclick (region st)) st
  | Click (OnElement path) =>
      match modalContent (region st) with
      | Some (RNodes l) =>
          match locate path l with
          | Some (hs, tid) =>
              let st := foldl (λ s h, run_handler false tid h s) st hs in
              run_handler false tid (onclick (region st)) st
          | None => st
          end
      | _ => st
      end
  | Click (InMarkup host tid in_btn) =>
      match modalContent (region st) with
      | Some r =>
          match markup_at host r with
          | Some (b, hs) =>
              let st := foldl (λ s h, run_handler false tid h s) st
                          ((if in_btn then [b] else []) ++ hs) in
              run_handler false tid (onclick (region st)) st
          | None => st
          end
      | None => st
      end
  | Click (Elsewhere tid) =>
      run_handler false tid (onclick (region st)) st
  | Scrolled y =>
      with_page (λ s, {| currentPos := currentPos s; scrollX := scrollX s;
                         scrollY := y; quirks := quirks s;
                         body_classes := body_classes s; body_top := body_top s;
                         scroll_behavior := scroll_behavior s |}) st
  end.

Definition step (ev : Event) (st : State) : State := drain_all (handle ev st).

Definition run (evs : list Event) (st : State) : State :=
  foldl (λ s ev, step ev s) st evs.

End WithParser.

(** *** Initialisation and the fallback object (lines 8-25, 213) *)

Inductive Level := LLog | LError.
Inductive Arg := AText (s : string) | AMsg (m : Msg).
Record Entry := mkEntry { level : Level; args : list Arg }.
Abbreviation Console := (list Entry).

(** What a call of the fallback object returns. *)
Inductive Returned :=
| RetPromise (s : PState)   (* a promise in this state *)
| RetUndefined.             (* no value *)

(** Code that only has the console to work on, and may throw. *)
Definition FM (A : Type) : Type := Console → Console * (Exn + A).

Module Fallback.

Definition success (msg : Msg) : FM Returned :=
  λ c, (c ++ [mkEntry LLog [AText "Success:"; AMsg msg]],
        inr (RetPromise (Fulfilled VUndefined))).

Definition fail (msg : Msg) : FM Returned :=
  λ c, (c ++ [mkEntry LError [AText "Fail:"; AMsg msg]],
        inr (RetPromise (Fulfilled VUndefined))).

(** [function (func) { if (func) func(); }] *)
Definition spinner (func : option (FM unit)) : FM Returned :=
  λ c, match func with
       | Some f => match f c with
                   | (c', inr _) => (c', inr RetUndefined)
                   | (c', inl e) => (c', inl e)
                   end
       | None => (c, inr RetUndefined)
       end.

Definition confirm : FM Returned :=
  λ c, (c, inr (RetPromise (Fulfilled (VBool true)))).

Definition notif : FM Returned :=
  λ c, (c, inr (RetPromise (Fulfilled VUndefined))).

Definition custom : FM Returned :=
  λ c, (c, inr (RetPromise (Fulfilled VUndefined))).

End Fallback.

Definition missing_region_message : string :=
  "ERROR: <div id=" +:+ dq +:+ "modal" +:+ dq +:+ "> not found in Layout.".

(** What [window.callModal] is after the script has run. *)
Inductive Installed :=
| FallbackObject            (* the object of lines 16-23 *)
| ModalObject (st : State). (* the object of lines 204-211, on this state *)

(** The script body: [modalElement] is what [getElementById('modal')]
    gave, [pg] and [lp] the page and the event loop at that time. *)
Definition init (modalElement : option Region) (pg : Scroll) (lp : Loop)
    (c : Console) : Console * Installed :=
  match modalElement with
  | None => (c ++ [mkEntry LError [AText missing_region_message]], FallbackObject)
  | Some r =>
      (c ++ [mkEntry LLog [AText "Modal Module initialized."]],
       ModalObject {| region := r; page := pg; loop := lp |})
  end.

(** *** A page to run examples on *)

Definition no_markup_button : string → bool := λ _, false.

Definition still_page : Scroll :=
  {| currentPos := 0; scrollX := 0; scrollY := 0; quirks := false;
     body_classes := []; body_top := ""; scroll_behavior := "" |}.

Definition idle_loop : Loop :=
  {| promises := []; jobs := []; timers := []; now := 0 |}.

(** A region without classes, with an empty [.content] child. *)
Definition fresh_page : State :=
  {| region := {| classes := []; onclick := HNull; listeners := [];
                  modalContent := Some (RNodes []) |};
     page := still_page; loop := idle_loop |}.

(** *** Notions used to state the properties *)

(** The class list [prepareModal] installs for [className]: empty for a
    missing or empty name, else its pieces in order, each once. *)
Definition class_tokens (className : option string) : classList :=
  match className with
  | None => []
  | Some c => if String.eqb c "" then [] else foldl add_token [] (split_space c)
  end.

(** Whether [classList.add] accepts the pieces of [className]. *)
Definition className_accepted (className : option string) : bool :=
  match className with
  | None => true
  | Some c => String.eqb c "" || bool_decide (check_tokens (split_space c) = None)
  end.

(** Nodes that [appendChild] takes into the content element. *)
Definition appendable (n : Node) : bool :=
  match n with
  | Element _ _ _ _ _ _ | CharData _ | Fragment _ => true
  | Document | Doctype | Attr | Host => false
  end.

(** Content that [showModal] can render: everything but a node that
    [appendChild] refuses. *)
Definition renderable (content : Content) : bool :=
  match content with
  | CNode n => appendable n
  | CString _ | COther _ => true
  end.

(** Events in which only time passes: no transition ends, nobody clicks. *)
Definition time_only (ev : Event) : bool :=
  match ev with
  | Tick _ | Timeout _ => true
  | TransitionEnd | Click _ | Scrolled _ => false
  end.


(** Where the two buttons of the confirm dialog sit in its content. *)
Definition yes_button : list nat := [0; 1; 0]%nat.
Definition no_button : list nat := [0; 1; 1]%nat.

Definition reaction_target (r : Reaction) : pid :=
  match r with
  | ThenResolve t | ThenReject t | CatchReject t => t
  end.

(** Every promise that a pending listener, reaction or job may settle
    exists already: none of them names a promise yet to be made. *)
Definition store_closed (st : State) : Prop :=
  let n := length (promises (loop st)) in
  (∀ l, l ∈ listeners (region st) → (resolveClose l < n)%nat ∧ (resolve (env l) < n)%nat) ∧
  (∀ q r, q ∈ promises (loop st) → r ∈ reactions q → (reaction_target r < n)%nat) ∧
  (∀ j, j ∈ jobs (loop st) → (reaction_target (fst j) < n)%nat).

(** The handler that lines 54-63 leave in [modalElement.onclick]. *)
Definition close_handler (cl : Closure) : Handler :=
  if String.eqb (close (settings cl)) "all" then HClose cl
  else if String.eqb (close (settings cl)) "overlay" then HOverlay cl
  else HNull.

(** The promise a job settles when it runs, and how. *)
Definition effective (j : Job) : option (pid * PState) :=
  match j with
  | (ThenResolve t, Fulfilled v) => Some (t, Fulfilled v)
  | (ThenReject t, Fulfilled v) => Some (t, Rejected v)
  | (CatchReject t, Rejected _) => Some (t, Rejected VUndefined)
  | _ => None
  end.

(** The first [N] promises and the jobs [js] name promises below [N] only. *)
Definition low_closed (N : nat) (low : list Promise) (js : list Job) : Prop :=
  length low = N ∧
  (∀ q r, q ∈ low → r ∈ reactions q → (reaction_target r < N)%nat) ∧
  (∀ j, j ∈ js → (reaction_target (fst j) < N)%nat).

(** From [s] to [s'] nothing happened but that promises were made. *)
Definition only_new_promises (s s' : State) : Prop :=
  region s' = region s ∧ page s' = page s ∧ jobs (loop s') = [] ∧
  ∃ extra, promises (loop s') = promises (loop s) ++ extra.

(** [confirmModal] passes no options: these are its settings. *)
Definition confirm_closure (m : pid) : Closure :=
  mkClosure (mkSettings "overlay" false) m.

Definition button_reaction (yes : bool) (o : pid) : Reaction :=
  if yes then ThenResolve o else ThenReject o.

Definition button_path (yes : bool) : list nat :=
  if yes then yes_button else no_button.

Definition button_outcome (yes : bool) : PState :=
  if yes then Fulfilled VUndefined else Rejected VUndefined.

(** *** Well-formed states *)

(** A closure, reaction or handler is in order below [n] when the promises
    it names are among the first [n]. *)
Definition closure_ok (n : nat) (cl : Closure) : bool := (resolve cl <? n)%nat.

Definition reaction_ok (n : nat) (r : Reaction) : bool := (reaction_target r <? n)%nat.

Definition handler_ok (n : nat) (h : Handler) : bool :=
  match h with
  | HNull => true
  | HClose cl | HOverlay cl => closure_ok n cl
  | HCloseThen cl r => closure_ok n cl && reaction_ok n r
  end.

Fixpoint node_ok (n : nat) (x : Node) : bool :=
  match x with
  | Element _ _ _ _ h inner =>
      handler_ok n h &&
      match inner with
      | Markup _ b => handler_ok n b
      | InnerText _ => true
      | Children l => forallb (node_ok n) l
      end
  | Fragment kids => forallb (node_ok n) kids
  | _ => true
  end.

Definition rendered_ok (n : nat) (r : Rendered) : bool :=
  match r with
  | RMarkup _ b => handler_ok n b
  | RNodes l => forallb (node_ok n) l
  end.

Definition content_ok (n : nat) (content : Content) : bool :=
  match content with
  | CNode x => node_ok n x
  | CString _ | COther _ => true
  end.

Definition listener_ok (n : nat) (l : Listener) : bool :=
  closure_ok n (env l) && (resolveClose l <? n)%nat.

Definition timer_ok (n : nat) (t : Timer) : bool :=
  match job t with
  | FallbackCheck => true
  | CallClose cl => closure_ok n cl
  end.

(** Everything the state holds names promises of the store only. *)
Definition well_formed (st : State) : bool :=
  let n := length (promises (loop st)) in
  handler_ok n (onclick (region st)) &&
  forallb (listener_ok n) (listeners (region st)) &&
  from_option (rendered_ok n) true (modalContent (region st)) &&
  forallb (λ q, forallb (reaction_ok n) (reactions q)) (promises (loop st)) &&
  forallb (λ j, reaction_ok n (fst j)) (jobs (loop st)) &&
  forallb (timer_ok n) (timers (loop st)).

(** The same, against a bound [n] given apart from the store. *)
Definition wf_at (n : nat) (st : State) : Prop :=
  handler_ok n (onclick (region st)) = true ∧
  forallb (listener_ok n) (listeners (region st)) = true ∧
  from_option (rendered_ok n) true (modalContent (region st)) = true ∧
  forallb (λ q, forallb (reaction_ok n) (reactions q)) (promises (loop st)) = true ∧
  forallb (λ j, reaction_ok n (fst j)) (jobs (loop st)) = true ∧
  forallb (timer_ok n) (timers (loop st)) = true.

Definition wf (st : State) : Prop := wf_at (length (promises (loop st))) st.

(** A setup function that keeps the state well formed and makes no promise. *)
Definition setup_ok (n : nat) (f : Closure → M unit) : Prop :=
  ∀ cl st, length (promises (loop st)) = n → closure_ok n cl = true → wf_at n st →
           wf_at n (fst (f cl st)) ∧ length (promises (loop (fst (f cl st)))) = n.

(** The page has the [.content] element. *)
Definition has_container (st : State) : Prop := is_Some (modalContent (region st)).

(** *** Histories of a page *)

(** Calls of the public surface, with content the module builds itself. *)
Inductive Call :=
| CallConfirm (text : string)
| CallSuccess (msg : Msg) (duration : option Z)
| CallFail (msg : Msg) (duration : option Z)
| CallNotif (markup : string) (className : option string) (duration : option Z)
| CallSpinner.

Inductive Action :=
| Do (c : Call)      (* a script calls the module, then its task ends *)
| See (ev : Event).  (* the page sees an event *)

Section Acting.

Variable oracle : string → bool.

Definition perform (c : Call) (st : State) : State :=
  match c with
  | CallConfirm text => fst (confirm oracle text st)
  | CallSuccess msg d => fst (success oracle msg d st)
  | CallFail msg d => fst (fail oracle msg d st)
  | CallNotif s cls d => fst (notif oracle (CString s) cls d st)
  | CallSpinner => fst (spinner oracle None st)
  end.

Definition act (a : Action) (st : State) : State :=
  match a with
  | Do c => drain_all (perform c st)
  | See ev => step ev st
  end.

Definition acts (l : list Action) (st : State) : State := foldl (λ s a, act a s) st l.

End Acting.

(** *** Example states *)

(** The page after [success("Saved")]: a notification is on display. *)
Definition shown_notice : State :=
  fst (success no_markup_button (MString "Saved") None fresh_page).

(** The closure of that notification. *)
Definition notice_closure : Closure := mkClosure (mkSettings "all" false) 0.

(** That page once the notification is being closed: its listener waits
    for the transition to end. *)
Definition closing_notice : State :=
  drain_all (fst (closeModal notice_closure shown_notice)).

(** A page scrolled down by 120 pixels. *)
Definition reading_page : State :=
  {| region := region fresh_page;
     page := {| currentPos := 0; scrollX := 0; scrollY := 120; quirks := false;
                body_classes := []; body_top := ""; scroll_behavior := "" |};
     loop := idle_loop |}.

(** A closure of an open call made with [scrollLock: true]. *)
Definition locking_closure : Closure := mkClosure (mkSettings "overlay" true) 0.

(** *** What an open call shows *)

(** What [showModal] puts into the content element (lines 92-97), before
    it looks for the close button. *)
Definition rendering (content : Content) : Exn + Rendered :=
  match content with
  | CString s => inr (RMarkup s HNull)
  | CNode n => appendChild n
  | COther _ => inr (RNodes [])
  end.

(** Whether the region is on display. *)
Definition visible (st : State) : bool := contains "active" (classes (region st)).


(** Whether a click target names an element of the region as it is now. *)
Definition target_exists (t : Target) (st : State) : bool :=
  match t with
  | OnRegion | Elsewhere _ => true
  | OnElement path =>
      match modalContent (region st) with
      | Some (RNodes l) => match locate path l with Some _ => true | None => false end
      | _ => false
      end
  | InMarkup host _ _ =>
      match modalContent (region st) with
      | Some r => match markup_at host r with Some _ => true | None => false end
      | None => false
      end
  end.



End Modal.

(** * Properties *)

(** ** Class lists *)

Module DomFacts.
Import Dom.

(** With one valid token, [add] cannot throw and is [add_token]. *)
Lemma add_single (t : string) (l : classList) :
  check_token t = None → add [t] l = inr (add_token l t).
Proof. intros H. unfold add. simpl. by rewrite H. Qed.

Lemma contains_true (t : string) (l : classList) : contains t l = true ↔ t ∈ l.
Proof. unfold contains. apply bool_decide_eq_true. Qed.

Lemma contains_false (t : string) (l : classList) : contains t l = false ↔ t ∉ l.
Proof. unfold contains. apply bool_decide_eq_false. Qed.

Lemma elem_of_remove (t x : string) (l : classList) :
  x ∈ remove t l ↔ x ≠ t ∧ x ∈ l.
Proof. unfold remove. by rewrite list_elem_of_filter. Qed.

Lemma elem_of_add_token (t x : string) (l : classList) :
  x ∈ add_token l t ↔ x = t ∨ x ∈ l.
Proof.
  unfold add_token. destruct (contains t l) eqn:E.
  - apply contains_true in E. split; [by right | intros [->|]; done].
  - rewrite elem_of_app, list_elem_of_singleton. tauto.
Qed.

Lemma remove_absent (t : string) (l : classList) : t ∉ l → remove t l = l.
Proof.
  induction l as [|x l IH]; [done|].
  intros H. apply not_elem_of_cons in H as [Hx Hl].
  unfold remove. rewrite filter_cons_True by congruence.
  f_equal. by apply IH.
Qed.

Lemma remove_add_token_absent (t : string) (l : classList) :
  t ∉ l → remove t (add_token l t) = l.
Proof.
  intros H. unfold add_token.
  rewrite (proj2 (contains_false t l) H).
  unfold remove. rewrite filter_app. fold (remove t l).
  rewrite (remove_absent _ _ H).
  rewrite filter_cons_False by (intros ?; congruence).
  rewrite filter_nil. apply app_nil_r.
Qed.

Lemma remove_add_token (t : string) (l : classList) :
  remove t (add_token l t) = remove t l.
Proof.
  unfold add_token. destruct (contains t l); [done|].
  unfold remove. rewrite filter_app, filter_cons_False by (intros ?; congruence).
  by rewrite filter_nil, app_nil_r.
Qed.

Lemma not_active_after_remove (l : classList) :
  contains "active" (remove "active" l) = false.
Proof. apply contains_false. rewrite elem_of_remove. by intros [? _]. Qed.

Lemma not_active_after_remove' (t : string) (l : classList) :
  contains t (remove t l) = false.
Proof. apply contains_false. rewrite elem_of_remove. by intros [? _]. Qed.

End DomFacts.

(** ** The panel toggler *)

Module ColapsFacts.
Import Dom DomFacts Colaps.

Lemma add_literals (l : classList) :
  add ["giveContent"] l = inr (add_token l "giveContent") ∧
  add ["active"] l = inr (add_token l "active").
Proof. split; by apply add_single. Qed.

Lemma click_mirrored (p : Panel) : mirrored (click p).
Proof.
  unfold mirrored, click.
  destruct (contains "giveContent" (content p)); simpl.
  - rewrite !elem_of_remove. split; intros [? _]; done.
  - rewrite !elem_of_add_token. split; intros _; by left.
Qed.

Lemma clicks_snoc (n : nat) (p : Panel) : clicks (S n) p = click (clicks n p).
Proof.
  revert p. induction n as [|n IH]; intros p; [done|].
  change (clicks (S (S n)) p) with (clicks (S n) (click p)).
  by rewrite IH.
Qed.

(** C10: after any click on a header, whatever the two class lists were
    before, the icon carries [active] exactly when the content carries
    [giveContent]; so this holds after every positive number of clicks. *)
Theorem clicks_keep_icon_mirrored (p : Panel) (n : nat) :
  mirrored (clicks (S n) p).
Proof. rewrite clicks_snoc. apply click_mirrored. Qed.

(** Two clicks on a panel that starts collapsed, with an icon that is not
    marked, give back the very same class lists. *)
Lemma click_twice_collapsed (p : Panel) :
  "giveContent" ∉ content p → "active" ∉ icon p → click (click p) = p.
Proof.
  intros Hc Hi. unfold click at 2.
  rewrite (proj2 (contains_false _ _) Hc).
  unfold click. simpl.
  assert (contains "giveContent" (add_token (content p) "giveContent") = true) as ->.
  { apply contains_true, elem_of_add_token. by left. }
  simpl. rewrite !remove_add_token_absent by done. by destruct p.
Qed.

(** C8, as amended: on a panel whose icon mirrors its content, two clicks
    give both elements the classes they had (the same tokens; the toggled
    token may have moved to the end of its list), and exactly the same lists
    when the panel started collapsed. *)
Theorem click_twice_mirrored (p : Panel) :
  mirrored p →
  (∀ t, t ∈ content (click (click p)) ↔ t ∈ content p) ∧
  (∀ t, t ∈ icon (click (click p)) ↔ t ∈ icon p) ∧
  ("giveContent" ∉ content p → click (click p) = p).
Proof.
  intros Hm. unfold mirrored in Hm.
  destruct (contains "giveContent" (content p)) eqn:E.
  - apply contains_true in E.
    assert ("active" ∈ icon p) as Ha by (by apply Hm).
    assert (click (click p)
            = mkPanel (add_token (remove "giveContent" (content p)) "giveContent")
                      (add_token (remove "active" (icon p)) "active")) as ->.
    { unfold click at 2. rewrite (proj2 (contains_true _ _) E).
      unfold click. simpl. by rewrite not_active_after_remove'. }
    simpl. split_and!; [| |done].
    + intros t. rewrite elem_of_add_token, elem_of_remove. split.
      * intros [->|[_ ?]]; done.
      * intros ?. destruct (decide (t = "giveContent")); [by left | by right].
    + intros t. rewrite elem_of_add_token, elem_of_remove. split.
      * intros [->|[_ ?]]; done.
      * intros ?. destruct (decide (t = "active")); [by left | by right].
  - apply contains_false in E.
    assert ("active" ∉ icon p) as Ha by (intros ?; by apply E, Hm).
    rewrite (click_twice_collapsed p E Ha). done.
Qed.

Lemma click_twice_mirrored_witness :
  mirrored (mkPanel ["giveContent"; "wide"] ["fa"; "active"]) ∧
  ∀ t, t ∈ icon (click (click (mkPanel ["giveContent"; "wide"] ["fa"; "active"])))
       ↔ t ∈ ["fa"; "active"].
Proof.
  assert (mirrored (mkPanel ["giveContent"; "wide"] ["fa"; "active"])) as Hm.
  { unfold mirrored. simpl. rewrite !elem_of_cons. split; intros _; auto. }
  split; [exact Hm|].
  exact (proj1 (proj2 (click_twice_mirrored _ Hm))).
Defined.

(** C8 as stated fails: a collapsed panel whose icon is already marked
    loses the mark after two clicks. *)
Lemma click_twice_loses_stray_mark :
  click (click (mkPanel [] ["active"])) = mkPanel [] [] ∧
  ¬ (∀ t, t ∈ icon (click (click (mkPanel [] ["active"]))) ↔ t ∈ icon (mkPanel [] ["active"])).
Proof.
  split; [reflexivity|].
  intros H. specialize (H "active"). simpl in H.
  assert ("active" ∈ ([] : list string)) as Hin.
  { apply H. rewrite elem_of_cons. by left. }
  by apply elem_of_nil in Hin.
Qed.

(** *** Any number of clicks *)

Lemma remove_twice (t : string) (l : classList) : remove t (remove t l) = remove t l.
Proof. apply remove_absent. rewrite elem_of_remove. by intros [? _]. Qed.

Lemma contains_add_token (t : string) (l : classList) : contains t (add_token l t) = true.
Proof. apply contains_true, elem_of_add_token. by left. Qed.

Lemma click_flips (p : Panel) :
  contains "giveContent" (content (click p)) = negb (contains "giveContent" (content p)) ∧
  remove "giveContent" (content (click p)) = remove "giveContent" (content p) ∧
  remove "active" (icon (click p)) = remove "active" (icon p).
Proof.
  unfold click. destruct (contains "giveContent" (content p)) eqn:E; simpl.
  - by rewrite not_active_after_remove', !remove_twice.
  - by rewrite contains_add_token, !remove_add_token.
Qed.

(** X1: [n] clicks on a header show the content when its visibility before
    differs from the parity of [n], and they touch no class but
    [giveContent] on the content and [active] on the icon: all other
    classes stay, in their order. *)
Theorem clicks_toggle_one_class (p : Panel) (n : nat) :
  contains "giveContent" (content (clicks n p))
    = xorb (contains "giveContent" (content p)) (Nat.odd n) ∧
  remove "giveContent" (content (clicks n p)) = remove "giveContent" (content p) ∧
  remove "active" (icon (clicks n p)) = remove "active" (icon p).
Proof.
  induction n as [|n (IH1 & IH2 & IH3)].
  - simpl. by rewrite xorb_false_r.
  - rewrite clicks_snoc.
    destruct (click_flips (clicks n p)) as (H1 & H2 & H3).
    rewrite H1, H2, H3, IH1, IH2, IH3, Nat.odd_succ, <- Nat.negb_odd.
    split_and!; try done.
    by destruct (contains "giveContent" (content p)), (Nat.odd n).
Qed.

(** *** Headers with a missing neighbour or icon *)

Lemma click_header_complete (c i : classList) :
  click_header (mkHeader (Some c) (Some i))
  = (mkHeader (Some (content (click (mkPanel c i)))) (Some (icon (click (mkPanel c i)))), None).
Proof. unfold click_header, click. simpl. by destruct (contains "giveContent" c). Qed.

Lemma click_header_no_icon (c : classList) :
  click_header (mkHeader (Some c) None)
  = (mkHeader (Some (content (click (mkPanel c [])))) None, Some TypeError).
Proof. unfold click_header, click. simpl. by destruct (contains "giveContent" c). Qed.

(** X2: on a header whose icon was not found, every click still toggles
    the content element as on a complete panel and then raises a TypeError;
    on a header without a following sibling a click changes nothing and
    raises; on a complete header no click raises. *)
Theorem clicks_on_incomplete_headers (c i : classList) (n : nat) :
  clicks_header n (mkHeader (Some c) None)
    = (mkHeader (Some (content (clicks n (mkPanel c i)))) None, replicate n TypeError) ∧
  clicks_header n (mkHeader None (Some i))
    = (mkHeader None (Some i), replicate n TypeError) ∧
  clicks_header n (mkHeader (Some c) (Some i))
    = (mkHeader (Some (content (clicks n (mkPanel c i)))) (Some (icon (clicks n (mkPanel c i)))),
       []).
Proof.
  split_and!.
  - revert c i. induction n as [|n IH]; intros c i; [done|].
    simpl. rewrite click_header_no_icon, (IH _ (icon (click (mkPanel c i)))).
    do 4 f_equal. unfold click. simpl. by destruct (contains "giveContent" c).
  - induction n as [|n IH]; [done|]. simpl. by rewrite IH.
  - revert c i. induction n as [|n IH]; intros c i; [done|].
    simpl. rewrite click_header_complete, IH. by destruct (click (mkPanel c i)).
Qed.

End ColapsFacts.

(** ** The modal controller *)

Module ModalFacts.
Import Dom DomFacts Modal.

Ltac open_state :=
  unfold with_region, with_loop, with_page, set_classes, set_onclick, set_listeners,
    set_modalContent, set_promises, set_jobs, set_timers, set_now; simpl.

(** *** Lists of promises *)

Lemma lookup_after {A} (l h : list A) (k : nat) :
  (l ++ h) !! (length l + k)%nat = h !! k.
Proof. rewrite lookup_app_r by lia. f_equal. lia. Qed.

Lemma insert_after {A} (l h : list A) (k : nat) (x : A) :
  <[(length l + k)%nat := x]> (l ++ h) = l ++ <[k := x]> h.
Proof. rewrite insert_app_r_alt by lia. do 2 f_equal. lia. Qed.

Lemma sum_list_insert {A} (f : A → nat) (l : list A) (i : nat) (x y : A) :
  l !! i = Some x →
  (sum_list (map f (<[i := y]> l)) + f x = sum_list (map f l) + f y)%nat.
Proof.
  revert i. induction l as [|a l IH]; intros [|i] H; simplify_eq/=; [lia|].
  specialize (IH i H). lia.
Qed.

(** *** What each operation leaves alone *)

Lemma region_settle (p : pid) (s : PState) (st : State) :
  region (settle p s st) = region st.
Proof. unfold settle. by repeat case_match. Qed.

Lemma page_settle (p : pid) (s : PState) (st : State) :
  page (settle p s st) = page st.
Proof. unfold settle. by repeat case_match. Qed.

Lemma region_run_job (j : Job) (st : State) : region (run_job j st) = region st.
Proof. unfold run_job. repeat case_match; try done; apply region_settle. Qed.

Lemma page_run_job (j : Job) (st : State) : page (run_job j st) = page st.
Proof. unfold run_job. repeat case_match; try done; apply page_settle. Qed.

Lemma region_drain (n : nat) (st : State) : region (drain n st) = region st.
Proof.
  revert st. induction n as [|n IH]; intros st; simpl; [done|].
  destruct (jobs (loop st)); [done|].
  by rewrite IH, region_run_job.
Qed.

Lemma page_drain (n : nat) (st : State) : page (drain n st) = page st.
Proof.
  revert st. induction n as [|n IH]; intros st; simpl; [done|].
  destruct (jobs (loop st)); [done|].
  by rewrite IH, page_run_job.
Qed.

Lemma drain_idle (n : nat) (st : State) : jobs (loop st) = [] → drain n st = st.
Proof. intros H. destruct n; simpl; [done|]. by rewrite H. Qed.

Lemma drain_all_idle (st : State) : jobs (loop st) = [] → drain_all st = st.
Proof. apply drain_idle. Qed.

Lemma region_onTransitionEnd (l : Listener) (st : State) :
  region (onTransitionEnd l st) = region st.
Proof. unfold onTransitionEnd. rewrite !region_settle. by case_match. Qed.

Lemma region_dispatch (ls : list Listener) (st : State) :
  region (foldl (λ s l, onTransitionEnd l s) st ls) = region st.
Proof.
  revert st. induction ls as [|l ls IH]; intros st; simpl; [done|].
  by rewrite IH, region_onTransitionEnd.
Qed.

Lemma classes_step_TransitionEnd (st : State) :
  classes (region (step TransitionEnd st)) = classes (region st).
Proof.
  unfold step, drain_all. rewrite region_drain. simpl.
  by rewrite region_dispatch.
Qed.

Lemma page_onTransitionEnd (l : Listener) (st : State) :
  page (onTransitionEnd l st)
  = if scrollLock (settings (env l)) then unlock (page st) else page st.
Proof. unfold onTransitionEnd. rewrite !page_settle. by case_match. Qed.

Lemma currentPos_dispatch (ls : list Listener) (st : State) :
  currentPos (page (foldl (λ s l, onTransitionEnd l s) st ls)) = currentPos (page st).
Proof.
  revert st. induction ls as [|l ls IH]; intros st; simpl; [done|].
  rewrite IH, page_onTransitionEnd. by case_match.
Qed.

(** *** Settling promises *)

(** The two ways [settle] can go. *)
Lemma settle_cases (p : pid) (s : PState) (st : State) :
  (∃ rs, promises (loop st) !! p = Some (mkPromise Pending rs) ∧
         settle p s st =
           with_loop (λ l, set_jobs (jobs l ++ map (λ r, (r, s)) rs)
                             (set_promises (<[p := mkPromise s []]> (promises l)) l)) st)
  ∨ ((∀ rs, promises (loop st) !! p ≠ Some (mkPromise Pending rs)) ∧ settle p s st = st).
Proof.
  unfold settle.
  destruct (promises (loop st) !! p) as [[[|v|v] rs]|] eqn:E; eauto.
Qed.

(** Settling the promise just made, which nothing has reacted to yet. *)
Lemma settle_new (s : PState) (st : State) :
  settle (length (promises (loop st))) s (fst (new_promise st))
  = with_loop (λ l, set_promises (promises l ++ [mkPromise s []]) l) st.
Proof.
  unfold settle, new_promise. simpl.
  rewrite list_lookup_middle by done.
  open_state. rewrite app_nil_r.
  rewrite <- (Nat.add_0_r (length (promises (loop st)))) at 1.
  by rewrite insert_after.
Qed.

Lemma settle_pending_state (p : pid) (s : PState) (st : State) (rs : list Reaction) :
  promises (loop st) !! p = Some (mkPromise Pending rs) →
  promise_state p (settle p s st) = Some s.
Proof.
  intros H. unfold settle, promise_state. rewrite H. simpl.
  rewrite list_lookup_insert_eq; [done|]. by eapply lookup_lt_Some.
Qed.

Lemma settle_lookup_ne (p q : pid) (s : PState) (st : State) :
  p ≠ q → promises (loop (settle p s st)) !! q = promises (loop st) !! q.
Proof.
  intros Hne.
  destruct (settle_cases p s st) as [(rs & Hp & ->)|[_ ->]]; [|done].
  simpl. by rewrite list_lookup_insert_ne.
Qed.

(** A promise that is settled stays as it is. *)
Lemma settle_settled (p q : pid) (s s' : PState) (st : State) :
  promise_state q st = Some s' → s' ≠ Pending →
  promise_state q (settle p s st) = Some s'.
Proof.
  intros Hq Hs. destruct (decide (p = q)) as [->|Hne].
  - destruct (settle_cases q s st) as [(rs & Hp & _)|[_ ->]]; [|done].
    unfold promise_state in Hq. rewrite Hp in Hq. simpl in Hq. congruence.
  - unfold promise_state. by rewrite settle_lookup_ne.
Qed.

Lemma settle_reactions (p : pid) (s : PState) (st : State) (q : Promise) (r : Reaction) :
  q ∈ promises (loop (settle p s st)) → r ∈ reactions q →
  q ∈ promises (loop st).
Proof.
  destruct (settle_cases p s st) as [(rs & Hp & ->)|[_ ->]]; [|done].
  simpl. intros Hq Hr.
  apply list_elem_of_lookup in Hq as [i Hi].
  destruct (decide (i = p)) as [->|Hne].
  - rewrite list_lookup_insert_eq in Hi by (by eapply lookup_lt_Some).
    simplify_eq. simpl in Hr. by apply elem_of_nil in Hr.
  - rewrite list_lookup_insert_ne in Hi by done.
    by eapply list_elem_of_lookup_2.
Qed.

Lemma settle_jobs (p : pid) (s : PState) (st : State) (j : Job) :
  j ∈ jobs (loop (settle p s st)) →
  j ∈ jobs (loop st) ∨
  ∃ q, q ∈ promises (loop st) ∧ fst j ∈ reactions q ∧ snd j = s.
Proof.
  destruct (settle_cases p s st) as [(rs & Hp & ->)|[_ ->]]; [|by left].
  simpl. rewrite elem_of_app, list_elem_of_fmap.
  intros [?|(r & -> & Hr)]; [by left|right].
  exists (mkPromise Pending rs). split_and!; [|done|done].
  by eapply list_elem_of_lookup_2.
Qed.

Lemma settle_jobs_mono (p : pid) (s : PState) (st : State) (j : Job) :
  j ∈ jobs (loop st) → j ∈ jobs (loop (settle p s st)).
Proof.
  destruct (settle_cases p s st) as [(rs & Hp & ->)|[_ ->]]; [|done].
  simpl. intros ?. apply elem_of_app. by left.
Qed.

(** Settling moves reactions into the queue: the work left is the same. *)
Lemma pending_work_settle (p : pid) (s : PState) (st : State) :
  pending_work (loop (settle p s st)) = pending_work (loop st).
Proof.
  destruct (settle_cases p s st) as [(rs & Hp & ->)|[_ ->]]; [|done].
  unfold pending_work. simpl.
  rewrite length_app, length_map.
  pose proof (sum_list_insert (λ q, length (reactions q)) _ _ _ (mkPromise s []) Hp) as H.
  simpl in H. lia.
Qed.

Lemma settle_high (low high : list Promise) (k : nat) (rs : list Reaction)
    (s : PState) (st : State) :
  promises (loop st) = low ++ high →
  high !! k = Some (mkPromise Pending rs) →
  settle (length low + k) s st =
    with_loop (λ l, set_jobs (jobs l ++ map (λ r, (r, s)) rs)
                      (set_promises (low ++ <[k := mkPromise s []]> high) l)) st.
Proof.
  intros Hps Hk. unfold settle. rewrite Hps, lookup_after, Hk.
  open_state. by rewrite Hps, insert_after.
Qed.

(** Settling a promise below [N] stays below [N]. *)
Lemma settle_low (N : nat) (low high : list Promise) (p : pid) (s : PState) (st : State) :
  promises (loop st) = low ++ high →
  low_closed N low (jobs (loop st)) →
  (p < N)%nat →
  ∃ low', promises (loop (settle p s st)) = low' ++ high ∧
          low_closed N low' (jobs (loop (settle p s st))).
Proof.
  intros Hps (Hlen & Hrs & Hjs) Hp.
  destruct (settle_cases p s st) as [(rs & Hc & ->)|[_ ->]]; [|by exists low].
  rewrite Hps in Hc. rewrite lookup_app_l in Hc by lia.
  exists (<[p := mkPromise s []]> low). simpl. split.
  - rewrite Hps. by rewrite insert_app_l by lia.
  - split_and!.
    + by rewrite length_insert.
    + intros q r Hq Hr. apply list_elem_of_lookup in Hq as [i Hi].
      destruct (decide (i = p)) as [->|Hne].
      * rewrite list_lookup_insert_eq in Hi by lia. simplify_eq. simpl in Hr.
        by apply elem_of_nil in Hr.
      * rewrite list_lookup_insert_ne in Hi by done.
        eapply Hrs; [|exact Hr]. by eapply list_elem_of_lookup_2.
    + intros j. rewrite elem_of_app, list_elem_of_fmap.
      intros [?|(r & -> & Hr)]; [by apply Hjs|]. simpl.
      apply (Hrs (mkPromise Pending rs) r); [|exact Hr].
      by eapply list_elem_of_lookup_2.
Qed.

Lemma onTransitionEnd_low (N : nat) (low high : list Promise) (l : Listener) (st : State) :
  promises (loop st) = low ++ high →
  low_closed N low (jobs (loop st)) →
  (resolveClose l < N)%nat → (resolve (env l) < N)%nat →
  ∃ low', promises (loop (onTransitionEnd l st)) = low' ++ high ∧
          low_closed N low' (jobs (loop (onTransitionEnd l st))).
Proof.
  intros Hps Hlow Hc Hm. unfold onTransitionEnd.
  set (st1 := if scrollLock (settings (env l)) then with_page unlock st else st).
  assert (loop st1 = loop st) as Hl by (unfold st1; by case_match).
  rewrite <- Hl in Hps, Hlow.
  destruct (settle_low N low high (resolveClose l) (Fulfilled VUndefined) st1 Hps Hlow Hc)
    as (low1 & Hps1 & Hlow1).
  exact (settle_low N low1 high _ _ _ Hps1 Hlow1 Hm).
Qed.

(** Listeners of earlier calls settle earlier promises only. *)
Lemma dispatch_low (N : nat) (high : list Promise) (ls : list Listener) :
  ∀ (low : list Promise) (st : State),
  promises (loop st) = low ++ high →
  low_closed N low (jobs (loop st)) →
  (∀ l, l ∈ ls → (resolveClose l < N)%nat ∧ (resolve (env l) < N)%nat) →
  ∃ low', promises (loop (foldl (λ s l, onTransitionEnd l s) st ls)) = low' ++ high ∧
          low_closed N low' (jobs (loop (foldl (λ s l, onTransitionEnd l s) st ls))).
Proof.
  induction ls as [|l ls IH]; intros low st Hps Hlow Hls; simpl; [by exists low|].
  destruct (Hls l) as [Hc Hm]; [rewrite elem_of_cons; by left|].
  destruct (onTransitionEnd_low N low high l st Hps Hlow Hc Hm) as (low1 & Hps1 & Hlow1).
  apply (IH low1); [done|done|].
  intros l' ?. apply Hls. rewrite elem_of_cons. by right.
Qed.

(** *** Running the microtask queue *)

Lemma run_job_effective (j : Job) (st : State) :
  run_job j st = match effective j with
                 | Some (t, s) => settle t s st
                 | None => st
                 end.
Proof. destruct j as [[t|t|t] [|v|v]]; done. Qed.

Lemma effective_target (j : Job) (t : pid) (s : PState) :
  effective j = Some (t, s) → t = reaction_target (fst j).
Proof. destruct j as [[u|u|u] [|v|v]]; simpl; congruence. Qed.

Lemma effective_button (yes : bool) (o : pid) :
  effective (button_reaction yes o, Fulfilled VUndefined) = Some (o, button_outcome yes).
Proof. by destruct yes. Qed.

Lemma drain_settled (n : nat) (q : pid) (s : PState) (st : State) :
  promise_state q st = Some s → s ≠ Pending →
  promise_state q (drain n st) = Some s.
Proof.
  revert st. induction n as [|n IH]; intros st Hq Hs; simpl; [done|].
  destruct (jobs (loop st)) as [|j js] eqn:Ej; [done|].
  apply IH; [|done].
  rewrite run_job_effective.
  destruct (effective j) as [[t s']|]; [by apply settle_settled|done].
Qed.

(** [pending_work] jobs are enough to empty the queue. *)
Lemma drain_all_done (n : nat) (st : State) :
  (pending_work (loop st) ≤ n)%nat → jobs (loop (drain n st)) = [].
Proof.
  revert st. induction n as [|n IH]; intros st Hn; simpl.
  - unfold pending_work in Hn. destruct (jobs (loop st)); [done|simpl in Hn; lia].
  - destruct (jobs (loop st)) as [|j js] eqn:Ej; [done|].
    apply IH. rewrite run_job_effective.
    assert (pending_work (loop (with_loop (set_jobs js) st)) ≤ n)%nat as Hn'.
    { unfold pending_work in *. rewrite Ej in Hn. simpl in *. lia. }
    destruct (effective j) as [[t s]|]; [by rewrite pending_work_settle|done].
Qed.

(** If the only jobs that can settle [o] settle it as [s0], and there is
    one, a full run of the queue leaves [o] in state [s0]. *)
Lemma drain_delivers (o : pid) (s0 : PState) (n : nat) (st : State) :
  s0 ≠ Pending →
  promise_state o st = Some Pending →
  (∀ q r, q ∈ promises (loop st) → r ∈ reactions q → reaction_target r ≠ o) →
  (∀ j s, j ∈ jobs (loop st) → effective j = Some (o, s) → s = s0) →
  (∃ j, j ∈ jobs (loop st) ∧ effective j = Some (o, s0)) →
  (pending_work (loop st) ≤ n)%nat →
  promise_state o (drain n st) = Some s0.
Proof.
  intros Hs0. revert st.
  induction n as [|n IH]; intros st Ho Hrs Hjs (j0 & Hin0 & Hj0) Hn.
  - exfalso. unfold pending_work in Hn.
    destruct (jobs (loop st)); [by apply elem_of_nil in Hin0|simpl in Hn; lia].
  - simpl. destruct (jobs (loop st)) as [|j js] eqn:Ej; [by apply elem_of_nil in Hin0|].
    rewrite run_job_effective.
    set (st' := with_loop (set_jobs js) st).
    assert (pending_work (loop st') ≤ n)%nat as Hn'.
    { unfold pending_work in *. rewrite Ej in Hn. simpl in *. lia. }
    destruct (effective j) as [[t s]|] eqn:Eeff.
    + destruct (decide (t = o)) as [->|Hne].
      * assert (s = s0) as -> by (eapply Hjs; [rewrite elem_of_cons; by left|done]).
        apply drain_settled; [|done].
        unfold promise_state in Ho.
        destruct (promises (loop st) !! o) as [[ps rs]|] eqn:Ec; simplify_eq/=.
        by eapply (settle_pending_state o s0 st' rs).
      * apply IH.
        -- unfold promise_state. rewrite settle_lookup_ne by done. exact Ho.
        -- intros q r Hq Hr. eapply Hrs; [|exact Hr].
           by eapply (settle_reactions t s st' q r).
        -- intros j' s' Hin' He'.
           apply settle_jobs in Hin' as [Hin'|(q & Hq & Hr & _)].
           ++ eapply Hjs; [|exact He']. rewrite elem_of_cons. by right.
           ++ exfalso. apply effective_target in He'.
              eapply Hrs; [exact Hq|exact Hr|done].
        -- exists j0. split; [|done]. apply settle_jobs_mono. simpl.
           apply elem_of_cons in Hin0 as [->|?]; [|done]. congruence.
        -- by rewrite pending_work_settle.
    + apply IH; try done.
      * intros j' s' Hin' He'. eapply Hjs; [|exact He']. rewrite elem_of_cons. by right.
      * exists j0. split; [|done]. simpl.
        apply elem_of_cons in Hin0 as [->|?]; [|done]. congruence.
Qed.

(** *** [showModal], [closeModal] and [prepareModal] *)

Lemma executor_unfold (className : option string)
    (setupFunc : option (Closure → M unit)) (cl : Closure) (st : State) :
  executor className setupFunc cl st =
  match apply_className className (with_region (set_classes []) st) with
  | (s1, inl e) => (s1, inl e)
  | (s1, inr _) =>
      match setupFunc with
      | Some f => f cl (with_region (set_onclick (close_handler cl)) s1)
      | None => (with_region (set_onclick (close_handler cl)) s1, inr tt)
      end
  end.
Proof.
  unfold executor, bind, modify, ret, close_handler.
  destruct (apply_className className _) as [s1 [e|[]]]; [done|].
  destruct (String.eqb (close (settings cl)) "all"); simpl.
  - by destruct setupFunc.
  - destruct (String.eqb (close (settings cl)) "overlay"); simpl; by destruct setupFunc.
Qed.

Lemma loop_apply_className (className : option string) (st : State) :
  loop (fst (apply_className className st)) = loop st.
Proof. unfold apply_className. repeat case_match; done. Qed.

Lemma apply_className_classes (className : option string) (st st' : State) :
  classes (region st) = [] →
  apply_className className st = (st', inr tt) →
  classes (region st') = class_tokens className.
Proof.
  intros H0. unfold apply_className, class_tokens.
  destruct className as [c|]; [|intros [= <-]; done].
  destruct (String.eqb c ""); [intros [= <-]; done|].
  rewrite H0. unfold add.
  destruct (check_tokens (split_space c)); [done|].
  intros [= <-]. done.
Qed.

Lemma apply_className_accepted (className : option string) (st : State) :
  className_accepted className = true →
  ∃ st', apply_className className st = (st', inr tt) ∧
         modalContent (region st') = modalContent (region st) ∧ loop st' = loop st.
Proof.
  unfold className_accepted, apply_className.
  destruct className as [c|]; [|by eexists].
  destruct (String.eqb c ""); simpl; [by eexists|].
  intros H. apply bool_decide_eq_true in H. unfold add. rewrite H. by eexists.
Qed.

Lemma loop_showModal (oracle : string → bool) (cl : Closure) (content : Content)
    (st : State) :
  loop (fst (showModal oracle cl content st)) = loop st.
Proof. unfold showModal. repeat case_match; done. Qed.

(** What a call of [showModal] that returns has done to the class list and
    to the page. *)
Lemma showModal_returns (oracle : string → bool) (cl : Closure) (content : Content)
    (st st' : State) :
  showModal oracle cl content st = (st', inr tt) →
  classes (region st') = add_token (classes (region st)) "active" ∧
  page st' = (if scrollLock (settings cl) then lock (page st) else page st) ∧
  loop st' = loop st.
Proof.
  unfold showModal. destruct (modalContent (region st)); [|done].
  repeat case_match; try done; intros [= <-]; done.
Qed.

Lemma showModal_renderable (oracle : string → bool) (cl : Closure) (content : Content)
    (st : State) :
  is_Some (modalContent (region st)) → renderable content = true →
  ∃ st', showModal oracle cl content st = (st', inr tt) ∧
         loop st' = loop st ∧
         (∀ v, content = COther v → modalContent (region st') = Some (RNodes [])).
Proof.
  intros [r0 Hc] Hr. unfold showModal. rewrite Hc.
  destruct content as [s|n|v]; simpl.
  - eexists. split_and!; [done|by case_match|done].
  - destruct n; try done; simpl; (eexists; split_and!; [done|by case_match|done]).
  - eexists. split_and!; [done|by case_match|].
    intros _ _. by case_match.
Qed.

Lemma executor_show_loop (oracle : string → bool) (className : option string)
    (content : Content) (cl : Closure) (st : State) :
  loop (fst (executor className (Some (λ cl, showModal oracle cl content)) cl st)) = loop st.
Proof.
  rewrite executor_unfold.
  pose proof (loop_apply_className className (with_region (set_classes []) st)) as Ha.
  destruct (apply_className className _) as [sa [e|[]]]; [exact Ha|].
  by rewrite loop_showModal.
Qed.

Lemma executor_show_classes (oracle : string → bool) (className : option string)
    (content : Content) (cl : Closure) (st st' : State) :
  executor className (Some (λ cl, showModal oracle cl content)) cl st = (st', inr tt) →
  classes (region st') = add_token (class_tokens className) "active".
Proof.
  rewrite executor_unfold.
  destruct (apply_className className _) as [sa [e|[]]] eqn:Ea; [done|].
  apply apply_className_classes in Ea; [|done].
  intros H. apply showModal_returns in H as (-> & _). simpl. by rewrite Ea.
Qed.

(** A promise of [prepareModal] that is still pending means that the
    function given to [new Promise] returned without throwing. *)
Lemma prepareModal_show_inv (oracle : string → bool) (className : option string)
    (content : Content) (options : Options) (st st1 : State) (p : pid) :
  prepareModal className (Some (λ cl, showModal oracle cl content)) options st = (st1, p) →
  promise_state p st1 = Some Pending →
  executor className (Some (λ cl, showModal oracle cl content))
    (mkClosure (assign_settings options) p) (fst (new_promise st)) = (st1, inr tt).
Proof.
  unfold prepareModal. simpl.
  pose proof (executor_show_loop oracle className content
    (mkClosure (assign_settings options) (length (promises (loop st))))
    (fst (new_promise st))) as Hl.
  simpl in Hl.
  destruct (executor _ _ _ _) as [se [e|[]]] eqn:Ee.
  - intros [= <- <-] Hp. exfalso.
    erewrite settle_pending_state in Hp; [done|].
    simpl in Hl. rewrite Hl. simpl. by rewrite list_lookup_middle.
  - intros [= <- <-] _. done.
Qed.

(** [closeModal] on a region that is marked [active]. *)
Lemma closeModal_visible (cl : Closure) (st : State) :
  "active" ∈ classes (region st) →
  closeModal cl st =
    ({| region := {| classes := remove "active" (classes (region st));
                     onclick := onclick (region st);
                     listeners := listeners (region st)
                                  ++ [mkListener cl (length (promises (loop st)))];
                     modalContent := modalContent (region st) |};
        page := page st;
        loop := {| promises := promises (loop st) ++ [mkPromise Pending []];
                   jobs := jobs (loop st);
                   timers := timers (loop st) ++ [mkTimer (now (loop st) + 400) FallbackCheck];
                   now := now (loop st) |} |}, length (promises (loop st))).
Proof.
  intros Ha. unfold closeModal, new_promise. open_state.
  rewrite (proj2 (contains_true _ _) Ha). simpl.
  unfold setTimeout. open_state. done.
Qed.

(** [closeModal] on a region that is not. *)
Lemma closeModal_not_visible (cl : Closure) (st : State) :
  "active" ∉ classes (region st) →
  closeModal cl st =
    (with_loop (λ l, set_promises (promises l ++ [mkPromise (Fulfilled VUndefined) []]) l) st,
     length (promises (loop st))).
Proof.
  intros H. apply contains_false in H.
  unfold closeModal, new_promise. simpl. rewrite H. simpl.
  f_equal. exact (settle_new _ st).
Qed.

Lemma page_closeModal (cl : Closure) (st : State) : page (fst (closeModal cl st)) = page st.
Proof.
  unfold closeModal, new_promise. open_state.
  case_match; simpl; [by rewrite page_settle|done].
Qed.

(** *** Closing a dialog that is not on display *)

(** C3: on a region that is not marked [active], [closeModal] returns a
    promise that is already fulfilled and changes nothing else: no listener
    is registered and no timer started, the region and the page are as they
    were, and so are the promises and jobs that existed.  Closing again
    does the same. *)
Theorem close_when_not_visible (cl cl' : Closure) (st : State) :
  "active" ∉ classes (region st) →
  promise_state (snd (closeModal cl st)) (fst (closeModal cl st))
    = Some (Fulfilled VUndefined) ∧
  region (fst (closeModal cl st)) = region st ∧
  page (fst (closeModal cl st)) = page st ∧
  timers (loop (fst (closeModal cl st))) = timers (loop st) ∧
  jobs (loop (fst (closeModal cl st))) = jobs (loop st) ∧
  now (loop (fst (closeModal cl st))) = now (loop st) ∧
  promises (loop (fst (closeModal cl st)))
    = promises (loop st) ++ [mkPromise (Fulfilled VUndefined) []] ∧
  region (fst (closeModal cl' (fst (closeModal cl st)))) = region st.
Proof.
  intros H. rewrite (closeModal_not_visible cl st H). simpl.
  split_and!; try done.
  - unfold promise_state. simpl. by rewrite list_lookup_middle.
  - by rewrite closeModal_not_visible.
Qed.

Lemma close_when_not_visible_witness :
  ("active" ∉ classes (region fresh_page)) ∧
  promise_state (snd (closeModal notice_closure fresh_page))
                (fst (closeModal notice_closure fresh_page))
  = Some (Fulfilled VUndefined).
Proof.
  assert ("active" ∉ classes (region fresh_page)) as H by (simpl; apply not_elem_of_nil).
  split; [exact H|].
  exact (proj1 (close_when_not_visible notice_closure notice_closure fresh_page H)).
Defined.

(** *** Opening and closing *)

(** C1, as amended: when an open call with class name [className] is
    followed by a close and the end of the transition, the region's class
    list is that of [className] without [active], whatever it was before
    the open: the open replaces the list and the close only takes [active]
    away. *)
Theorem open_close_leaves_class_tokens (oracle : string → bool) (st st1 : State)
    (className : option string) (content : Content) (options : Options) (p : pid) :
  prepareModal className (Some (λ cl, showModal oracle cl content)) options st = (st1, p) →
  promise_state p st1 = Some Pending →
  let cl := mkClosure (assign_settings options) p in
  let st2 := drain_all (fst (closeModal cl st1)) in
  let st3 := step TransitionEnd st2 in
  classes (region st1) = add_token (class_tokens className) "active" ∧
  classes (region st2) = remove "active" (class_tokens className) ∧
  classes (region st3) = remove "active" (class_tokens className).
Proof.
  intros Hopen Hpend cl st2 st3.
  pose proof (prepareModal_show_inv _ _ _ _ _ _ _ Hopen Hpend) as Hex.
  apply executor_show_classes in Hex.
  assert (classes (region st2) = remove "active" (class_tokens className)) as H2.
  { unfold st2, drain_all. rewrite region_drain, closeModal_visible.
    - simpl. by rewrite Hex, remove_add_token.
    - rewrite Hex. apply elem_of_add_token. by left. }
  split_and!; [done|done|].
  unfold st3. by rewrite classes_step_TransitionEnd.
Qed.

Lemma open_close_leaves_class_tokens_witness :
  classes (region
    (step TransitionEnd
       (drain_all (fst (closeModal notice_closure
          (fst (prepareModal (Some "notification success")
                  (Some (λ cl, showModal no_markup_button cl (CString "Saved")))
                  (mkOptions (Some "all") None) fresh_page)))))))
  = remove "active" (class_tokens (Some "notification success")).
Proof.
  exact (proj2 (proj2
    (open_close_leaves_class_tokens no_markup_button fresh_page
       (fst (prepareModal (Some "notification success")
               (Some (λ cl, showModal no_markup_button cl (CString "Saved")))
               (mkOptions (Some "all") None) fresh_page))
       (Some "notification success") (CString "Saved") (mkOptions (Some "all") None) 0%nat
       eq_refl eq_refl))).
Defined.

(** C1 as stated fails: a region without classes has the class [choice]
    after a dialog of that class was opened and closed, the close being
    complete. *)
Lemma open_close_is_no_round_trip :
  classes (region fresh_page) = [] ∧
  promise_state 1
    (step TransitionEnd
       (drain_all (fst (closeModal (mkClosure (mkSettings "overlay" false) 0)
          (fst (prepareModal (Some "choice")
                  (Some (λ cl, showModal no_markup_button cl (CString "Sure?")))
                  (mkOptions None None) fresh_page))))))
  = Some (Fulfilled VUndefined) ∧
  classes (region
    (step TransitionEnd
       (drain_all (fst (closeModal (mkClosure (mkSettings "overlay" false) 0)
          (fst (prepareModal (Some "choice")
                  (Some (λ cl, showModal no_markup_button cl (CString "Sure?")))
                  (mkOptions None None) fresh_page)))))))
  = ["choice"].
Proof. split_and!; reflexivity. Qed.

(** *** Closing without a transition *)

Lemma only_new_promises_refl (s : State) :
  jobs (loop s) = [] → only_new_promises s s.
Proof. intros H. split_and!; try done. exists []. by rewrite app_nil_r. Qed.

Lemma only_new_promises_trans (s1 s2 s3 : State) :
  only_new_promises s1 s2 → only_new_promises s2 s3 → only_new_promises s1 s3.
Proof.
  intros (Hr & Hp & _ & e & He) (Hr' & Hp' & Hj & e' & He').
  split_and!; try congruence.
  exists (e ++ e'). by rewrite He', He, app_assoc.
Qed.

(** While the region is not marked [active], a tick of the clock or a timer
    that runs settles nothing and touches neither the region nor the page. *)
Lemma step_time_only (ev : Event) (s : State) :
  time_only ev = true →
  "active" ∉ classes (region s) → jobs (loop s) = [] →
  only_new_promises s (step ev s).
Proof.
  intros Hev Ha Hj.
  assert (∀ s', only_new_promises s s' → only_new_promises s (drain_all s')) as Hd.
  { intros s' H. rewrite drain_all_idle; [done|]. by destruct H as (_ & _ & ? & _). }
  unfold step. apply Hd.
  destruct ev as [|dt|i|t|y]; try done; simpl.
  - split_and!; try done. exists []. simpl. by rewrite app_nil_r.
  - destruct (timers (loop s) !! i) as [t|]; [|by apply only_new_promises_refl].
    destruct (due t <=? now (loop s)); [|by apply only_new_promises_refl].
    destruct (job t) as [|cl]; simpl.
    + unfold fallbackCheck. case_match; split_and!; try done; exists []; simpl;
        by rewrite app_nil_r.
    + rewrite closeModal_not_visible by done. simpl.
      split_and!; try done. by eexists.
Qed.

Lemma run_time_only (evs : list Event) (s : State) :
  forallb time_only evs = true →
  "active" ∉ classes (region s) → jobs (loop s) = [] →
  only_new_promises s (run evs s).
Proof.
  revert s. induction evs as [|ev evs IH]; intros s Hevs Ha Hj; simpl.
  - by apply only_new_promises_refl.
  - simpl in Hevs. apply andb_prop in Hevs as [Hev Hevs].
    pose proof (step_time_only ev s Hev Ha Hj) as H1.
    eapply only_new_promises_trans; [exact H1|].
    destruct H1 as (Hr & _ & Hj' & _).
    apply IH; [done| by rewrite Hr | done].
Qed.

(** C2 fails on the code: [closeModal] on a visible dialog starts the timer
    of 400 units, but whatever time passes and whichever timers run, as
    long as no transition ends the promise of the close stays pending, no
    promise that existed is settled (so the one of the open call is not)
    and the page stays as it was (so a locked scroll stays locked). *)
Theorem close_waits_for_transition_end (cl : Closure) (st : State) (evs : list Event) :
  "active" ∈ classes (region st) →
  jobs (loop st) = [] →
  forallb time_only evs = true →
  let closing := drain_all (fst (closeModal cl st)) in
  let later := run evs closing in
  mkTimer (now (loop st) + 400) FallbackCheck ∈ timers (loop closing) ∧
  promise_state (snd (closeModal cl st)) later = Some Pending ∧
  (∀ i s, promise_state i st = Some s → promise_state i later = Some s) ∧
  page later = page st.
Proof.
  intros Ha Hj Hevs closing later.
  pose proof (closeModal_visible cl st Ha) as Hclose.
  assert (closing = fst (closeModal cl st)) as Hcl.
  { unfold closing. apply drain_all_idle. by rewrite Hclose. }
  destruct (run_time_only evs closing Hevs) as (Hr & Hp & _ & extra & He).
  { rewrite Hcl, Hclose. simpl. rewrite elem_of_remove. by intros [? _]. }
  { by rewrite Hcl, Hclose. }
  fold later in Hr, Hp, He.
  rewrite Hcl, Hclose in He, Hp. simpl in He, Hp.
  split_and!.
  - rewrite Hcl, Hclose. simpl. rewrite elem_of_app, list_elem_of_singleton. by right.
  - rewrite Hclose. unfold promise_state. simpl. rewrite He, <- app_assoc. simpl.
    by rewrite list_lookup_middle.
  - intros i s. unfold promise_state. rewrite He, <- app_assoc.
    intros H. destruct (promises (loop st) !! i) as [q|] eqn:E; [|done].
    by rewrite (lookup_app_l_Some _ _ _ _ E).
  - done.
Qed.

(** The notification of [shown_notice] is closed, 400 units pass, the
    fallback timer runs, the notification's own timer runs after 5000
    units: the close is still pending, and so is the open call. *)
Lemma close_waits_for_transition_end_witness :
  promise_state 1
    (run [Tick 400; Timeout 1; Tick 4600; Timeout 0] closing_notice) = Some Pending ∧
  promise_state 0
    (run [Tick 400; Timeout 1; Tick 4600; Timeout 0] closing_notice) = Some Pending ∧
  timers (loop (run [Tick 400; Timeout 1; Tick 4600; Timeout 0] closing_notice)) = [].
Proof.
  assert ("active" ∈ classes (region shown_notice)) as Ha.
  { change (classes (region shown_notice)) with ["notification"; "success"; "active"].
    rewrite !elem_of_cons. auto. }
  destruct (close_waits_for_transition_end notice_closure shown_notice
              [Tick 400; Timeout 1; Tick 4600; Timeout 0] Ha eq_refl eq_refl)
    as (_ & Hc & Hopen & _).
  split_and!; [exact Hc|exact (Hopen 0%nat Pending eq_refl)|reflexivity].
Defined.

(** With the transition's end the close does complete: the one path on
    which the promise of [closeModal] is fulfilled for a visible dialog. *)
Lemma close_completes_at_transition_end (cl : Closure) (st : State) :
  "active" ∈ classes (region st) →
  jobs (loop st) = [] →
  store_closed st →
  promise_state (snd (closeModal cl st))
    (step TransitionEnd (drain_all (fst (closeModal cl st))))
  = Some (Fulfilled VUndefined).
Proof.
  intros Ha Hj (Hls & Hrs & _).
  rewrite (closeModal_visible cl st Ha). simpl.
  rewrite drain_all_idle by (simpl; done).
  unfold step, drain_all. apply drain_settled; [|done].
  unfold handle. open_state. rewrite foldl_app. simpl.
  set (N := length (promises (loop st))).
  match goal with |- context [foldl ?f ?s (listeners (region st))] =>
    set (old := foldl f s (listeners (region st))) end.
  destruct (dispatch_low N [mkPromise Pending []] (listeners (region st)) (promises (loop st))
              ltac:(match goal with old := foldl _ ?s _ |- _ => exact s end))
    as (low & Hps & Hlen & _).
  { done. }
  { split_and!; [done|exact Hrs|]. simpl. rewrite Hj. intros j Hin. by apply elem_of_nil in Hin. }
  { exact Hls. }
  fold old in Hps.
  unfold onTransitionEnd. simpl.
  apply settle_settled; [|done].
  set (old' := if scrollLock (settings cl) then with_page unlock old else old).
  assert (promises (loop old') = low ++ [mkPromise Pending []]) as Hps'.
  { unfold old'. by case_match. }
  replace N with (length low + 0)%nat by lia.
  rewrite (settle_high low _ 0 [] _ old' Hps' eq_refl).
  unfold promise_state. simpl. by rewrite lookup_after.
Qed.

(** *** The scroll lock *)

(** [lock] saves the vertical offset of the window. *)
Lemma lock_saves_offset (s : Scroll) : currentPos (lock s) = scrollY s.
Proof.
  unfold lock, documentElement_scrollTop. simpl.
  destruct (scrollY s =? 0) eqn:E; [|done].
  apply Z.eqb_eq in E. by destruct (quirks s).
Qed.

Lemma listeners_closeModal_visible (cl : Closure) (st : State) :
  "active" ∈ classes (region st) →
  listeners (region (fst (closeModal cl st)))
  = listeners (region st) ++ [mkListener cl (snd (closeModal cl st))].
Proof. intros H. by rewrite (closeModal_visible cl st H). Qed.

(** C7: in a cycle of [showModal], any scrolling of the window, [closeModal]
    and the end of the transition: without [scrollLock] neither step touches
    the page (window, body, [scrollControl]); with [scrollLock],
    [showModal] locks, saving the window's vertical offset, and the end of
    the transition puts the window back at exactly that offset and takes
    the lock off the body. *)
Theorem scroll_lock_round_trip (oracle : string → bool) (cl : Closure)
    (content : Content) (st st1 : State) (y : Z) :
  showModal oracle cl content st = (st1, inr tt) →
  let scrolled := step (Scrolled y) st1 in
  let closing := drain_all (fst (closeModal cl scrolled)) in
  let closed := step TransitionEnd closing in
  (scrollLock (settings cl) = false →
     page st1 = page st ∧ page closing = page scrolled ∧
     ∀ c s, page (onTransitionEnd (mkListener cl c) s) = page s) ∧
  (scrollLock (settings cl) = true →
     page st1 = lock (page st) ∧
     currentPos (page st1) = scrollY (page st) ∧
     scrollY (page closed) = scrollY (page st) ∧
     contains "locked" (body_classes (page closed)) = false ∧
     body_top (page closed) = "").
Proof.
  intros Hshow scrolled closing closed.
  apply showModal_returns in Hshow as (Hcls & Hpage & _).
  assert ("active" ∈ classes (region st1)) as Hact.
  { rewrite Hcls. apply elem_of_add_token. by left. }
  assert (page closing = page scrolled) as Hpc.
  { unfold closing, drain_all. by rewrite page_drain, page_closeModal. }
  split.
  - intros Hs. rewrite Hs in Hpage. split_and!; try done.
    intros c s. rewrite page_onTransitionEnd. simpl. by rewrite Hs.
  - intros Hs. rewrite Hs in Hpage.
    assert (currentPos (page st1) = scrollY (page st)) as Hsaved.
    { rewrite Hpage. apply lock_saves_offset. }
    split_and!; try done.
    all: unfold closed, step, drain_all; rewrite page_drain; simpl.
    all: unfold closing, drain_all; rewrite region_drain.
    all: rewrite listeners_closeModal_visible by (unfold scrolled, step, drain_all;
           rewrite region_drain; done).
    all: rewrite foldl_app; simpl.
    all: rewrite page_onTransitionEnd; simpl; rewrite Hs.
    + simpl. rewrite currentPos_dispatch. simpl.
      rewrite page_drain, page_closeModal.
      unfold scrolled, step, drain_all. rewrite page_drain. simpl. done.
    + simpl. apply not_active_after_remove'.
    + done.
Qed.

Lemma scroll_lock_round_trip_witness :
  page (fst (showModal no_markup_button locking_closure (CString "Wait") reading_page))
  = lock (page reading_page) ∧
  scrollY (page
    (step TransitionEnd
       (drain_all (fst (closeModal locking_closure
          (step (Scrolled 0)
             (fst (showModal no_markup_button locking_closure (CString "Wait")
                     reading_page))))))))
  = 120.
Proof.
  destruct (scroll_lock_round_trip no_markup_button locking_closure (CString "Wait")
              reading_page
              (fst (showModal no_markup_button locking_closure (CString "Wait") reading_page))
              0 eq_refl) as [_ H].
  destruct (H eq_refl) as (H1 & _ & H3 & _).
  split; [exact H1|exact H3].
Defined.

(** *** What is rendered *)

(** C9, as amended: on a page that has the content element, for content
    that is a string, a node that [appendChild] accepts, or neither a
    string nor a node, [showModal] returns without throwing and an open
    call with an acceptable class name returns a promise that is not
    rejected; content that is neither a string nor a node leaves the
    content element empty.  A node that [appendChild] refuses, that is the
    document, a doctype, an attribute or a node that holds the content
    element, makes [showModal] throw a HierarchyRequestError and the open
    call return a promise rejected with it. *)
Theorem open_renders_or_empties (oracle : string → bool) (st : State)
    (className : option string) (content : Content) (options : Options) :
  is_Some (modalContent (region st)) →
  className_accepted className = true →
  let opened := custom className (Some (λ cl, showModal oracle cl content)) options st in
  (renderable content = true →
     (∀ cl, ∃ st', showModal oracle cl content st = (st', inr tt)) ∧
     promise_state (snd opened) (fst opened) = Some Pending ∧
     (∀ v, content = COther v → modalContent (region (fst opened)) = Some (RNodes []))) ∧
  (renderable content = false →
     (∀ cl, snd (showModal oracle cl content st) = inl HierarchyRequestError) ∧
     promise_state (snd opened) (fst opened)
     = Some (Rejected (VError HierarchyRequestError))) ∧
  (renderable content = false ↔
     content ∈ [CNode Document; CNode Doctype; CNode Attr; CNode Host]).
Proof.
  intros Hc Hn opened.
  split_and!.
  - intros Hr. split.
    { intros cl. destruct (showModal_renderable oracle cl content st Hc Hr) as (st' & H & _).
      by exists st'. }
    unfold opened, custom, prepareModal, new_promise. simpl.
    rewrite executor_unfold.
    set (s0 := with_region (set_classes []) _).
    destruct (apply_className_accepted className s0 Hn) as (s1 & -> & Hc1 & Hl1).
    set (cl := mkClosure _ _).
    destruct (showModal_renderable oracle cl content
                (with_region (set_onclick (close_handler cl)) s1))
      as (s3 & -> & Hl3 & Hempty); [simpl; rewrite Hc1; exact Hc|done|].
    simpl. split; [|done].
    unfold promise_state. rewrite Hl3. simpl. rewrite Hl1. simpl.
    by rewrite list_lookup_middle.
  - intros Hr.
    assert (∀ cl s, is_Some (modalContent (region s)) →
              showModal oracle cl content s
              = (with_region (set_modalContent (Some (RNodes []))) s,
                 inl HierarchyRequestError)) as Hshow.
    { intros cl s [r0 Hs]. unfold showModal. rewrite Hs.
      destruct content as [s'|n|v]; try done. by destruct n. }
    split; [intros cl; by rewrite Hshow|].
    unfold opened, custom, prepareModal, new_promise. simpl.
    rewrite executor_unfold.
    set (s0 := with_region (set_classes []) _).
    destruct (apply_className_accepted className s0 Hn) as (s1 & -> & Hc1 & Hl1).
    rewrite Hshow by (simpl; rewrite Hc1; exact Hc).
    simpl. apply (settle_pending_state _ _ _ []).
    simpl. rewrite Hl1. simpl. by rewrite list_lookup_middle.
  - rewrite !elem_of_cons, elem_of_nil. split.
    + destruct content as [s'|n|v]; try done. destruct n; try done; auto.
    + by intros [->|[->|[->|[->|[]]]]].
Qed.

Lemma open_renders_or_empties_witness :
  promise_state 0
    (fst (custom (Some "notification") (Some (λ cl, showModal no_markup_button cl (COther Null)))
            (mkOptions None None) fresh_page)) = Some Pending ∧
  modalContent (region
    (fst (custom (Some "notification") (Some (λ cl, showModal no_markup_button cl (COther Null)))
            (mkOptions None None) fresh_page))) = Some (RNodes []) ∧
  promise_state 0
    (fst (custom (Some "notification") (Some (λ cl, showModal no_markup_button cl (CNode Attr)))
            (mkOptions None None) fresh_page))
  = Some (Rejected (VError HierarchyRequestError)).
Proof.
  destruct (open_renders_or_empties no_markup_button fresh_page (Some "notification")
              (COther Null) (mkOptions None None)
              (ex_intro _ (RNodes []) eq_refl) eq_refl) as (H & _ & _).
  destruct (H eq_refl) as (_ & H1 & H2).
  destruct (open_renders_or_empties no_markup_button fresh_page (Some "notification")
              (CNode Attr) (mkOptions None None)
              (ex_intro _ (RNodes []) eq_refl) eq_refl) as (_ & H' & _).
  destruct (H' eq_refl) as (_ & H3).
  split_and!; [exact H1|exact (H2 Null eq_refl)|exact H3].
Defined.

(** C9 as stated fails: the document is a node, [appendChild] refuses it,
    and the promise of the open call is rejected. *)
Lemma open_rejects_document_node :
  snd (showModal no_markup_button notice_closure (CNode Document) fresh_page)
  = inl HierarchyRequestError ∧
  promise_state 0
    (fst (notif no_markup_button (CNode Document) (Some "info") None fresh_page))
  = Some (Rejected (VError HierarchyRequestError)).
Proof. split; reflexivity. Qed.

(** [join] is the concatenation with separators of the standard library. *)
Lemma join_concat (sep : string) (l : list string) : join sep l = String.concat sep l.
Proof.
  induction l as [|x [|y l] IH]; [done|done|].
  change (join sep (x :: y :: l)) with (x +:+ sep +:+ join sep (y :: l)).
  by rewrite IH.
Qed.





(** *** The confirm dialog *)

Lemma confirmModal_spec (oracle : string → bool) (text : string) (st : State)
    (r0 : Rendered) :
  modalContent (region st) = Some r0 →
  let o := length (promises (loop st)) in
  let cl := confirm_closure (o + 1) in
  confirmModal oracle text st =
    ({| region := {| classes := ["choice"; "active"];
                     onclick := HOverlay cl;
                     listeners := listeners (region st);
                     modalContent := Some (RNodes [confirm_wrapper text cl o]) |};
        page := page st;
        loop := {| promises := promises (loop st)
                               ++ [mkPromise Pending []; mkPromise Pending [CatchReject o]];
                   jobs := jobs (loop st);
                   timers := timers (loop st);
                   now := now (loop st) |} |}, o).
Proof.
  intros Hc o cl. subst o cl.
  unfold confirmModal, prepareModal, new_promise. open_state.
  rewrite length_app. simpl.
  unfold executor, bind, modify, ret, apply_className. open_state.
  unfold showModal. open_state. rewrite Hc. open_state.
  unfold register. open_state.
  rewrite <- app_assoc. simpl.
  rewrite (lookup_after _ _ 1). simpl.
  rewrite (insert_after _ _ 1). simpl.
  reflexivity.
Qed.

(** A click on one of the two buttons: the dialog loses [active], the
    listener and the fallback timer are registered, and the promise of the
    close has the button's reaction. *)
Lemma click_button_spec (oracle : string → bool) (text : string) (st : State)
    (r0 : Rendered) (yes : bool) :
  modalContent (region st) = Some r0 →
  jobs (loop st) = [] →
  let o := length (promises (loop st)) in
  let cl := confirm_closure (o + 1) in
  step (Click (OnElement (button_path yes))) (drain_all (fst (confirmModal oracle text st))) =
    {| region := {| classes := ["choice"];
                    onclick := HOverlay cl;
                    listeners := listeners (region st) ++ [mkListener cl (o + 2)];
                    modalContent := Some (RNodes [confirm_wrapper text cl o]) |};
       page := page st;
       loop := {| promises := promises (loop st)
                              ++ [mkPromise Pending []; mkPromise Pending [CatchReject o];
                                  mkPromise Pending [button_reaction yes o]];
                  jobs := [];
                  timers := timers (loop st) ++ [mkTimer (now (loop st) + 400) FallbackCheck];
                  now := now (loop st) |} |}.
Proof.
  intros Hc Hj o cl. subst o cl.
  rewrite (confirmModal_spec oracle text st r0 Hc). simpl.
  rewrite drain_all_idle by (simpl; done).
  unfold step.
  assert (∀ s s', s = s' → jobs (loop s') = [] → drain_all s = s') as Hd.
  { intros s s' -> ?. by apply drain_all_idle. }
  apply Hd; [|done].
  unfold handle. open_state.
  destruct yes; simpl.
  all: unfold closeModal, new_promise; open_state.
  all: change (contains "active" ["choice"; "active"]) with true; simpl.
  all: unfold setTimeout, register; open_state.
  all: rewrite length_app; simpl.
  all: rewrite <- !app_assoc; simpl.
  all: rewrite (lookup_after _ _ 2); simpl.
  all: rewrite (insert_after _ _ 2); simpl.
  all: rewrite Hj; reflexivity.
Qed.

(** When the closing transition ends: after [confirm], a click on the
    affirmative button followed by the end of the closing transition fulfils
    the returned promise, and a click on the negative button followed by it
    rejects the promise.  In both cases the click takes [active] off the
    region while the promise is still pending, and the region is still
    without [active] when the promise is settled. *)
Theorem confirm_buttons (oracle : string → bool) (text : string) (st : State) (yes : bool) :
  is_Some (modalContent (region st)) →
  jobs (loop st) = [] →
  store_closed st →
  let opened := drain_all (fst (confirmModal oracle text st)) in
  let result := snd (confirmModal oracle text st) in
  let clicked := step (Click (OnElement (if yes then yes_button else no_button))) opened in
  let closed := step TransitionEnd clicked in
  "active" ∈ classes (region opened) ∧
  promise_state result opened = Some Pending ∧
  contains "active" (classes (region clicked)) = false ∧
  promise_state result clicked = Some Pending ∧
  contains "active" (classes (region closed)) = false ∧
  promise_state result closed
  = Some (if yes then Fulfilled VUndefined else Rejected VUndefined).
Proof.
  intros [r0 Hc] Hj (Hls & Hrs & _) opened result clicked closed.
  assert (clicked = step (Click (OnElement (button_path yes))) opened) as Hcl by (by destruct yes).
  pose proof (click_button_spec oracle text st r0 yes Hc Hj) as Hclick.
  simpl in Hclick. fold opened in Hclick. rewrite <- Hcl in Hclick.
  pose proof (confirmModal_spec oracle text st r0 Hc) as Hopen. simpl in Hopen.
  assert (result = length (promises (loop st))) as Hres by (unfold result; by rewrite Hopen).
  assert (opened = fst (confirmModal oracle text st)) as Hop.
  { unfold opened. apply drain_all_idle. by rewrite Hopen. }
  split_and!.
  - rewrite Hop, Hopen. simpl. rewrite !elem_of_cons. auto.
  - rewrite Hop, Hopen, Hres. unfold promise_state. simpl.
    by rewrite list_lookup_middle.
  - by rewrite Hclick.
  - rewrite Hclick, Hres. unfold promise_state. simpl.
    by rewrite list_lookup_middle.
  - unfold closed. by rewrite classes_step_TransitionEnd, Hclick.
  - unfold closed, step, handle. rewrite Hclick. open_state.
    rewrite foldl_app. simpl.
    set (N := length (promises (loop st))) in *.
    set (high := [mkPromise Pending []; mkPromise Pending [CatchReject N];
                  mkPromise Pending [button_reaction yes N]]).
    match goal with |- context [foldl ?f ?s (listeners (region st))] =>
      set (old := foldl f s (listeners (region st))) end.
    destruct (dispatch_low N high (listeners (region st)) (promises (loop st))
                ltac:(match goal with old := foldl _ ?s _ |- _ => exact s end))
      as (low & Hps & Hlen & Hlow & Hjobs).
    { done. }
    { split_and!; [done|exact Hrs|]. simpl. intros j Hin. by apply elem_of_nil in Hin. }
    { exact Hls. }
    fold old in Hps, Hjobs.
    unfold onTransitionEnd. simpl.
    replace (N + 2)%nat with (length low + 2)%nat by lia.
    erewrite (settle_high low high 2) by (done || reflexivity).
    replace (N + 1)%nat with (length low + 1)%nat by lia.
    erewrite (settle_high low _ 1) by (done || reflexivity).
    simpl.
    rewrite Hres. fold N.
    unfold drain_all.
    apply drain_delivers with (s0 := button_outcome yes).
    + by destruct yes.
    + unfold promise_state. simpl.
      by rewrite list_lookup_middle.
    + simpl. intros q r Hq Hr. apply elem_of_app in Hq as [Hq|Hq].
      * specialize (Hlow q r Hq Hr). lia.
      * rewrite !elem_of_cons, elem_of_nil in Hq.
        destruct Hq as [->|[->|[->|[]]]]; simpl in Hr; by apply elem_of_nil in Hr.
    + simpl. intros j s Hin He.
      rewrite !elem_of_app, !list_elem_of_singleton in Hin.
      destruct Hin as [[Hin| ->]| ->].
      * apply effective_target in He. specialize (Hjobs j Hin). lia.
      * rewrite effective_button in He. congruence.
      * simpl in He. done.
    + exists (button_reaction yes N, Fulfilled VUndefined). simpl. split.
      * rewrite !elem_of_app, !list_elem_of_singleton. auto.
      * apply effective_button.
    + done.
Qed.

(** The page on which a notification is being closed (its listener still
    waits for the transition) satisfies the conditions of [confirm_buttons]. *)
Lemma closing_notice_closed : store_closed closing_notice.
Proof.
  unfold store_closed.
  change (listeners (region closing_notice))
    with [mkListener notice_closure 1].
  change (promises (loop closing_notice))
    with [mkPromise Pending []; mkPromise Pending []].
  change (jobs (loop closing_notice)) with ([] : list Job).
  simpl. split_and!.
  - intros l Hl. apply list_elem_of_singleton in Hl as ->. simpl. lia.
  - intros q r Hq Hr. rewrite !elem_of_cons, elem_of_nil in Hq.
    destruct Hq as [->|[->|[]]]; simpl in Hr; by apply elem_of_nil in Hr.
  - intros j Hj. by apply elem_of_nil in Hj.
Defined.

Lemma confirm_buttons_witness :
  promise_state 2
    (step TransitionEnd
       (step (Click (OnElement yes_button))
          (drain_all (fst (confirmModal no_markup_button "Delete?" closing_notice)))))
  = Some (Fulfilled VUndefined) ∧
  promise_state 2
    (step TransitionEnd
       (step (Click (OnElement no_button))
          (drain_all (fst (confirmModal no_markup_button "Delete?" closing_notice)))))
  = Some (Rejected VUndefined).
Proof.
  split.
  - exact (proj2 (proj2 (proj2 (proj2 (proj2
      (confirm_buttons no_markup_button "Delete?" closing_notice true
         (ex_intro _ _ eq_refl) eq_refl closing_notice_closed)))))).
  - exact (proj2 (proj2 (proj2 (proj2 (proj2
      (confirm_buttons no_markup_button "Delete?" closing_notice false
         (ex_intro _ _ eq_refl) eq_refl closing_notice_closed)))))).
Defined.

(** C5: the answer of a confirm dialog is delivered by the listener of the
    closing transition only.  After a click on either button the region is
    without [active], and if no transition ends the returned promise stays
    pending however much time passes and whichever timers run: the timer
    that [closeModal] sets after 400 units settles nothing. *)
Theorem confirm_answer_waits_for_transition_end (oracle : string → bool) (text : string)
    (st : State) (yes : bool) (evs : list Event) :
  has_container st →
  jobs (loop st) = [] →
  forallb time_only evs = true →
  let opened := drain_all (fst (confirmModal oracle text st)) in
  let result := snd (confirmModal oracle text st) in
  let clicked := step (Click (OnElement (if yes then yes_button else no_button))) opened in
  let later := run evs clicked in
  "active" ∈ classes (region opened) ∧
  contains "active" (classes (region clicked)) = false ∧
  promise_state result clicked = Some Pending ∧
  contains "active" (classes (region later)) = false ∧
  promise_state result later = Some Pending.
Proof.
  intros [r0 Hc] Hj Hevs opened result clicked later.
  assert (clicked = step (Click (OnElement (button_path yes))) opened) as Hcl by (by destruct yes).
  pose proof (click_button_spec oracle text st r0 yes Hc Hj) as Hclick.
  simpl in Hclick. fold opened in Hclick. rewrite <- Hcl in Hclick.
  pose proof (confirmModal_spec oracle text st r0 Hc) as Hopen. simpl in Hopen.
  assert (result = length (promises (loop st))) as Hres by (unfold result; by rewrite Hopen).
  assert (promise_state result clicked = Some Pending) as Hpend.
  { rewrite Hclick, Hres. unfold promise_state. simpl. by rewrite list_lookup_middle. }
  destruct (run_time_only evs clicked Hevs) as (Hreg & _ & _ & extra & Hps).
  { rewrite Hclick. simpl. rewrite elem_of_cons, elem_of_nil. by intros [?|[]]. }
  { by rewrite Hclick. }
  split_and!.
  - unfold opened. rewrite drain_all_idle by (by rewrite Hopen).
    rewrite Hopen. simpl. rewrite !elem_of_cons. auto.
  - by rewrite Hclick.
  - done.
  - unfold later. rewrite Hreg. by rewrite Hclick.
  - unfold promise_state in *. unfold later. rewrite Hps.
    destruct (promises (loop clicked) !! result) as [q|] eqn:E; [|done].
    by rewrite (lookup_app_l_Some _ _ _ _ E).
Qed.

Lemma confirm_answer_waits_for_transition_end_witness :
  contains "active"
    (classes (region (step (Click (OnElement yes_button))
                        (drain_all (fst (confirmModal no_markup_button "Delete?"
                                           fresh_page)))))) = false ∧
  promise_state 0
    (run [Tick 400; Timeout 0; Tick 1000000]
       (step (Click (OnElement yes_button))
          (drain_all (fst (confirmModal no_markup_button "Delete?" fresh_page)))))
  = Some Pending.
Proof.
  destruct (confirm_answer_waits_for_transition_end no_markup_button "Delete?" fresh_page
              true [Tick 400; Timeout 0; Tick 1000000]
              (ex_intro _ _ eq_refl) eq_refl eq_refl) as (_ & H1 & _ & _ & H2).
  split; [exact H1|exact H2].
Defined.

(** *** Well-formed states are kept *)

Lemma Node_nested_ind (P : Node → Prop) :
  (∀ tag id cls sty h s b, P (Element tag id cls sty h (Markup s b))) →
  (∀ tag id cls sty h s, P (Element tag id cls sty h (InnerText s))) →
  (∀ tag id cls sty h l, Forall P l → P (Element tag id cls sty h (Children l))) →
  (∀ s, P (CharData s)) →
  (∀ kids, Forall P kids → P (Fragment kids)) →
  P Document → P Doctype → P Attr → P Host →
  ∀ x, P x.
Proof.
  intros HM HT HC HD HF H1 H2 H3 H4.
  fix IH 1. intros [tag id cls sty h [s b|s|l]|s|kids| | | |].
  - apply HM.
  - apply HT.
  - apply HC. induction l as [|y l IHl]; constructor; [apply IH|exact IHl].
  - apply HD.
  - apply HF. induction kids as [|y l IHl]; constructor; [apply IH|exact IHl].
  - exact H1.
  - exact H2.
  - exact H3.
  - exact H4.
Qed.

Lemma closure_ok_mono n m cl : (n ≤ m)%nat → closure_ok n cl = true → closure_ok m cl = true.
Proof. unfold closure_ok. rewrite !Nat.ltb_lt. lia. Qed.

Lemma reaction_ok_mono n m r : (n ≤ m)%nat → reaction_ok n r = true → reaction_ok m r = true.
Proof. unfold reaction_ok. rewrite !Nat.ltb_lt. lia. Qed.

Lemma handler_ok_mono n m h : (n ≤ m)%nat → handler_ok n h = true → handler_ok m h = true.
Proof.
  intros Hnm. destruct h as [|cl|cl|cl r]; simpl; try done.
  - by apply closure_ok_mono.
  - by apply closure_ok_mono.
  - rewrite !andb_true_iff. intros [? ?].
    split; [by eapply closure_ok_mono|by eapply reaction_ok_mono].
Qed.

Lemma forallb_mono {A} (f g : A → bool) (l : list A) :
  Forall (λ x, f x = true → g x = true) l → forallb f l = true → forallb g l = true.
Proof.
  intros H. induction H as [|x l Hx Hl IH]; simpl; [done|].
  rewrite !andb_true_iff. intros [? ?]. auto.
Qed.

Lemma forallb_impl {A} (f g : A → bool) (l : list A) :
  (∀ x, f x = true → g x = true) → forallb f l = true → forallb g l = true.
Proof. intros H. apply forallb_mono. apply Forall_forall. intros x _. apply H. Qed.

Lemma node_ok_mono n m : (n ≤ m)%nat → ∀ x, node_ok n x = true → node_ok m x = true.
Proof.
  intros Hnm x. induction x using Node_nested_ind; simpl; try done.
  - rewrite !andb_true_iff. intros [? ?]. split; by eapply handler_ok_mono.
  - rewrite !andb_true_iff. intros [? ?]. split; [by eapply handler_ok_mono|done].
  - rewrite !andb_true_iff. intros [? ?]. split; [by eapply handler_ok_mono|].
    by eapply forallb_mono.
  - by apply forallb_mono.
Qed.

Ltac proj_state :=
  cbn [loop region page with_loop with_region with_page setTimeout
       set_jobs set_promises set_timers set_now
       set_classes set_onclick set_listeners set_modalContent
       jobs promises timers now classes onclick listeners modalContent fst snd].

Lemma well_formed_wf_at (st : State) :
  well_formed st = true ↔ wf_at (length (promises (loop st))) st.
Proof. unfold well_formed, wf_at. rewrite !andb_true_iff. tauto. Qed.

Lemma listener_ok_mono n m l : (n ≤ m)%nat → listener_ok n l = true → listener_ok m l = true.
Proof.
  intros Hnm. unfold listener_ok. rewrite !andb_true_iff, !Nat.ltb_lt.
  intros [? ?]. split; [by eapply closure_ok_mono|lia].
Qed.

Lemma timer_ok_mono n m t : (n ≤ m)%nat → timer_ok n t = true → timer_ok m t = true.
Proof. intros Hnm. unfold timer_ok. destruct (job t); [done|by apply closure_ok_mono]. Qed.

Lemma rendered_ok_mono n m r : (n ≤ m)%nat → rendered_ok n r = true → rendered_ok m r = true.
Proof.
  intros Hnm. destruct r as [s b|l]; simpl.
  - by apply handler_ok_mono.
  - apply forallb_impl. by apply node_ok_mono.
Qed.

Lemma wf_at_mono n m st : (n ≤ m)%nat → wf_at n st → wf_at m st.
Proof.
  intros Hnm (H1 & H2 & H3 & H4 & H5 & H6). split_and!.
  - by eapply handler_ok_mono.
  - revert H2. apply forallb_impl. intros l. by apply listener_ok_mono.
  - destruct (modalContent (region st)); simpl in *; [by eapply rendered_ok_mono|done].
  - revert H4. apply forallb_impl. intros q. apply forallb_impl.
    intros r. by apply reaction_ok_mono.
  - revert H5. apply forallb_impl. intros j. by apply reaction_ok_mono.
  - revert H6. apply forallb_impl. intros t. by apply timer_ok_mono.
Qed.

Lemma forallb_insert {A} (f : A → bool) (l : list A) (i : nat) (x : A) :
  forallb f l = true → f x = true → forallb f (<[i := x]> l) = true.
Proof.
  revert i. induction l as [|a l IH]; intros [|i]; simpl; try done.
  - rewrite !andb_true_iff. intros [? ?] ?. done.
  - rewrite !andb_true_iff. intros [? ?] ?. split; [done|by apply IH].
Qed.

Lemma forallb_lookup {A} (f : A → bool) (l : list A) (i : nat) (x : A) :
  forallb f l = true → l !! i = Some x → f x = true.
Proof.
  revert i. induction l as [|a l IH]; intros [|i]; simpl; try done.
  - rewrite andb_true_iff. intros [? ?] [= ->]. done.
  - rewrite andb_true_iff. intros [? ?] ?. by eapply IH.
Qed.

Lemma forallb_fmap {A B} (f : B → bool) (g : A → B) (l : list A) :
  forallb f (map g l) = forallb (λ x, f (g x)) l.
Proof. induction l as [|x l IH]; simpl; [done|]. by rewrite IH. Qed.

Lemma forallb_delete {A} (f : A → bool) (l : list A) (i : nat) :
  forallb f l = true → forallb f (delete i l) = true.
Proof.
  revert i. induction l as [|a l IH]; intros [|i]; simpl; try done.
  - rewrite andb_true_iff. by intros [? ?].
  - rewrite !andb_true_iff. intros [? ?]. split; [done|by apply IH].
Qed.

Lemma wf_new_promise n st :
  length (promises (loop st)) = n → wf_at n st →
  wf_at (S n) (fst (new_promise st)) ∧
  length (promises (loop (fst (new_promise st)))) = S n.
Proof.
  intros Hn Hwf. split.
  - apply (wf_at_mono n (S n)) in Hwf; [|lia].
    destruct Hwf as (H1 & H2 & H3 & H4 & H5 & H6). split_and!; try done.
    change (promises (loop (fst (new_promise st))))
      with (promises (loop st) ++ [mkPromise Pending []]).
    rewrite forallb_app, H4. done.
  - simpl. rewrite length_app. simpl. lia.
Qed.

Lemma wf_settle n p s st :
  wf_at n st →
  wf_at n (settle p s st) ∧
  length (promises (loop (settle p s st))) = length (promises (loop st)).
Proof.
  intros (H1 & H2 & H3 & H4 & H5 & H6).
  destruct (settle_cases p s st) as [(rs & Hp & ->)|[_ ->]]; [|done].
  unfold wf_at. proj_state. split; [|by rewrite length_insert].
  split_and!; try done.
  - by apply forallb_insert.
  - rewrite forallb_app, H5, forallb_fmap.
    exact (forallb_lookup _ _ _ _ H4 Hp).
Qed.

Lemma wf_register n p r st :
  reaction_ok n r = true → wf_at n st →
  wf_at n (register p r st) ∧
  length (promises (loop (register p r st))) = length (promises (loop st)).
Proof.
  intros Hr (H1 & H2 & H3 & H4 & H5 & H6). unfold register.
  destruct (promises (loop st) !! p) as [[[|v|v] rs]|] eqn:Hp; simpl.
  - unfold wf_at. proj_state. split; [|by rewrite length_insert]. split_and!; try done.
    apply forallb_insert; [done|]. simpl.
    pose proof (forallb_lookup _ _ _ _ H4 Hp) as Hrs. simpl in Hrs.
    rewrite forallb_app, Hrs. simpl. by rewrite Hr.
  - unfold wf_at. proj_state. split; [|done]. split_and!; try done.
    rewrite forallb_app, H5. simpl. by rewrite Hr.
  - unfold wf_at. proj_state. split; [|done]. split_and!; try done.
    rewrite forallb_app, H5. simpl. by rewrite Hr.
  - done.
Qed.

Lemma wf_drain n k st :
  wf_at n st →
  wf_at n (drain k st) ∧
  length (promises (loop (drain k st))) = length (promises (loop st)).
Proof.
  revert st. induction k as [|k IH]; intros st Hwf; simpl; [done|].
  destruct (jobs (loop st)) as [|j js] eqn:Ej; [done|].
  assert (wf_at n (with_loop (set_jobs js) st)) as Hwf'.
  { destruct Hwf as (H1 & H2 & H3 & H4 & H5 & H6). unfold wf_at. proj_state.
    split_and!; try done.
    rewrite Ej in H5. simpl in H5. by apply andb_true_iff in H5 as [_ ?]. }
  rewrite run_job_effective.
  destruct (effective j) as [[t s]|].
  - destruct (wf_settle n t s _ Hwf') as [Hw Hl].
    destruct (IH _ Hw) as [Hw' Hl']. split; [done|]. by rewrite Hl', Hl.
  - destruct (IH _ Hwf') as [Hw' Hl']. split; [done|]. by rewrite Hl'.
Qed.

Lemma wf_closeModal n cl st :
  length (promises (loop st)) = n → closure_ok n cl = true → wf_at n st →
  wf_at (S n) (fst (closeModal cl st)) ∧
  length (promises (loop (fst (closeModal cl st)))) = S n.
Proof.
  intros Hn Hcl Hwf.
  destruct (wf_new_promise n st Hn Hwf) as [Hw1 Hl1].
  unfold closeModal.
  destruct (new_promise st) as [st1 c] eqn:E. simpl in Hw1, Hl1.
  assert (c = n) as -> by (inversion E; done).
  destruct (negb (contains "active" (classes (region st1)))); simpl.
  - destruct (wf_settle (S n) n (Fulfilled VUndefined) st1 Hw1) as [? Hl].
    split; [done|]. by rewrite Hl.
  - split; [|done].
    destruct Hw1 as (H1 & H2 & H3 & H4 & H5 & H6). unfold wf_at. proj_state.
    split_and!; try done.
    + rewrite forallb_app, H2. simpl.
      unfold listener_ok. simpl. rewrite (closure_ok_mono n (S n) cl) by (done || lia).
      simpl. rewrite andb_true_r. apply Nat.ltb_lt. lia.
    + rewrite forallb_app, H6. done.
Qed.

Lemma bind_node_children oracle h tag id cls sty oc l :
  bind_node oracle h (Element tag id cls sty oc (Children l)) =
  if has_class "close-btn" cls then Some (Element tag id cls sty h (Children l))
  else (λ l', Element tag id cls sty oc (Children l')) <$> bind_nodes oracle h l.
Proof.
  simpl. destruct (has_class "close-btn" cls); [done|]. f_equal.
  induction l as [|x l IH]; simpl; [done|].
  destruct (bind_node oracle h x); [done|]. by rewrite IH.
Qed.

Lemma bind_nodes_ok_aux oracle n h (l : list Node) :
  Forall (λ x, ∀ x', node_ok n x = true → bind_node oracle h x = Some x' →
                     node_ok n x' = true) l →
  ∀ l', forallb (node_ok n) l = true → bind_nodes oracle h l = Some l' →
        forallb (node_ok n) l' = true.
Proof.
  induction 1 as [|x l Hx _ IH]; intros l'; simpl; [done|].
  rewrite andb_true_iff. intros [Hxok Hl].
  destruct (bind_node oracle h x) as [x'|] eqn:E.
  - intros [= <-]. simpl. rewrite (Hx x' Hxok eq_refl). done.
  - destruct (bind_nodes oracle h l) as [l1|]; [|done].
    intros [= <-]. simpl. rewrite Hxok. by apply IH.
Qed.

Lemma bind_node_ok oracle n h :
  handler_ok n h = true →
  ∀ x x', node_ok n x = true → bind_node oracle h x = Some x' → node_ok n x' = true.
Proof.
  intros Hh x. induction x as [tag id cls sty oc s b|tag id cls sty oc s
                              |tag id cls sty oc l IH|s|kids IH| | | |]
    using Node_nested_ind; intros x'; try done.
  - simpl. rewrite andb_true_iff. intros [H1 H2].
    destruct (has_class "close-btn" cls); [intros [= <-]; simpl; by rewrite Hh, H2|].
    destruct (oracle s); [|done]. intros [= <-]. simpl. by rewrite H1, Hh.
  - simpl. rewrite andb_true_r. intros H1.
    destruct (has_class "close-btn" cls); [|done]. intros [= <-]. simpl. by rewrite Hh.
  - rewrite bind_node_children. simpl. rewrite andb_true_iff. intros [H1 H2].
    destruct (has_class "close-btn" cls); [intros [= <-]; simpl; by rewrite Hh, H2|].
    destruct (bind_nodes oracle h l) as [l1|] eqn:E; [|done].
    intros [= <-]. simpl. rewrite H1. simpl.
    by eapply (bind_nodes_ok_aux oracle n h l IH).
Qed.

Lemma bind_close_btn_ok oracle n h r :
  handler_ok n h = true → rendered_ok n r = true →
  rendered_ok n (bind_close_btn oracle h r) = true.
Proof.
  intros Hh. destruct r as [s b|l]; simpl.
  - intros Hb. by destruct (oracle s).
  - intros Hl. destruct (bind_nodes oracle h l) as [l'|] eqn:E; [|done]. simpl.
    eapply (bind_nodes_ok_aux oracle n h l); [|exact Hl|exact E].
    apply Forall_forall. intros x _ x'. by apply bind_node_ok.
Qed.

Lemma appendChild_ok n x r :
  node_ok n x = true → appendChild x = inr r → rendered_ok n r = true.
Proof.
  destruct x; simpl; try done; intros H [= <-]; simpl in *; try done.
  by rewrite H.
Qed.

Lemma wf_showModal oracle n cl content st :
  length (promises (loop st)) = n →
  closure_ok n cl = true → content_ok n content = true → wf_at n st →
  wf_at n (fst (showModal oracle cl content st)) ∧
  length (promises (loop (fst (showModal oracle cl content st)))) = n.
Proof.
  intros Hn Hcl Hc (H1 & H2 & H3 & H4 & H5 & H6).
  rewrite loop_showModal. split; [|done].
  unfold showModal.
  destruct (modalContent (region st)) as [r0|] eqn:E0;
    [|unfold wf_at; proj_state; rewrite E0; done].
  set (rendered := match content with
                   | CString s => inr (RMarkup s HNull)
                   | CNode x => appendChild x
                   | COther _ => inr (RNodes [])
                   end).
  assert (∀ r, rendered = inr r → rendered_ok n r = true) as Hr.
  { unfold rendered. destruct content as [s|x|v]; intros r.
    - by intros [= <-].
    - by apply appendChild_ok.
    - by intros [= <-]. }
  destruct rendered as [e|r]; [done|].
  assert (rendered_ok n (bind_close_btn oracle (HClose cl) r) = true) as Hb.
  { apply bind_close_btn_ok; [done|by apply Hr]. }
  destruct (scrollLock (settings cl)); unfold wf_at; proj_state; split_and!; done.
Qed.

Lemma wf_apply_className n className st :
  wf_at n st → wf_at n (fst (apply_className className st)).
Proof.
  intros Hwf. unfold apply_className.
  destruct className as [c|]; [|done].
  destruct (String.eqb c ""); [done|].
  destruct (add (split_space c) (classes (region st))); done.
Qed.

Lemma close_handler_ok n cl : closure_ok n cl = true → handler_ok n (close_handler cl) = true.
Proof. intros H. unfold close_handler. by repeat case_match. Qed.

Lemma wf_prepareModal n className f options st :
  length (promises (loop st)) = n → wf_at n st → setup_ok (S n) f →
  wf_at (S n) (fst (prepareModal className (Some f) options st)) ∧
  length (promises (loop (fst (prepareModal className (Some f) options st)))) = S n ∧
  snd (prepareModal className (Some f) options st) = n.
Proof.
  intros Hn Hwf Hf.
  destruct (wf_new_promise n st Hn Hwf) as [Hw1 Hl1].
  unfold prepareModal.
  destruct (new_promise st) as [st1 p] eqn:E. simpl in Hw1, Hl1.
  assert (p = n) as -> by (inversion E; done).
  rewrite executor_unfold.
  set (cl := mkClosure (assign_settings options) n).
  assert (closure_ok (S n) cl = true) as Hcl by (apply Nat.ltb_lt; simpl; lia).
  pose proof (wf_apply_className (S n) className (with_region (set_classes []) st1)) as Ha.
  pose proof (loop_apply_className className (with_region (set_classes []) st1)) as Hla.
  destruct (apply_className className _) as [s1 [e|[]]]; simpl in Ha, Hla.
  - assert (wf_at (S n) s1) as Hs1.
    { apply Ha. destruct Hw1 as (H1 & H2 & H3 & H4 & H5 & H6). by split_and!. }
    destruct (wf_settle (S n) n (Rejected (VError e)) s1 Hs1) as [Hw Hl].
    simpl. split_and!; [done| |done]. rewrite Hl, Hla. done.
  - assert (wf_at (S n) (with_region (set_onclick (close_handler cl)) s1)) as Hs1.
    { destruct Ha as (H1 & H2 & H3 & H4 & H5 & H6).
      { destruct Hw1 as (H1 & H2 & H3 & H4 & H5 & H6). by split_and!. }
      unfold wf_at. proj_state. split_and!; try done. by apply close_handler_ok. }
    destruct (Hf cl (with_region (set_onclick (close_handler cl)) s1)) as [Hw Hl];
      [by rewrite <- Hl1, <- Hla|done|done|].
    destruct (f cl _) as [s2 [e|[]]]; simpl in *.
    + destruct (wf_settle (S n) n (Rejected (VError e)) s2 Hw) as [Hw' Hl'].
      split_and!; [done| |done]. by rewrite Hl'.
    + done.
Qed.

Lemma setup_ok_show oracle n content :
  content_ok n content = true →
  setup_ok n (λ cl, showModal oracle cl content).
Proof. intros Hc cl st Hn Hcl Hwf. by apply wf_showModal. Qed.

Lemma setup_ok_notif oracle n content time :
  content_ok n content = true →
  setup_ok n (λ cl, showModal oracle cl content ;> modify (setTimeout (CallClose cl) time)).
Proof.
  intros Hc cl st Hn Hcl Hwf. unfold bind, modify.
  destruct (wf_showModal oracle n cl content st Hn Hcl Hc Hwf) as [Hw Hl].
  destruct (showModal oracle cl content st) as [s1 [e|[]]]; simpl in *; [done|].
  split; [|done].
  destruct Hw as (H1 & H2 & H3 & H4 & H5 & H6). unfold wf_at. proj_state.
  split_and!; try done.
  rewrite forallb_app, H6. simpl. unfold timer_ok. simpl. by rewrite Hcl.
Qed.

Lemma wf_notif oracle content className duration st :
  wf st → content_ok (S (length (promises (loop st)))) content = true →
  wf (fst (notif oracle content className duration st)).
Proof.
  intros Hwf Hc. unfold wf, notif.
  destruct (wf_prepareModal _ (Some (notification_class className))
              (λ cl, showModal oracle cl content ;>
                     modify (setTimeout (CallClose cl) (or_default duration)))
              {| opt_close := Some "all"; opt_scrollLock := None |} st eq_refl Hwf)
    as (Hw & Hl & _); [by apply setup_ok_notif|].
  by rewrite Hl.
Qed.

Lemma wf_successFail oracle msg duration isFailed st :
  wf st → wf (fst (successFail oracle msg duration isFailed st)).
Proof. intros Hwf. unfold successFail. by apply wf_notif. Qed.

Lemma wf_confirmModal oracle text st :
  wf st → wf (fst (confirmModal oracle text st)).
Proof.
  intros Hwf. unfold wf, confirmModal.
  destruct (wf_new_promise _ st eq_refl Hwf) as [Hw1 Hl1].
  destruct (new_promise st) as [st1 outer] eqn:E. simpl in Hw1, Hl1.
  assert (outer = length (promises (loop st))) as -> by (inversion E; done).
  set (n := length (promises (loop st))) in *.
  destruct (wf_prepareModal (S n) (Some "choice")
              (λ cl, showModal oracle cl (CNode (confirm_wrapper text cl n)))
              {| opt_close := None; opt_scrollLock := None |} st1 Hl1 Hw1)
    as (Hw & Hl & Hp).
  { intros cl s Hs Hcl Hws. apply wf_showModal; try done.
    simpl. rewrite Hcl. simpl. unfold reaction_ok. simpl.
    assert ((n <? S (S n))%nat = true) as -> by (apply Nat.ltb_lt; lia). done. }
  destruct (prepareModal _ _ _ st1) as [st2 p]. simpl in *. subst p.
  destruct (wf_register (S (S n)) (S n) (CatchReject n) st2) as [Hw' Hl']; [|done|].
  { apply Nat.ltb_lt. simpl. lia. }
  by rewrite Hl', Hl.
Qed.

Lemma wf_drain_all st : wf st → wf (drain_all st) ∧ jobs (loop (drain_all st)) = [].
Proof.
  intros Hwf. unfold wf, drain_all.
  destruct (wf_drain _ (pending_work (loop st)) st Hwf) as [Hw Hl].
  split; [by rewrite Hl|]. by apply drain_all_done.
Qed.

Lemma region_register (p : pid) (r : Reaction) (st : State) :
  region (register p r st) = region st.
Proof. unfold register. by repeat case_match. Qed.

Lemma onclick_closeModal (cl : Closure) (st : State) :
  onclick (region (fst (closeModal cl st))) = onclick (region st).
Proof.
  unfold closeModal, new_promise. simpl.
  case_match; simpl; [by rewrite region_settle|done].
Qed.

Lemma onclick_run_handler (b : bool) (tid : string) (h : Handler) (s : State) :
  onclick (region (run_handler b tid h s)) = onclick (region s).
Proof.
  destruct h as [|cl|cl|cl r]; simpl; try done.
  - apply onclick_closeModal.
  - case_match; [apply onclick_closeModal|done].
  - pose proof (onclick_closeModal cl s) as H.
    destruct (closeModal cl s) as [s1 c]. by rewrite region_register.
Qed.

Lemma onclick_run_handlers (b : bool) (tid : string) (hs : list Handler) (s : State) :
  onclick (region (foldl (λ s h, run_handler b tid h s) s hs)) = onclick (region s).
Proof.
  revert s. induction hs as [|h hs IH]; intros s; simpl; [done|].
  by rewrite IH, onclick_run_handler.
Qed.

Lemma wf_at_page n f st : wf_at n st → wf_at n (with_page f st).
Proof. done. Qed.

Lemma wf_onTransitionEnd n l st :
  listener_ok n l = true → length (promises (loop st)) = n → wf_at n st →
  wf_at n (onTransitionEnd l st) ∧ length (promises (loop (onTransitionEnd l st))) = n.
Proof.
  intros Hl Hn Hwf. unfold onTransitionEnd.
  set (st1 := if scrollLock (settings (env l)) then with_page unlock st else st).
  assert (wf_at n st1 ∧ length (promises (loop st1)) = n) as [Hw1 Hl1].
  { unfold st1. by case_match. }
  destruct (wf_settle n (resolveClose l) (Fulfilled VUndefined) st1 Hw1) as [Hw2 Hl2].
  destruct (wf_settle n (resolve (env l)) (Fulfilled VUndefined) _ Hw2) as [Hw3 Hl3].
  split; [done|]. by rewrite Hl3, Hl2.
Qed.

Lemma wf_dispatch n ls :
  forallb (listener_ok n) ls = true →
  ∀ st, length (promises (loop st)) = n → wf_at n st →
  wf_at n (foldl (λ s l, onTransitionEnd l s) st ls) ∧
  length (promises (loop (foldl (λ s l, onTransitionEnd l s) st ls))) = n.
Proof.
  induction ls as [|l ls IH]; simpl; [done|].
  rewrite andb_true_iff. intros [Hl Hls] st Hn Hwf.
  destruct (wf_onTransitionEnd n l st Hl Hn Hwf) as [Hw1 Hl1].
  by apply IH.
Qed.

Lemma wf_run_handler n on_region tid h st :
  handler_ok n h = true → (n ≤ length (promises (loop st)))%nat → wf st →
  wf (run_handler on_region tid h st) ∧
  (n ≤ length (promises (loop (run_handler on_region tid h st))))%nat.
Proof.
  intros Hh Hn Hwf. unfold wf in *.
  destruct h as [|cl|cl|cl r]; simpl in *.
  - done.
  - destruct (wf_closeModal _ cl st eq_refl) as [Hw Hl]; [by eapply closure_ok_mono|done|].
    rewrite Hl. split; [done|lia].
  - destruct (on_region || String.eqb tid "closeModal"); [|done].
    destruct (wf_closeModal _ cl st eq_refl) as [Hw Hl]; [by eapply closure_ok_mono|done|].
    rewrite Hl. split; [done|lia].
  - apply andb_true_iff in Hh as [Hcl Hr].
    destruct (wf_closeModal _ cl st eq_refl) as [Hw Hl]; [by eapply closure_ok_mono|done|].
    destruct (closeModal cl st) as [s1 c]. simpl in *.
    destruct (wf_register (S (length (promises (loop st)))) c r s1) as [Hw' Hl'];
      [eapply reaction_ok_mono; [|exact Hr]; lia|done|].
    rewrite Hl', Hl. split; [done|lia].
Qed.

Lemma wf_run_handlers n on_region tid hs :
  forallb (handler_ok n) hs = true →
  ∀ st, (n ≤ length (promises (loop st)))%nat → wf st →
  wf (foldl (λ s h, run_handler on_region tid h s) st hs) ∧
  (n ≤ length (promises (loop (foldl (λ s h, run_handler on_region tid h s) st hs))))%nat.
Proof.
  induction hs as [|h hs IH]; simpl; [done|].
  rewrite andb_true_iff. intros [Hh Hhs] st Hn Hwf.
  destruct (wf_run_handler n on_region tid h st Hh Hn Hwf) as [Hw1 Hn1].
  by apply IH.
Qed.

Lemma locate_ok n path :
  ∀ l hs tid, forallb (node_ok n) l = true → locate path l = Some (hs, tid) →
              forallb (handler_ok n) hs = true.
Proof.
  induction path as [|i rest IH]; intros l hs tid Hl; simpl; [done|].
  destruct (l !! i) as [x|] eqn:Ei; [|done].
  pose proof (forallb_lookup _ _ _ _ Hl Ei) as Hx.
  destruct x as [tag id cls sty h inner| | | | | |]; try done.
  simpl in Hx. apply andb_true_iff in Hx as [Hh Hinner].
  destruct rest as [|j rest'].
  - intros [= <- <-]. simpl. by rewrite Hh.
  - destruct inner as [s b|s|kids]; try done.
    destruct (locate (j :: rest') kids) as [[hs' tid']|] eqn:E; [|done].
    intros [= <- <-]. rewrite forallb_app. simpl. rewrite Hh.
    by rewrite (IH kids hs' tid' Hinner E).
Qed.

Lemma locate_markup_ok n host :
  ∀ l b hs, forallb (node_ok n) l = true → locate_markup host l = Some (b, hs) →
            handler_ok n b = true ∧ forallb (handler_ok n) hs = true.
Proof.
  induction host as [|i rest IH]; intros l b hs Hl; simpl; [done|].
  destruct (l !! i) as [x|] eqn:Ei; [|done].
  pose proof (forallb_lookup _ _ _ _ Hl Ei) as Hx.
  destruct x as [tag id cls sty h inner| | | | | |]; try done.
  simpl in Hx. apply andb_true_iff in Hx as [Hh Hinner].
  destruct rest as [|j rest'].
  - destruct inner as [s b'|s|kids]; try done.
    intros [= <- <-]. simpl. by rewrite Hh.
  - destruct inner as [s b'|s|kids]; try done.
    destruct (locate_markup (j :: rest') kids) as [[b' hs']|] eqn:E; [|done].
    intros [= <- <-]. destruct (IH kids b' hs' Hinner E) as [Hb Hhs].
    split; [done|]. rewrite forallb_app. simpl. by rewrite Hh, Hhs.
Qed.

Lemma markup_at_ok n host r b hs :
  rendered_ok n r = true → markup_at host r = Some (b, hs) →
  handler_ok n b = true ∧ forallb (handler_ok n) hs = true.
Proof.
  destruct host as [|i rest], r as [s b'|l]; simpl; try done.
  - by intros Hb [= <- <-].
  - apply (locate_markup_ok n (i :: rest)).
Qed.

Lemma wf_handle ev st : wf st → wf (handle ev st).
Proof.
  intros Hwf. pose proof Hwf as (H1 & H2 & H3 & H4 & H5 & H6).
  destruct ev as [|dt|i|[|path|host tid in_btn|tid]|y]; simpl.
  - unfold wf.
    destruct (wf_dispatch _ (listeners (region st)) H2
                (with_region (set_listeners []) st) eq_refl) as [Hw Hl].
    { unfold wf_at. proj_state. by split_and!. }
    by rewrite Hl.
  - done.
  - destruct (timers (loop st) !! i) as [t|] eqn:Et; [|done].
    destruct (due t <=? now (loop st)); [|done].
    pose proof (forallb_lookup _ _ _ _ H6 Et) as Ht. unfold timer_ok in Ht.
    set (st1 := with_loop (λ l, set_timers (delete i (timers l)) l) st).
    assert (wf st1) as Hw1.
    { unfold wf, wf_at, st1. proj_state. split_and!; try done. by apply forallb_delete. }
    destruct (job t) as [|cl]; simpl.
    + unfold fallbackCheck. by case_match.
    + unfold wf. destruct (wf_closeModal _ cl st1 eq_refl Ht Hw1) as [Hw Hl].
      by rewrite Hl.
  - by destruct (wf_run_handler _ true "modal" (onclick (region st)) st H1 (le_n _) Hwf).
  - destruct (modalContent (region st)) as [[s b|l]|] eqn:Ec; try done.
    destruct (locate path l) as [[hs tid]|] eqn:El; [|done].
    simpl in H3.
    pose proof (locate_ok _ path l hs tid H3 El) as Hhs.
    destruct (wf_run_handlers _ false tid hs Hhs st (le_n _) Hwf) as [Hw Hn].
    set (st1 := foldl _ st hs) in *.
    assert (handler_ok (length (promises (loop st))) (onclick (region st1)) = true) as Ho.
    { unfold st1. by rewrite onclick_run_handlers. }
    by destruct (wf_run_handler _ false tid (onclick (region st1)) st1 Ho Hn Hw).
  - destruct (modalContent (region st)) as [r|] eqn:Ec; [|done].
    destruct (markup_at host r) as [[b hs]|] eqn:El; [|done].
    simpl in H3.
    destruct (markup_at_ok _ host r b hs H3 El) as [Hb Hhs].
    assert (forallb (handler_ok (length (promises (loop st))))
              ((if in_btn then [b] else []) ++ hs) = true) as Hall.
    { rewrite forallb_app, Hhs. destruct in_btn; simpl; [by rewrite Hb|done]. }
    destruct (wf_run_handlers _ false tid _ Hall st (le_n _) Hwf) as [Hw Hn].
    set (st1 := foldl _ st _) in *.
    assert (handler_ok (length (promises (loop st))) (onclick (region st1)) = true) as Ho.
    { unfold st1. by rewrite onclick_run_handlers. }
    by destruct (wf_run_handler _ false tid (onclick (region st1)) st1 Ho Hn Hw).
  - by destruct (wf_run_handler _ false tid (onclick (region st)) st H1 (le_n _) Hwf).
  - done.
Qed.

Lemma wf_step ev st : wf st → wf (step ev st) ∧ jobs (loop (step ev st)) = [].
Proof. intros Hwf. unfold step. by apply wf_drain_all, wf_handle. Qed.

Lemma wf_spinner oracle st : wf st → wf (fst (spinner oracle None st)).
Proof.
  intros Hwf. unfold wf, spinner.
  match goal with |- context [prepareModal ?c (Some ?f) ?o st] =>
    destruct (wf_prepareModal _ c f o st eq_refl Hwf) as (Hw & Hl & _) end.
  { intros cl s Hs Hcl Hws. unfold bind, ret.
    match goal with |- context [showModal oracle cl ?x s] =>
      destruct (wf_showModal oracle _ cl x s Hs Hcl eq_refl Hws) as [Hw Hl];
      destruct (showModal oracle cl x s) as [s1 [e|[]]] end; done. }
  by rewrite Hl.
Qed.

Lemma wf_perform oracle c st : wf st → wf (perform oracle c st).
Proof.
  intros Hwf. destruct c; simpl.
  - by apply wf_confirmModal.
  - by apply wf_successFail.
  - by apply wf_successFail.
  - by apply wf_notif.
  - by apply wf_spinner.
Qed.

Lemma wf_act oracle a st : wf st → wf (act oracle a st) ∧ jobs (loop (act oracle a st)) = [].
Proof.
  intros Hwf. destruct a as [c|ev]; simpl.
  - by apply wf_drain_all, wf_perform.
  - by apply wf_step.
Qed.

Lemma wf_acts oracle l st :
  wf st → jobs (loop st) = [] →
  wf (acts oracle l st) ∧ jobs (loop (acts oracle l st)) = [].
Proof.
  revert st. induction l as [|a l IH]; intros st Hwf Hj; simpl; [done|].
  destruct (wf_act oracle a st Hwf) as [Hw1 Hj1].
  by apply IH.
Qed.

Lemma forallb_elem {A} (f : A → bool) (l : list A) (x : A) :
  forallb f l = true → x ∈ l → f x = true.
Proof.
  intros H Hx. apply list_elem_of_lookup in Hx as [i Hi]. by eapply forallb_lookup.
Qed.

Lemma wf_store_closed st : wf st → store_closed st.
Proof.
  intros (H1 & H2 & H3 & H4 & H5 & H6). unfold store_closed. split_and!.
  - intros l Hl. pose proof (forallb_elem _ _ _ H2 Hl) as H.
    unfold listener_ok, closure_ok in H.
    apply andb_true_iff in H as [Ha Hb]. apply Nat.ltb_lt in Ha, Hb. done.
  - intros q r Hq Hr. pose proof (forallb_elem _ _ _ H4 Hq) as H. simpl in H.
    pose proof (forallb_elem _ _ _ H Hr) as H'. by apply Nat.ltb_lt in H'.
  - intros j Hj. pose proof (forallb_elem _ _ _ H5 Hj) as H. by apply Nat.ltb_lt in H.
Qed.

Lemma wf_well_formed st : wf st ↔ well_formed st = true.
Proof. symmetry. apply well_formed_wf_at. Qed.

Lemma content_closeModal cl st :
  modalContent (region (fst (closeModal cl st))) = modalContent (region st).
Proof.
  unfold closeModal, new_promise. simpl.
  case_match; simpl; [by rewrite region_settle|done].
Qed.

Lemma content_run_handler b tid h st :
  modalContent (region (run_handler b tid h st)) = modalContent (region st).
Proof.
  destruct h as [|cl|cl|cl r]; simpl; try done.
  - apply content_closeModal.
  - case_match; [apply content_closeModal|done].
  - pose proof (content_closeModal cl st) as H.
    destruct (closeModal cl st) as [s1 c]. by rewrite region_register.
Qed.

Lemma content_run_handlers b tid hs st :
  modalContent (region (foldl (λ s h, run_handler b tid h s) st hs))
  = modalContent (region st).
Proof.
  revert st. induction hs as [|h hs IH]; intros st; simpl; [done|].
  by rewrite IH, content_run_handler.
Qed.

Lemma content_handle ev st :
  modalContent (region (handle ev st)) = modalContent (region st).
Proof.
  destruct ev as [|dt|i|[|path|host tid in_btn|tid]|y]; simpl; try done.
  - by rewrite region_dispatch.
  - destruct (timers (loop st) !! i) as [t|]; [|done].
    destruct (due t <=? now (loop st)); [|done].
    destruct (job t) as [|cl]; simpl.
    + unfold fallbackCheck. by case_match.
    + by rewrite content_closeModal.
  - apply content_run_handler.
  - destruct (modalContent (region st)) as [[s b|l]|] eqn:Ec; try done.
    destruct (locate path l) as [[hs tid]|]; [|done].
    by rewrite content_run_handler, content_run_handlers.
  - destruct (modalContent (region st)) as [r|] eqn:Ec; [|done].
    destruct (markup_at host r) as [[b hs]|]; [|done].
    by rewrite content_run_handler, content_run_handlers.
  - apply content_run_handler.
Qed.

Lemma container_showModal oracle cl content st :
  has_container st → has_container (fst (showModal oracle cl content st)).
Proof.
  intros [r0 Hc]. unfold has_container, showModal. rewrite Hc.
  repeat case_match; simpl; by eexists.
Qed.

Lemma container_prepareModal className f options st :
  (∀ cl s, has_container s → has_container (fst (f cl s))) →
  has_container st → has_container (fst (prepareModal className (Some f) options st)).
Proof.
  intros Hf Hc. unfold prepareModal, new_promise. simpl.
  rewrite executor_unfold.
  set (s0 := with_region (set_classes []) _).
  assert (has_container (fst (apply_className className s0))) as Ha.
  { unfold apply_className. repeat case_match; done. }
  destruct (apply_className className s0) as [s1 [e|[]]]; simpl in *.
  - unfold has_container. by rewrite region_settle.
  - set (cl := mkClosure _ _).
    specialize (Hf cl (with_region (set_onclick (close_handler cl)) s1) Ha).
    destruct (f cl _) as [s2 [e|[]]]; simpl in *; [|done].
    unfold has_container. by rewrite region_settle.
Qed.

Lemma container_perform oracle c st :
  has_container st → has_container (perform oracle c st).
Proof.
  intros Hc. destruct c; simpl.
  - unfold confirm, confirmModal.
    destruct (new_promise st) as [s1 outer] eqn:E.
    assert (has_container s1) as H1 by (inversion E; done).
    match goal with |- context [prepareModal ?c (Some ?f) ?o s1] =>
      assert (has_container (fst (prepareModal c (Some f) o s1))) as H
        by (apply container_prepareModal; [|done];
            intros cl s; apply container_showModal);
      destruct (prepareModal c (Some f) o s1) as [s2 p] end.
    simpl in *. unfold has_container. by rewrite region_register.
  - unfold success, successFail, notif. apply container_prepareModal; [|done].
    intros cl s Hs. unfold bind, modify.
    pose proof (container_showModal oracle cl (CNode (message_wrapper msg false)) s Hs) as H.
    by destruct (showModal _ _ _ _) as [s1 [e|[]]].
  - unfold fail, successFail, notif. apply container_prepareModal; [|done].
    intros cl s Hs. unfold bind, modify.
    pose proof (container_showModal oracle cl (CNode (message_wrapper msg true)) s Hs) as H.
    by destruct (showModal _ _ _ _) as [s1 [e|[]]].
  - unfold notif. apply container_prepareModal; [|done].
    intros cl s Hs. unfold bind, modify.
    pose proof (container_showModal oracle cl (CString markup) s Hs) as H.
    by destruct (showModal _ _ _ _) as [s1 [e|[]]].
  - unfold spinner. apply container_prepareModal; [|done].
    intros cl s Hs. unfold bind, ret.
    match goal with |- context [showModal oracle cl ?x s] =>
      pose proof (container_showModal oracle cl x s Hs) as H;
      destruct (showModal oracle cl x s) as [s1 [e|[]]] end; done.
Qed.

Lemma container_act oracle a st : has_container st → has_container (act oracle a st).
Proof.
  intros Hc. destruct a as [c|ev]; unfold has_container; simpl.
  - unfold drain_all. rewrite region_drain. by apply container_perform.
  - unfold step, drain_all. by rewrite region_drain, content_handle.
Qed.

(** Whatever the module and the page did since a well-formed page was
    loaded, the state is one to which the theorem on [confirm] applies. *)
Theorem reached_states_fit (oracle : string → bool) (l : list Action) (st : State) :
  well_formed st = true → jobs (loop st) = [] → has_container st →
  has_container (acts oracle l st) ∧
  jobs (loop (acts oracle l st)) = [] ∧
  store_closed (acts oracle l st).
Proof.
  intros Hwf Hj Hc. apply wf_well_formed in Hwf.
  destruct (wf_acts oracle l st Hwf Hj) as [Hw Hj'].
  split_and!; [|done|by apply wf_store_closed].
  clear -Hc. revert st Hc. induction l as [|a l IH]; intros st Hc; simpl; [done|].
  by apply IH, container_act.
Qed.

(** The page of the examples is such a page. *)
Lemma fresh_page_fits :
  well_formed fresh_page = true ∧ jobs (loop fresh_page) = [] ∧ has_container fresh_page.
Proof. split_and!; [reflexivity|reflexivity|by eexists]. Qed.

(** *** The fallback object *)

(** C4, as amended: when the region is missing, the script logs the error
    and installs the fallback object.  Of its operations, [success] and
    [fail] log their message and return a fulfilled promise; [confirm]
    returns a promise fulfilled with [true], [notif] and [custom] a
    fulfilled promise, all three without logging; none of these five
    throws. *)
Theorem fallback_operations (pg : Scroll) (lp : Loop) (c : Console) (msg : Msg) :
  init None pg lp c
    = (c ++ [mkEntry LError [AText missing_region_message]], FallbackObject) ∧
  Fallback.success msg c
    = (c ++ [mkEntry LLog [AText "Success:"; AMsg msg]],
       inr (RetPromise (Fulfilled VUndefined))) ∧
  Fallback.fail msg c
    = (c ++ [mkEntry LError [AText "Fail:"; AMsg msg]],
       inr (RetPromise (Fulfilled VUndefined))) ∧
  Fallback.confirm c = (c, inr (RetPromise (Fulfilled (VBool true)))) ∧
  Fallback.notif c = (c, inr (RetPromise (Fulfilled VUndefined))) ∧
  Fallback.custom c = (c, inr (RetPromise (Fulfilled VUndefined))).
Proof. split_and!; reflexivity. Qed.

(** C4 as stated fails: [notif] logs nothing, [spinner] returns no promise,
    and a callback that throws makes [spinner] throw. *)
Lemma fallback_is_not_uniform :
  fst (Fallback.notif []) = [] ∧
  snd (Fallback.spinner None []) = inr RetUndefined ∧
  snd (Fallback.spinner (Some (λ c, (c, inl TypeError))) []) = inl TypeError.
Proof. split_and!; reflexivity. Qed.

(** *** Open calls, step by step *)

Lemma renderable_rendering (content : Content) :
  renderable content = true → ∃ r, rendering content = inr r.
Proof. destruct content as [s|[]|v]; simpl; try done; by eexists. Qed.

Lemma showModal_spec (oracle : string → bool) (cl : Closure) (content : Content)
    (st : State) (r0 r : Rendered) :
  modalContent (region st) = Some r0 →
  rendering content = inr r →
  showModal oracle cl content st =
    ({| region := {| classes := add_token (classes (region st)) "active";
                     onclick := onclick (region st);
                     listeners := listeners (region st);
                     modalContent := Some (bind_close_btn oracle (HClose cl) r) |};
        page := if scrollLock (settings cl) then lock (page st) else page st;
        loop := loop st |}, inr tt).
Proof.
  intros Hc Hr. unfold showModal. rewrite Hc.
  change (match content with
          | CString s => inr (RMarkup s HNull)
          | CNode n => appendChild n
          | COther _ => inr (RNodes [])
          end) with (rendering content).
  rewrite Hr. open_state. by destruct (scrollLock (settings cl)).
Qed.

Lemma apply_className_spec (className : option string) (st : State) :
  className_accepted className = true →
  apply_className className (with_region (set_classes []) st)
  = (with_region (set_classes (class_tokens className)) st, inr tt).
Proof.
  unfold className_accepted, apply_className, class_tokens.
  destruct className as [c|]; [|done].
  destruct (String.eqb c ""); simpl; [done|].
  intros H. apply bool_decide_eq_true in H. unfold add. by rewrite H.
Qed.

(** The state in which the setup function of an open call runs. *)
Lemma executor_accepted (className : option string) (f : Closure → M unit)
    (cl : Closure) (st : State) :
  className_accepted className = true →
  executor className (Some f) cl st
  = f cl {| region := {| classes := class_tokens className;
                         onclick := close_handler cl;
                         listeners := listeners (region st);
                         modalContent := modalContent (region st) |};
            page := page st; loop := loop st |}.
Proof.
  intros H. rewrite executor_unfold, apply_className_spec by done. done.
Qed.

Lemma open_spec (oracle : string → bool) (className : option string) (content : Content)
    (options : Options) (st : State) (r0 r : Rendered) :
  modalContent (region st) = Some r0 →
  className_accepted className = true →
  rendering content = inr r →
  let p := length (promises (loop st)) in
  let cl := mkClosure (assign_settings options) p in
  prepareModal className (Some (λ cl, showModal oracle cl content)) options st =
    ({| region := {| classes := add_token (class_tokens className) "active";
                     onclick := close_handler cl;
                     listeners := listeners (region st);
                     modalContent := Some (bind_close_btn oracle (HClose cl) r) |};
        page := if scrollLock (settings cl) then lock (page st) else page st;
        loop := {| promises := promises (loop st) ++ [mkPromise Pending []];
                   jobs := jobs (loop st);
                   timers := timers (loop st);
                   now := now (loop st) |} |}, p).
Proof.
  intros Hc Ha Hr p cl. subst p cl.
  unfold prepareModal, new_promise.
  rewrite executor_accepted by done.
  erewrite showModal_spec by (simpl; done). done.
Qed.

Lemma open_then_spec (oracle : string → bool) (className : option string)
    (content : Content) (k : Closure → M unit)
    (options : Options) (st : State) (r0 r : Rendered) :
  modalContent (region st) = Some r0 →
  className_accepted className = true →
  rendering content = inr r →
  let p := length (promises (loop st)) in
  let cl := mkClosure (assign_settings options) p in
  let shown :=
    {| region := {| classes := add_token (class_tokens className) "active";
                    onclick := close_handler cl;
                    listeners := listeners (region st);
                    modalContent := Some (bind_close_btn oracle (HClose cl) r) |};
       page := if scrollLock (settings cl) then lock (page st) else page st;
       loop := {| promises := promises (loop st) ++ [mkPromise Pending []];
                  jobs := jobs (loop st);
                  timers := timers (loop st);
                  now := now (loop st) |} |} in
  prepareModal className (Some (λ cl, showModal oracle cl content ;> k cl)) options st =
    match k cl shown with
    | (s, inr _) => (s, p)
    | (s, inl e) => (settle p (Rejected (VError e)) s, p)
    end.
Proof.
  intros Hc Ha Hr p cl shown. subst p cl shown.
  unfold prepareModal, new_promise.
  rewrite executor_accepted by done.
  unfold bind.
  erewrite showModal_spec by (simpl; done). done.
Qed.

(** *** The end of a closing transition *)

(** The listener registered last runs after those of earlier calls, which
    settle earlier promises only. *)
Lemma transition_end_last (s : State) (ls : list Listener) (cl : Closure) (c : pid)
    (N : nat) (ps high : list Promise) :
  listeners (region s) = ls ++ [mkListener cl c] →
  promises (loop s) = ps ++ high →
  low_closed N ps (jobs (loop s)) →
  (∀ l, l ∈ ls → (resolveClose l < N)%nat ∧ (resolve (env l) < N)%nat) →
  ∃ old low,
    promises (loop old) = low ++ high ∧
    low_closed N low (jobs (loop old)) ∧
    handle TransitionEnd s
    = settle (resolve cl) (Fulfilled VUndefined) (settle c (Fulfilled VUndefined) old).
Proof.
  intros Hl Hps Hlow Hls.
  unfold handle. rewrite Hl, foldl_app. simpl.
  match goal with |- context [foldl ?f ?s0 ls] => set (old := foldl f s0 ls) end.
  destruct (dispatch_low N high ls ps (with_region (set_listeners []) s))
    as (low & Hps' & Hlow'); [done|done|done|].
  fold old in Hps', Hlow'.
  exists (if scrollLock (settings cl) then with_page unlock old else old), low.
  split_and!; [by case_match|by case_match|done].
Qed.

(** Jobs that name promises below [N] leave the promises from [N] on alone. *)
Lemma drain_low (N : nat) (high : list Promise) (n : nat) :
  ∀ (low : list Promise) (st : State),
  promises (loop st) = low ++ high →
  low_closed N low (jobs (loop st)) →
  ∃ low', promises (loop (drain n st)) = low' ++ high ∧
          low_closed N low' (jobs (loop (drain n st))).
Proof.
  induction n as [|n IH]; intros low st Hps Hlow; simpl; [by exists low|].
  destruct (jobs (loop st)) as [|j js] eqn:Ej; [exists low; by rewrite Ej|].
  set (st' := with_loop (set_jobs js) st).
  assert (low_closed N low (jobs (loop st'))) as Hlow'.
  { destruct Hlow as (? & ? & Hjs). split_and!; [done|done|].
    intros j' Hin. apply Hjs. rewrite elem_of_cons. by right. }
  assert (promises (loop st') = low ++ high) as Hps' by done.
  rewrite run_job_effective.
  destruct (effective j) as [[t s]|] eqn:Eeff; [|by apply (IH low)].
  assert (t < N)%nat as Ht.
  { apply effective_target in Eeff as ->. destruct Hlow as (_ & _ & Hjs).
    apply Hjs. rewrite elem_of_cons. by left. }
  destruct (settle_low N low high t s st' Hps' Hlow' Ht) as (low1 & Hps1 & Hlow1).
  by apply (IH low1).
Qed.

(** A promise that no reaction and no job names is not touched by the
    microtask queue. *)
Lemma drain_untouched (o : pid) (n : nat) (st : State) :
  (∀ q r, q ∈ promises (loop st) → r ∈ reactions q → reaction_target r ≠ o) →
  (∀ j s, j ∈ jobs (loop st) → effective j ≠ Some (o, s)) →
  promise_state o (drain n st) = promise_state o st.
Proof.
  revert st. induction n as [|n IH]; intros st Hrs Hjs; simpl; [done|].
  destruct (jobs (loop st)) as [|j js] eqn:Ej; [done|].
  rewrite run_job_effective.
  set (st' := with_loop (set_jobs js) st).
  destruct (effective j) as [[t s]|] eqn:Eeff.
  - assert (t ≠ o) as Hne.
    { intros ->. eapply Hjs; [|exact Eeff]. rewrite elem_of_cons. by left. }
    rewrite IH.
    + unfold promise_state. by rewrite settle_lookup_ne.
    + intros q r Hq Hr. eapply Hrs; [|exact Hr].
      by eapply (settle_reactions t s st' q r).
    + intros j' s' Hin' He'.
      apply settle_jobs in Hin' as [Hin'|(q & Hq & Hr & _)].
      * eapply Hjs; [|exact He']. rewrite elem_of_cons. by right.
      * apply effective_target in He'. eapply Hrs; [exact Hq|exact Hr|done].
  - rewrite IH; [done|done|].
    intros j' s' Hin'. apply Hjs. rewrite elem_of_cons. by right.
Qed.

Lemma store_closed_low (st : State) :
  store_closed st → jobs (loop st) = [] →
  low_closed (length (promises (loop st))) (promises (loop st)) [].
Proof.
  intros (_ & Hrs & _) _. split_and!; [done|exact Hrs|].
  intros j Hin. by apply elem_of_nil in Hin.
Qed.

Lemma fresh_page_closed : store_closed fresh_page.
Proof.
  unfold store_closed. simpl. split_and!.
  - intros l Hl. by apply elem_of_nil in Hl.
  - intros q r Hq. by apply elem_of_nil in Hq.
  - intros j Hj. by apply elem_of_nil in Hj.
Defined.

(** *** An open call from start to end *)

(** X3: the promise of an open call is fulfilled when, after [closeModal],
    the closing transition ends, and not before: it is pending while the
    dialog is shown and while it is closing.  The promise of the close is
    fulfilled at the same moment and no listener is left. *)
Theorem open_promise_fulfilled_when_closed (oracle : string → bool) (st : State)
    (className : option string) (content : Content) (options : Options) :
  has_container st →
  className_accepted className = true →
  renderable content = true →
  jobs (loop st) = [] →
  store_closed st →
  let opened := custom className (Some (λ cl, showModal oracle cl content)) options st in
  let cl := mkClosure (assign_settings options) (snd opened) in
  let closing := drain_all (fst (closeModal cl (fst opened))) in
  let closed := step TransitionEnd closing in
  visible (fst opened) = true ∧
  promise_state (snd opened) (fst opened) = Some Pending ∧
  visible closing = false ∧
  promise_state (snd opened) closing = Some Pending ∧
  visible closed = false ∧
  promise_state (snd opened) closed = Some (Fulfilled VUndefined) ∧
  promise_state (snd (closeModal cl (fst opened))) closed = Some (Fulfilled VUndefined) ∧
  listeners (region closed) = [].
Proof.
  intros [r0 Hc] Ha Hr Hj Hsc opened cl closing closed.
  destruct (renderable_rendering content Hr) as [r Hren].
  pose proof (open_spec oracle className content options st r0 r Hc Ha Hren) as Ho.
  simpl in Ho. unfold custom in opened.
  set (N := length (promises (loop st))) in *.
  assert ("active" ∈ classes (region (fst opened))) as Hact.
  { unfold opened. rewrite Ho. simpl. apply elem_of_add_token. by left. }
  assert (snd opened = N) as Hp by (unfold opened; by rewrite Ho).
  pose proof (closeModal_visible cl (fst opened) Hact) as Hcl.
  assert (closing = fst (closeModal cl (fst opened))) as Hclosing.
  { unfold closing. apply drain_all_idle. rewrite Hcl. unfold opened. by rewrite Ho. }
  assert (visible closing = false) as Hvis.
  { rewrite Hclosing, Hcl. apply not_active_after_remove. }
  assert (∃ low, length low = N ∧
            promises (loop (handle TransitionEnd closing))
            = low ++ [mkPromise (Fulfilled VUndefined) []; mkPromise (Fulfilled VUndefined) []])
    as Hfin.
  { destruct (transition_end_last closing (listeners (region st)) cl (N + 1) N
                (promises (loop st)) [mkPromise Pending []; mkPromise Pending []])
      as (old & low & Hps & (Hlen & _) & ->).
    - rewrite Hclosing, Hcl. unfold opened. rewrite Ho. simpl. do 3 f_equal.
      rewrite length_app. done.
    - rewrite Hclosing, Hcl. unfold opened. rewrite Ho. simpl. by rewrite <- app_assoc.
    - rewrite Hclosing, Hcl. unfold opened. rewrite Ho. simpl. rewrite Hj.
      by apply store_closed_low.
    - apply Hsc.
    - exists low. split; [done|].
      replace (N + 1)%nat with (length low + 1)%nat by lia.
      erewrite (settle_high low _ 1) by (done || reflexivity).
      unfold cl. simpl. rewrite Hp.
      replace (settle N) with (settle (length low + 0)%nat) by (f_equal; lia).
      erewrite (settle_high low _ 0) by (done || reflexivity).
      done. }
  split_and!.
  - by apply contains_true.
  - rewrite Hp. unfold opened. rewrite Ho. unfold promise_state. simpl.
    by rewrite list_lookup_middle.
  - done.
  - rewrite Hclosing, Hcl, Hp. unfold opened. rewrite Ho. unfold promise_state. simpl.
    rewrite <- app_assoc. simpl. by rewrite list_lookup_middle.
  - unfold closed, visible. by rewrite classes_step_TransitionEnd.
  - unfold closed, step, drain_all. apply drain_settled; [|done].
    unfold promise_state. destruct Hfin as (low & Hlen & ->). rewrite Hp, <- Hlen.
    by rewrite list_lookup_middle.
  - unfold closed, step, drain_all. apply drain_settled; [|done].
    unfold promise_state. destruct Hfin as (low & Hlen & ->). rewrite Hcl. simpl.
    unfold opened. rewrite Ho. simpl. rewrite length_app. fold N. rewrite <- Hlen.
    by rewrite lookup_after.
  - unfold closed, step, drain_all. rewrite region_drain. unfold handle.
    by rewrite region_dispatch.
Qed.

Lemma open_promise_fulfilled_when_closed_witness :
  promise_state 0
    (fst (custom (Some "card") (Some (λ cl, showModal no_markup_button cl (CString "Hello")))
            (mkOptions None None) fresh_page)) = Some Pending ∧
  promise_state 0
    (step TransitionEnd
       (drain_all (fst (closeModal (mkClosure (mkSettings "overlay" false) 0)
          (fst (custom (Some "card") (Some (λ cl, showModal no_markup_button cl (CString "Hello")))
                  (mkOptions None None) fresh_page))))))
  = Some (Fulfilled VUndefined).
Proof.
  destruct (open_promise_fulfilled_when_closed no_markup_button fresh_page (Some "card")
              (CString "Hello") (mkOptions None None)
              (ex_intro _ _ eq_refl) eq_refl eq_refl eq_refl fresh_page_closed)
    as (_ & H1 & _ & _ & _ & H2 & _).
  split; [exact H1|exact H2].
Defined.

(** *** Notifications *)

(** A delay within the signed 32-bit range is taken as it is. *)
Lemma to_long_in_range (d : Z) :
  -2147483648 ≤ d < 2147483648 → to_long d = d.
Proof. intros H. unfold to_long. rewrite Z.mod_small by lia. lia. Qed.

Lemma timer_delay_in_range (d : Z) :
  -2147483648 ≤ d < 2147483648 → timer_delay d = Z.max 0 d.
Proof. intros H. unfold timer_delay. by rewrite to_long_in_range. Qed.

(** A delay from 2^31 to 2^32 - 1 wraps to a negative one: no time at all. *)
Lemma timer_delay_wraps (d : Z) :
  2147483648 ≤ d < 4294967296 → timer_delay d = 0.
Proof.
  intros H. unfold timer_delay, to_long.
  replace (d + 2147483648) with (d - 2147483648 + 1 * 4294967296) by lia.
  rewrite Z_mod_plus_full, Z.mod_small by lia. lia.
Qed.

Lemma notif_spec (oracle : string → bool) (content : Content) (className : option string)
    (duration : option Z) (st : State) (r0 r : Rendered) :
  modalContent (region st) = Some r0 →
  className_accepted (Some (notification_class className)) = true →
  rendering content = inr r →
  let p := length (promises (loop st)) in
  let cl := mkClosure (mkSettings "all" false) p in
  notif oracle content className duration st =
    ({| region := {| classes := add_token (class_tokens (Some (notification_class className)))
                                  "active";
                     onclick := HClose cl;
                     listeners := listeners (region st);
                     modalContent := Some (bind_close_btn oracle (HClose cl) r) |};
        page := page st;
        loop := {| promises := promises (loop st) ++ [mkPromise Pending []];
                   jobs := jobs (loop st);
                   timers := timers (loop st)
                             ++ [mkTimer (now (loop st) + timer_delay (or_default duration))
                                   (CallClose cl)];
                   now := now (loop st) |} |}, p).
Proof.
  intros Hc Ha Hr p cl. subst p cl. unfold notif.
  rewrite (open_then_spec oracle _ content _ _ st r0 r Hc Ha Hr). done.
Qed.

(** The timer of a notification that is on display, run when it is due. *)
Lemma notif_timer_runs (oracle : string → bool) (content : Content)
    (className : option string) (duration : option Z) (st : State) (r0 r : Rendered) (dt : Z) :
  modalContent (region st) = Some r0 →
  className_accepted (Some (notification_class className)) = true →
  rendering content = inr r →
  jobs (loop st) = [] →
  timer_delay (or_default duration) ≤ Z.max 0 dt →
  let p := length (promises (loop st)) in
  let cl := mkClosure (mkSettings "all" false) p in
  step (Timeout (length (timers (loop st))))
    (step (Tick dt) (drain_all (fst (notif oracle content className duration st))))
  = {| region := {| classes := remove "active"
                                 (add_token
                                    (class_tokens (Some (notification_class className)))
                                    "active");
                    onclick := HClose cl;
                    listeners := listeners (region st) ++ [mkListener cl (p + 1)];
                    modalContent := Some (bind_close_btn oracle (HClose cl) r) |};
       page := page st;
       loop := {| promises := promises (loop st)
                              ++ [mkPromise Pending []; mkPromise Pending []];
                  jobs := [];
                  timers := timers (loop st)
                            ++ [mkTimer (now (loop st) + Z.max 0 dt + 400) FallbackCheck];
                  now := now (loop st) + Z.max 0 dt |} |}.
Proof.
  intros Hc Ha Hr Hj Hdue p cl. subst p cl.
  rewrite (notif_spec oracle content className duration st r0 r Hc Ha Hr). simpl.
  rewrite (drain_all_idle _) by done.
  unfold step at 2. simpl. rewrite (drain_all_idle _) by done.
  unfold step, handle. open_state.
  rewrite list_lookup_middle by done. simpl.
  rewrite (proj2 (Z.leb_le _ _)) by lia.
  rewrite delete_middle, app_nil_r. simpl.
  rewrite closeModal_visible by (simpl; apply elem_of_add_token; by left).
  simpl. rewrite Hj, length_app, <- app_assoc. simpl.
  by apply drain_all_idle.
Qed.

(** X4: a notification stays on display, its promise pending, until its
    time has passed.  The time is [duration], or 5000 when that is missing
    or 0.  For a time that fits the timer's signed 32-bit delay: the timer
    does nothing before the time is over, and once it is over the timer
    takes [active] off the region, the promise being fulfilled when the
    closing transition ends.  A time from 2^31 to 2^32 - 1 wraps to a
    negative delay, and the timer closes the notification without any time
    having passed. *)
Theorem notification_closes_after_its_time (oracle : string → bool) (st : State)
    (content : Content) (className : option string) (duration : option Z) :
  has_container st →
  className_accepted (Some (notification_class className)) = true →
  renderable content = true →
  jobs (loop st) = [] →
  store_closed st →
  let time := or_default duration in
  let opened := notif oracle content className duration st in
  let shown := drain_all (fst opened) in
  let i := length (timers (loop st)) in
  let expired := step (Timeout i) (step (Tick time) shown) in
  (∀ d, duration = Some d → d ≠ 0 → time = d) ∧
  (duration = None ∨ duration = Some 0 → time = 5000) ∧
  visible shown = true ∧
  promise_state (snd opened) shown = Some Pending ∧
  (0 < time < 2147483648 →
     ∀ dt, dt < time → step (Timeout i) (step (Tick dt) shown) = step (Tick dt) shown) ∧
  (-2147483648 ≤ time < 2147483648 →
     visible expired = false ∧
     promise_state (snd opened) expired = Some Pending ∧
     promise_state (snd opened) (step TransitionEnd expired) = Some (Fulfilled VUndefined)) ∧
  (2147483648 ≤ time < 4294967296 →
     visible (step (Timeout i) shown) = false).
Proof.
  intros [r0 Hc] Ha Hr Hj Hsc time opened shown i expired. subst i.
  destruct (renderable_rendering content Hr) as [r Hren].
  pose proof (notif_spec oracle content className duration st r0 r Hc Ha Hren) as Ho.
  simpl in Ho.
  set (N := length (promises (loop st))) in *.
  set (cl := mkClosure (mkSettings "all" false) N) in *.
  assert (snd opened = N) as Hp by (unfold opened; by rewrite Ho).
  assert (shown = fst opened) as Hshown.
  { unfold shown. apply drain_all_idle. unfold opened. by rewrite Ho. }
  split_and!.
  - intros d -> Hd. unfold time. simpl. by rewrite (proj2 (Z.eqb_neq d 0) Hd).
  - by intros [->| ->].
  - rewrite Hshown. unfold opened. rewrite Ho. apply contains_true. simpl.
    apply elem_of_add_token. by left.
  - rewrite Hshown, Hp. unfold opened. rewrite Ho. unfold promise_state. simpl.
    by rewrite list_lookup_middle.
  - intros Htime dt Hdt.
    assert (step (Tick dt) shown
            = with_loop (λ l, set_now (now l + Z.max 0 dt) l) (fst opened)) as ->.
    { unfold step. rewrite Hshown. simpl. apply drain_all_idle.
      unfold opened. by rewrite Ho. }
    unfold step, handle, opened. rewrite Ho. open_state.
    rewrite list_lookup_middle by done. simpl.
    fold time. rewrite timer_delay_in_range by lia.
    rewrite (proj2 (Z.leb_gt _ _)) by lia.
    by apply drain_all_idle.
  - intros Htime.
    assert (timer_delay time ≤ Z.max 0 time) as Hdue by (rewrite timer_delay_in_range; lia).
    pose proof (notif_timer_runs oracle content className duration st r0 r time
                  Hc Ha Hren Hj Hdue) as He.
    simpl in He. fold opened shown expired N cl in He.
    split_and!.
    + rewrite He. apply not_active_after_remove.
    + rewrite He, Hp. unfold promise_state. simpl. by rewrite list_lookup_middle.
    + rewrite Hp. unfold step, drain_all. apply drain_settled; [|done].
      destruct (transition_end_last expired (listeners (region st)) cl (N + 1) N
                  (promises (loop st)) [mkPromise Pending []; mkPromise Pending []])
        as (old & low & Hps & (Hlen & _) & ->).
      * by rewrite He.
      * by rewrite He.
      * rewrite He. simpl. by apply store_closed_low.
      * apply Hsc.
      * replace (N + 1)%nat with (length low + 1)%nat by lia.
        erewrite (settle_high low _ 1) by (done || reflexivity).
        unfold cl. simpl.
        replace (settle N) with (settle (length low + 0)%nat) by (f_equal; lia).
        erewrite (settle_high low _ 0) by (done || reflexivity).
        unfold promise_state. simpl. rewrite <- Hlen. by rewrite list_lookup_middle.
  - intros Htime.
    assert (timer_delay time ≤ Z.max 0 0) as Hdue by (rewrite timer_delay_wraps; lia).
    pose proof (notif_timer_runs oracle content className duration st r0 r 0
                  Hc Ha Hren Hj Hdue) as He.
    simpl in He. fold opened shown N cl in He.
    assert (step (Tick 0) shown = shown) as Ht0.
    { unfold step. rewrite Hshown. unfold opened. rewrite Ho. unfold handle. open_state.
      change (0 `max` 0) with 0. rewrite Z.add_0_r. by apply drain_all_idle. }
    rewrite Ht0 in He. rewrite He. apply not_active_after_remove.
Qed.

Lemma notification_closes_after_its_time_witness :
  visible (step (Timeout 0) (step (Tick 2999)
             (drain_all (fst (notif no_markup_button (CString "Saved") (Some "info")
                                (Some 3000) fresh_page))))) = true ∧
  promise_state 0
    (step TransitionEnd (step (Timeout 0) (step (Tick 3000)
       (drain_all (fst (notif no_markup_button (CString "Saved") (Some "info")
                          (Some 3000) fresh_page))))))
  = Some (Fulfilled VUndefined).
Proof.
  destruct (notification_closes_after_its_time no_markup_button fresh_page (CString "Saved")
              (Some "info") (Some 3000)
              (ex_intro _ _ eq_refl) eq_refl eq_refl eq_refl fresh_page_closed)
    as (_ & _ & _ & _ & _ & H & _).
  destruct H as (_ & _ & H); [done|].
  split; [reflexivity|exact H].
Defined.

(** *** Dismissing a dialog by a click *)

Lemma visible_drain_all (st : State) : visible (drain_all st) = visible st.
Proof. unfold visible, drain_all. by rewrite region_drain. Qed.

Lemma visible_closeModal (cl : Closure) (st : State) :
  visible (fst (closeModal cl st)) = false.
Proof.
  unfold visible. destruct (decide ("active" ∈ classes (region st))) as [H|H].
  - rewrite (closeModal_visible cl st H). apply not_active_after_remove.
  - rewrite (closeModal_not_visible cl st H). by apply contains_false.
Qed.

(** A region click, or a click that bubbles up to the region from an
    element with the given [id], closes the dialog by the region's handler
    in these cases only. *)
Lemma visible_region_handler (on_region : bool) (tid : string) (cl : Closure) (st : State) :
  visible (run_handler on_region tid (close_handler cl) st)
  = visible st &&
    negb (String.eqb (close (settings cl)) "all"
          || String.eqb (close (settings cl)) "overlay"
             && (on_region || String.eqb tid "closeModal")).
Proof.
  unfold close_handler.
  destruct (String.eqb (close (settings cl)) "all"); simpl.
  { rewrite visible_closeModal. by destruct (visible st). }
  destruct (String.eqb (close (settings cl)) "overlay"); simpl.
  - destruct (on_region || String.eqb tid "closeModal"); simpl.
    + rewrite visible_closeModal. by destruct (visible st).
    + by destruct (visible st).
  - by destruct (visible st).
Qed.

(** X5: which clicks dismiss a dialog opened with one element as content.
    A click on the region outside the content closes it when the [close]
    setting is ['all'] or ['overlay'] (the default) and not otherwise; a
    click on the element closes it when the element has class [close-btn]
    (whatever the setting, ['locked'] included), when the setting is
    ['all'], or when the setting is ['overlay'] and the element's id is
    [closeModal]. *)
Theorem click_dismissal_by_setting (oracle : string → bool) (st : State)
    (className : option string) (tag id cls : string) (sty : list (string * string))
    (txt : string) (options : Options) :
  has_container st →
  className_accepted className = true →
  jobs (loop st) = [] →
  let content := CNode (Element tag id cls sty HNull (InnerText txt)) in
  let opened :=
    drain_all (fst (custom className (Some (λ cl, showModal oracle cl content)) options st)) in
  let setting := close (assign_settings options) in
  visible opened = true ∧
  visible (step (Click OnRegion) opened)
  = negb (String.eqb setting "all" || String.eqb setting "overlay") ∧
  visible (step (Click (OnElement [0%nat])) opened)
  = negb (has_class "close-btn" cls
          || String.eqb setting "all"
          || String.eqb setting "overlay" && String.eqb id "closeModal").
Proof.
  intros [r0 Hc] Ha Hj content opened setting.
  pose proof (open_spec oracle className content options st r0 _ Hc Ha eq_refl) as Ho.
  simpl in Ho. unfold custom in opened.
  set (cl := mkClosure (assign_settings options) (length (promises (loop st)))) in *.
  assert (opened = fst (prepareModal className (Some (λ cl, showModal oracle cl content))
                          options st)) as Hop.
  { unfold opened. apply drain_all_idle. by rewrite Ho. }
  assert (visible opened = true) as Hvis.
  { rewrite Hop, Ho. apply contains_true. simpl. apply elem_of_add_token. by left. }
  assert (onclick (region opened) = close_handler cl) as Hoc by (by rewrite Hop, Ho).
  split_and!; [done| |].
  - unfold step. rewrite visible_drain_all. simpl. rewrite Hoc.
    rewrite visible_region_handler, Hvis. subst setting cl. simpl.
    by rewrite andb_true_r.
  - unfold step. rewrite visible_drain_all. unfold handle.
    assert (modalContent (region opened)
            = Some (RNodes [Element tag id cls sty
                              (if has_class "close-btn" cls then HClose cl else HNull)
                              (InnerText txt)])) as ->.
    { rewrite Hop, Ho. simpl. by destruct (has_class "close-btn" cls). }
    simpl. rewrite onclick_run_handler, Hoc, visible_region_handler. simpl.
    destruct (has_class "close-btn" cls); simpl.
    + by rewrite visible_closeModal.
    + by rewrite Hvis.
Qed.

Lemma click_dismissal_by_setting_witness :
  visible (step (Click OnRegion)
    (drain_all (fst (custom (Some "card")
       (Some (λ cl, showModal no_markup_button cl
                      (CNode (Element "button" "ok" "btn close-btn" [] HNull (InnerText "OK")))))
       (mkOptions (Some "locked") None) fresh_page)))) = true ∧
  visible (step (Click (OnElement [0%nat]))
    (drain_all (fst (custom (Some "card")
       (Some (λ cl, showModal no_markup_button cl
                      (CNode (Element "button" "ok" "btn close-btn" [] HNull (InnerText "OK")))))
       (mkOptions (Some "locked") None) fresh_page)))) = false.
Proof.
  destruct (click_dismissal_by_setting no_markup_button fresh_page (Some "card")
              "button" "ok" "btn close-btn" [] "OK" (mkOptions (Some "locked") None)
              (ex_intro _ _ eq_refl) eq_refl eq_refl)
    as (_ & H1 & H2).
  split; [exact H1|exact H2].
Defined.

(** *** A confirm dialog dismissed without an answer *)

Lemma only_new_promises_state (s s' : State) (p : pid) (x : PState) :
  only_new_promises s s' → promise_state p s = Some x → promise_state p s' = Some x.
Proof.
  intros (_ & _ & _ & extra & Hps). unfold promise_state. rewrite Hps.
  destruct (promises (loop s) !! p) as [q|] eqn:E; [|done].
  intros H. by rewrite (lookup_app_l_Some _ _ _ _ E).
Qed.

(** X6: a click on the overlay dismisses a confirm dialog like any dialog
    opened with the default [close] setting, but it answers nothing: when
    the closing transition has ended the promise [confirm] returned is
    still pending, no listener and no job is left, and it stays pending
    however much time passes and whichever timers run. *)
Theorem confirm_dismissed_stays_pending (oracle : string → bool) (text : string)
    (st : State) (evs : list Event) :
  has_container st →
  jobs (loop st) = [] →
  store_closed st →
  forallb time_only evs = true →
  let opened := drain_all (fst (confirm oracle text st)) in
  let answer := snd (confirm oracle text st) in
  let dismissed := step (Click OnRegion) opened in
  let closed := step TransitionEnd dismissed in
  visible opened = true ∧
  visible dismissed = false ∧
  visible closed = false ∧
  listeners (region closed) = [] ∧
  jobs (loop closed) = [] ∧
  promise_state answer closed = Some Pending ∧
  promise_state answer (run evs closed) = Some Pending.
Proof.
  intros [r0 Hc] Hj Hsc Hevs opened answer dismissed closed.
  pose proof (confirmModal_spec oracle text st r0 Hc) as Ho. simpl in Ho.
  unfold confirm in opened, answer.
  set (N := length (promises (loop st))) in *.
  set (cl := confirm_closure (N + 1)) in *.
  assert (answer = N) as Hans by (unfold answer; by rewrite Ho).
  assert (opened = fst (confirmModal oracle text st)) as Hop.
  { unfold opened. apply drain_all_idle. by rewrite Ho. }
  assert (dismissed = fst (closeModal cl opened)) as Hdis.
  { unfold dismissed, step.
    assert (handle (Click OnRegion) opened = fst (closeModal cl opened)) as ->
      by (rewrite Hop, Ho; reflexivity).
    apply drain_all_idle.
    rewrite closeModal_visible by (rewrite Hop, Ho; simpl; rewrite !elem_of_cons; auto).
    rewrite Hop, Ho. done. }
  rewrite closeModal_visible in Hdis
    by (rewrite Hop, Ho; simpl; rewrite !elem_of_cons; auto).
  rewrite Hop, Ho in Hdis. simpl in Hdis.
  assert (visible closed = false) as Hvis.
  { unfold closed, visible. rewrite classes_step_TransitionEnd, Hdis. done. }
  assert (jobs (loop closed) = []) as Hjobs.
  { unfold closed, step, drain_all. by apply drain_all_done. }
  assert (promise_state answer closed = Some Pending) as Hpend.
  { rewrite Hans. unfold closed, step, drain_all.
    destruct (transition_end_last dismissed (listeners (region st)) cl (N + 2) N
                (promises (loop st))
                [mkPromise Pending []; mkPromise Pending [CatchReject N]; mkPromise Pending []])
      as (old & low & Hps & (Hlen & Hlow & Hjs) & ->).
    - rewrite Hdis. simpl. do 3 f_equal. rewrite length_app. simpl. lia.
    - rewrite Hdis. simpl. by rewrite <- app_assoc.
    - rewrite Hdis. simpl. rewrite Hj. by apply store_closed_low.
    - apply Hsc.
    - replace (N + 2)%nat with (length low + 2)%nat by lia.
      erewrite (settle_high low _ 2) by (done || reflexivity).
      unfold cl. simpl.
      replace (N + 1)%nat with (length low + 1)%nat by lia.
      erewrite (settle_high low _ 1) by (done || reflexivity).
      simpl. rewrite drain_untouched.
      + unfold promise_state. simpl. rewrite <- Hlen. by rewrite list_lookup_middle.
      + simpl. intros q r Hq Hr. apply elem_of_app in Hq as [Hq|Hq].
        * specialize (Hlow q r Hq Hr). lia.
        * rewrite !elem_of_cons, elem_of_nil in Hq.
          destruct Hq as [->|[->|[->|[]]]]; simpl in Hr; by apply elem_of_nil in Hr.
      + simpl. intros j s Hin He.
        rewrite !elem_of_app, elem_of_nil, list_elem_of_singleton in Hin.
        destruct Hin as [[Hin|[]]| ->].
        * apply effective_target in He. specialize (Hjs j Hin). lia.
        * simpl in He. done. }
  split_and!.
  - rewrite Hop, Ho. done.
  - by rewrite Hdis.
  - done.
  - unfold closed, step, drain_all. rewrite region_drain. unfold handle.
    by rewrite region_dispatch.
  - done.
  - done.
  - apply (only_new_promises_state closed); [|done].
    apply run_time_only; [done| |done].
    by apply contains_false.
Qed.

Lemma confirm_dismissed_stays_pending_witness :
  promise_state 0
    (run [Tick 400; Timeout 0; Tick 100000]
       (step TransitionEnd
          (step (Click OnRegion)
             (drain_all (fst (confirm no_markup_button "Delete?" fresh_page))))))
  = Some Pending.
Proof.
  exact (proj2 (proj2 (proj2 (proj2 (proj2 (proj2
    (confirm_dismissed_stays_pending no_markup_button "Delete?" fresh_page
       [Tick 400; Timeout 0; Tick 100000]
       (ex_intro _ _ eq_refl) eq_refl fresh_page_closed eq_refl))))))).
Defined.

(** *** Class names that [classList.add] refuses *)

Lemma apply_className_refused (c : string) (e : Exn) (st : State) :
  String.eqb c "" = false →
  check_tokens (split_space c) = Some e →
  apply_className (Some c) st = (st, inl e).
Proof. intros Hc He. unfold apply_className, add. by rewrite Hc, He. Qed.

Lemma settle_last (ps : list Promise) (s : PState) (st : State) :
  promises (loop st) = ps ++ [mkPromise Pending []] →
  settle (length ps) s st
  = with_loop (set_promises (ps ++ [mkPromise s []])) st.
Proof.
  intros Hps.
  replace (settle (length ps)) with (settle (length ps + 0)%nat) by (f_equal; lia).
  rewrite (settle_high ps [mkPromise Pending []] 0 [] s st Hps eq_refl).
  destruct st as [rg pg [ps' js ts t]]. open_state. by rewrite app_nil_r.
Qed.

Lemma prepareModal_refused (c : string) (e : Exn) (setupFunc : option (Closure → M unit))
    (options : Options) (st : State) :
  String.eqb c "" = false →
  check_tokens (split_space c) = Some e →
  prepareModal (Some c) setupFunc options st =
    ({| region := set_classes [] (region st);
        page := page st;
        loop := {| promises := promises (loop st) ++ [mkPromise (Rejected (VError e)) []];
                   jobs := jobs (loop st);
                   timers := timers (loop st);
                   now := now (loop st) |} |}, length (promises (loop st))).
Proof.
  intros Hc He. unfold prepareModal, new_promise.
  rewrite executor_unfold, (apply_className_refused c e) by done.
  open_state. by rewrite (settle_last (promises (loop st))).
Qed.


(** X7: an open call whose class name has a piece that [classList.add]
    refuses (an empty piece, from a space at either end or two spaces in a
    row, or a piece with white space inside) is rejected with the error of
    the first such piece, whatever the setup function and the options: the
    region's classes have been emptied, but its click handler, its content
    and its listeners are those of before, the setup function has not run,
    and no timer or job was made. *)
Theorem open_with_refused_class_name (c : string) (e : Exn)
    (setupFunc : option (Closure → M unit)) (options : Options) (st : State) :
  String.eqb c "" = false →
  check_tokens (split_space c) = Some e →
  let opened := custom (Some c) setupFunc options st in
  promise_state (snd opened) (fst opened) = Some (Rejected (VError e)) ∧
  region (fst opened) = set_classes [] (region st) ∧
  page (fst opened) = page st ∧
  timers (loop (fst opened)) = timers (loop st) ∧
  jobs (loop (fst opened)) = jobs (loop st).
Proof.
  intros Hc He opened. unfold opened, custom.
  rewrite (prepareModal_refused c e) by done.
  split_and!; try done.
  unfold promise_state. simpl. by rewrite list_lookup_middle.
Qed.

Lemma open_with_refused_class_name_witness :
  promise_state 1
    (fst (custom (Some "card ") (Some (λ cl, showModal no_markup_button cl (CString "Hello")))
            (mkOptions None None) shown_notice))
  = Some (Rejected (VError SyntaxError)) ∧
  onclick (region
    (fst (custom (Some "card ") (Some (λ cl, showModal no_markup_button cl (CString "Hello")))
            (mkOptions None None) shown_notice))) = HClose notice_closure.
Proof.
  split.
  - exact (proj1 (open_with_refused_class_name "card " SyntaxError
                    (Some (λ cl, showModal no_markup_button cl (CString "Hello")))
                    (mkOptions None None) shown_notice eq_refl eq_refl)).
  - reflexivity.
Defined.

(** X8: the class name of a notification at its edges.  With the empty
    string the class string is ['notification '], whose second piece is
    empty, so the call is rejected with a SyntaxError before anything is
    shown or timed; with the class name left out the region gets the class
    [undefined] beside [notification]. *)
Theorem notif_class_name_edges (oracle : string → bool) (st : State) (content : Content)
    (duration : option Z) :
  has_container st →
  renderable content = true →
  let refused := notif oracle content (Some "") duration st in
  let unnamed := notif oracle content None duration st in
  promise_state (snd refused) (fst refused) = Some (Rejected (VError SyntaxError)) ∧
  modalContent (region (fst refused)) = modalContent (region st) ∧
  timers (loop (fst refused)) = timers (loop st) ∧
  visible (fst refused) = false ∧
  promise_state (snd unnamed) (fst unnamed) = Some Pending ∧
  classes (region (fst unnamed)) = ["notification"; "undefined"; "active"].
Proof.
  intros [r0 Hc] Hr refused unnamed.
  destruct (renderable_rendering content Hr) as [r Hren].
  unfold refused, unnamed.
  rewrite (notif_spec oracle content None duration st r0 r Hc eq_refl Hren).
  unfold notif.
  rewrite (prepareModal_refused _ SyntaxError) by done.
  split_and!; try done.
  - unfold promise_state. simpl. by rewrite list_lookup_middle.
  - unfold promise_state. simpl. by rewrite list_lookup_middle.
Qed.

Lemma notif_class_name_edges_witness :
  promise_state 0 (fst (notif no_markup_button (CString "Saved") (Some "") None fresh_page))
  = Some (Rejected (VError SyntaxError)) ∧
  classes (region (fst (notif no_markup_button (CString "Saved") None None fresh_page)))
  = ["notification"; "undefined"; "active"].
Proof.
  destruct (notif_class_name_edges no_markup_button fresh_page (CString "Saved") None
              (ex_intro _ _ eq_refl) eq_refl) as (H1 & _ & _ & _ & _ & H2).
  split; [exact H1|exact H2].
Defined.

(** *** A page without the content element *)

Lemma open_then_no_container (oracle : string → bool) (className : option string)
    (content : Content) (k : Closure → M unit) (options : Options) (st : State) :
  modalContent (region st) = None →
  className_accepted className = true →
  let p := length (promises (loop st)) in
  let cl := mkClosure (assign_settings options) p in
  prepareModal className (Some (λ cl, showModal oracle cl content ;> k cl)) options st =
    ({| region := {| classes := class_tokens className;
                     onclick := close_handler cl;
                     listeners := listeners (region st);
                     modalContent := None |};
        page := page st;
        loop := {| promises := promises (loop st) ++ [mkPromise (Rejected (VError TypeError)) []];
                   jobs := jobs (loop st);
                   timers := timers (loop st);
                   now := now (loop st) |} |}, p).
Proof.
  intros Hc Ha p cl. subst p cl.
  unfold prepareModal, new_promise.
  rewrite executor_accepted by done.
  unfold bind, showModal. open_state. rewrite Hc.
  by rewrite (settle_last (promises (loop st))).
Qed.

Lemma open_no_container (oracle : string → bool) (className : option string)
    (content : Closure → Content) (options : Options) (st : State) :
  modalContent (region st) = None →
  className_accepted className = true →
  let p := length (promises (loop st)) in
  let cl := mkClosure (assign_settings options) p in
  prepareModal className (Some (λ cl, showModal oracle cl (content cl))) options st =
    ({| region := {| classes := class_tokens className;
                     onclick := close_handler cl;
                     listeners := listeners (region st);
                     modalContent := None |};
        page := page st;
        loop := {| promises := promises (loop st) ++ [mkPromise (Rejected (VError TypeError)) []];
                   jobs := jobs (loop st);
                   timers := timers (loop st);
                   now := now (loop st) |} |}, p).
Proof.
  intros Hc Ha p cl. subst p cl.
  unfold prepareModal, new_promise.
  rewrite executor_accepted by done.
  unfold showModal. open_state. rewrite Hc.
  by rewrite (settle_last (promises (loop st))).
Qed.

(** X9: on a page whose region has no [.content] child, every helper
    fails at [showModal]'s first line: [success] and [fail] (through
    [notif]) and [spinner] return a promise rejected with a TypeError,
    nothing is displayed, no timer is set and the spinner's callback is not
    called; [confirm] returns a promise that its [catch] rejects with
    undefined once the microtask queue has run. *)
Theorem helpers_without_content_element (oracle : string → bool) (st : State)
    (msg : Msg) (duration : option Z) (isFailed : bool) (text : string)
    (callback : option (Closure → M unit)) :
  modalContent (region st) = None →
  jobs (loop st) = [] →
  let told := successFail oracle msg duration isFailed st in
  let spun := spinner oracle callback st in
  let asked := confirm oracle text st in
  promise_state (snd told) (fst told) = Some (Rejected (VError TypeError)) ∧
  visible (fst told) = false ∧
  timers (loop (fst told)) = timers (loop st) ∧
  promise_state (snd spun) (fst spun) = Some (Rejected (VError TypeError)) ∧
  visible (fst spun) = false ∧
  fst spun = fst (spinner oracle None st) ∧
  promise_state (snd asked) (fst asked) = Some Pending ∧
  promise_state (snd asked) (drain_all (fst asked)) = Some (Rejected VUndefined) ∧
  visible (fst asked) = false.
Proof.
  intros Hc Hj told spun asked.
  assert (told = _) as Htold
    by exact (open_then_no_container oracle _ _ _ _ st Hc
                (ltac:(by destruct isFailed) : className_accepted
                   (Some (notification_class (Some (if isFailed then "error" else "success"))))
                 = true)).
  assert (∀ cb, spinner oracle cb st = _) as Hspun
    by exact (λ cb, open_then_no_container oracle (Some "spinner") _ _ _ st Hc eq_refl).
  assert (asked =
    ({| region := {| classes := ["choice"];
                     onclick := HOverlay (confirm_closure (length (promises (loop st)) + 1));
                     listeners := listeners (region st);
                     modalContent := None |};
        page := page st;
        loop := {| promises := promises (loop st)
                               ++ [mkPromise Pending [];
                                   mkPromise (Rejected (VError TypeError)) []];
                   jobs := [(CatchReject (length (promises (loop st))),
                             Rejected (VError TypeError))];
                   timers := timers (loop st);
                   now := now (loop st) |} |}, length (promises (loop st)))) as Hasked.
  { unfold asked, confirm, confirmModal.
    destruct (new_promise st) as [s1 o] eqn:E1. unfold new_promise in E1. simplify_eq.
    rewrite (open_no_container oracle (Some "choice")
               (λ cl, CNode (confirm_wrapper text cl (length (promises (loop st))))))
      by done.
    open_state. unfold register. open_state. rewrite length_app. simpl.
    rewrite <- app_assoc. simpl.
    rewrite (lookup_after _ _ 1). simpl. by rewrite Hj. }
  unfold spun. rewrite !Hspun, Htold. clear Htold Hspun told spun.
  split_and!; try done.
  - unfold promise_state. simpl. by rewrite list_lookup_middle.
  - simpl. by destruct isFailed.
  - unfold promise_state. simpl. by rewrite list_lookup_middle.
  - rewrite Hasked. unfold promise_state. simpl. by rewrite list_lookup_middle.
  - rewrite Hasked. unfold drain_all, pending_work. simpl.
    apply drain_settled; [|done].
    apply (settle_pending_state _ _ _ []). simpl. by rewrite list_lookup_middle.
  - by rewrite Hasked.
Qed.

Lemma helpers_without_content_element_witness :
  promise_state 0
    (fst (successFail no_markup_button (MString "Saved") None false
            (with_region (set_modalContent None) fresh_page)))
  = Some (Rejected (VError TypeError)) ∧
  promise_state 0
    (drain_all (fst (confirm no_markup_button "Delete?"
                       (with_region (set_modalContent None) fresh_page))))
  = Some (Rejected VUndefined).
Proof.
  destruct (helpers_without_content_element no_markup_button
              (with_region (set_modalContent None) fresh_page)
              (MString "Saved") None false "Delete?" None eq_refl eq_refl)
    as (H1 & _ & _ & _ & _ & _ & _ & H2 & _).
  split; [exact H1|exact H2].
Defined.

(** *** Listeners run once *)

Lemma drain_all_jobs (st : State) : jobs (loop (drain_all st)) = [].
Proof. unfold drain_all. by apply drain_all_done. Qed.

Lemma handle_TransitionEnd_idle (st : State) :
  listeners (region st) = [] → handle TransitionEnd st = st.
Proof.
  intros H. unfold handle. rewrite H. simpl.
  destruct st as [[c o l m] pg lp]. simpl in H. by subst.
Qed.

(** X10: the listener of a close runs once.  After a [transitionend]
    event no listener is left, so a second [transitionend] (a region
    usually sees one for every property in transition) changes nothing:
    the scroll position is not restored twice and no promise is settled
    again. *)
Theorem second_transition_end_changes_nothing (st : State) :
  listeners (region (step TransitionEnd st)) = [] ∧
  step TransitionEnd (step TransitionEnd st) = step TransitionEnd st.
Proof.
  assert (listeners (region (step TransitionEnd st)) = []) as Hl.
  { unfold step, drain_all. rewrite region_drain. unfold handle.
    by rewrite region_dispatch. }
  split; [done|].
  unfold step at 1. rewrite handle_TransitionEnd_idle by done.
  apply drain_all_idle. apply drain_all_jobs.
Qed.

(** *** Locking and unlocking the scroll *)

(** X11: what [unlock] after [lock] gives back.  The vertical offset of
    the window is restored, but the horizontal offset is set to 0 and
    [body.style.top] and the root's [scroll-behavior] are cleared rather
    than put back; so the pair leaves the page as it was exactly when the
    window was not scrolled sideways, those two styles were empty, the body
    was not marked [locked] and the saved position already was the
    offset. *)
Theorem unlock_after_lock (s : Scroll) :
  scrollY (unlock (lock s)) = scrollY s ∧
  scrollX (unlock (lock s)) = 0 ∧
  body_top (unlock (lock s)) = "" ∧
  scroll_behavior (unlock (lock s)) = "" ∧
  contains "locked" (body_classes (unlock (lock s))) = false ∧
  (unlock (lock s) = s ↔
     scrollX s = 0 ∧ body_top s = "" ∧ scroll_behavior s = "" ∧
     contains "locked" (body_classes s) = false ∧ currentPos s = scrollY s).
Proof.
  assert (currentPos (lock s) = scrollY s) as Hpos by apply lock_saves_offset.
  split_and!; try done.
  - apply not_active_after_remove'.
  - split.
    + intros H.
      split_and!.
      * by rewrite <- H.
      * by rewrite <- H.
      * by rewrite <- H.
      * rewrite <- H. apply not_active_after_remove'.
      * rewrite <- H at 1. done.
    + intros (Hx & Ht & Hb & Hl & Hc).
      destruct s as [cp sx sy q bc bt sb]. unfold unlock. rewrite Hpos.
      simpl in *. subst. rewrite remove_add_token.
      rewrite remove_absent by (by apply contains_false). done.
Qed.

(** *** The spinner *)











(** *** A timer that outlives its notification *)

(** X13: the timer of a notification closes whatever dialog the region
    shows when it runs.  If another dialog is opened while the notification
    is up, that dialog loses [active] when the notification's timer runs,
    once the time passed has reached its delay;
    at the end of the transition it is the notification's promise that is
    fulfilled, while the promise of the dialog that was closed stays
    pending. *)
Theorem notification_timer_closes_next_dialog (oracle : string → bool) (st : State)
    (content : Content) (className : option string) (duration : option Z)
    (className2 : option string) (content2 : Content) (options2 : Options) (dt : Z) :
  has_container st →
  className_accepted (Some (notification_class className)) = true →
  renderable content = true →
  className_accepted className2 = true →
  renderable content2 = true →
  jobs (loop st) = [] →
  store_closed st →
  timer_delay (or_default duration) ≤ Z.max 0 dt →
  let first := notif oracle content className duration st in
  let second :=
    custom className2 (Some (λ cl, showModal oracle cl content2)) options2
      (drain_all (fst first)) in
  let shown := drain_all (fst second) in
  let expired := step (Timeout (length (timers (loop st)))) (step (Tick dt) shown) in
  let closed := step TransitionEnd expired in
  visible shown = true ∧
  promise_state (snd first) shown = Some Pending ∧
  promise_state (snd second) shown = Some Pending ∧
  visible expired = false ∧
  visible closed = false ∧
  promise_state (snd first) closed = Some (Fulfilled VUndefined) ∧
  promise_state (snd second) closed = Some Pending.
Proof.
  intros [r0 Hc] Ha Hr Ha2 Hr2 Hj Hsc Hdt first second shown expired closed.
  destruct (renderable_rendering content Hr) as [r Hren].
  destruct (renderable_rendering content2 Hr2) as [r2 Hren2].
  pose proof (notif_spec oracle content className duration st r0 r Hc Ha Hren) as H1.
  simpl in H1.
  set (N := length (promises (loop st))) in *.
  set (cl := mkClosure (mkSettings "all" false) N) in *.
  assert (drain_all (fst first) = fst first) as Hd1.
  { apply drain_all_idle. unfold first. by rewrite H1. }
  subst closed expired shown second. unfold custom. rewrite Hd1.
  set (second := prepareModal className2 (Some (λ cl, showModal oracle cl content2)) options2
                   (fst first)).
  set (shown := drain_all (fst second)).
  set (expired := step (Timeout (length (timers (loop st))))
                    (step (Tick dt) shown)).
  set (closed := step TransitionEnd expired).
  assert (modalContent (region (fst first))
          = Some (bind_close_btn oracle (HClose cl) r)) as Hc1
    by (unfold first; by rewrite H1).
  pose proof (open_spec oracle className2 content2 options2 (fst first) _ r2
                Hc1 Ha2 Hren2) as H2.
  fold second in H2. simpl in H2.
  assert (fst first = fst (notif oracle content className duration st)) as Hf1 by done.
  rewrite H1 in Hf1. rewrite Hf1 in H2. simpl in H2.
  rewrite length_app in H2. simpl in H2. fold N in H2.
  assert (snd first = N) as Hp1 by (unfold first; by rewrite H1).
  assert (snd second = (N + 1)%nat) as Hp2 by (by rewrite H2).
  assert (shown = fst second) as Hshown.
  { unfold shown. apply drain_all_idle. by rewrite H2. }
  assert (step (Tick dt) shown
          = with_loop (λ l, set_now (now l + Z.max 0 dt) l) (fst second))
    as Htick.
  { unfold step. rewrite Hshown. simpl. apply drain_all_idle.
    by rewrite H2. }
  assert (expired
          = fst (closeModal cl
                   (with_loop (λ l, set_timers (timers (loop st))
                                      (set_now (now l + Z.max 0 dt) l))
                      (fst second)))) as Hexp.
  { unfold expired. rewrite Htick. rewrite H2. unfold step, handle. open_state.
    rewrite list_lookup_middle by done. simpl.
    rewrite (proj2 (Z.leb_le _ _)) by lia.
    rewrite delete_middle, app_nil_r. simpl.
    apply drain_all_idle.
    rewrite closeModal_visible by (simpl; apply elem_of_add_token; by left).
    done. }
  rewrite closeModal_visible in Hexp.
  2:{ rewrite H2. simpl. apply elem_of_add_token. by left. }
  rewrite H2 in Hexp. simpl in Hexp.
  assert (∃ low, length low = N ∧
            promises (loop closed)
            = low ++ [mkPromise (Fulfilled VUndefined) []; mkPromise Pending [];
                      mkPromise (Fulfilled VUndefined) []]) as (low & Hlen & Hfin).
  { unfold closed, step, drain_all.
    destruct (transition_end_last expired (listeners (region st)) cl (N + 2) N
                (promises (loop st))
                [mkPromise Pending []; mkPromise Pending []; mkPromise Pending []])
      as (old & low & Hps & Hlow & ->).
    - rewrite Hexp. simpl. do 3 f_equal. rewrite !length_app. simpl. lia.
    - rewrite Hexp. simpl. by rewrite <- !app_assoc.
    - rewrite Hexp. simpl. rewrite Hj. by apply store_closed_low.
    - apply Hsc.
    - pose proof Hlow as (Hlen & _).
      replace (N + 2)%nat with (length low + 2)%nat by lia.
      erewrite (settle_high low _ 2) by (done || reflexivity).
      unfold cl. simpl.
      replace (settle N) with (settle (length low + 0)%nat) by (f_equal; lia).
      erewrite (settle_high low _ 0) by (done || reflexivity).
      simpl.
      match goal with |- context [drain ?n ?s] =>
        destruct (drain_low N [mkPromise (Fulfilled VUndefined) []; mkPromise Pending [];
                               mkPromise (Fulfilled VUndefined) []] n low s)
          as (low' & Hps' & (Hlen' & _))
      end.
      + done.
      + simpl. by rewrite !app_nil_r.
      + by exists low'. }
  split_and!.
  - rewrite Hshown. rewrite H2. apply contains_true. simpl.
    apply elem_of_add_token. by left.
  - rewrite Hshown, Hp1. rewrite H2. unfold promise_state. simpl.
    rewrite <- app_assoc. simpl. by rewrite list_lookup_middle.
  - rewrite Hshown, Hp2. rewrite H2. unfold promise_state. simpl.
    by rewrite list_lookup_middle by (rewrite length_app; simpl; lia).
  - rewrite Hexp. apply not_active_after_remove.
  - unfold closed, visible. rewrite classes_step_TransitionEnd, Hexp.
    apply not_active_after_remove.
  - rewrite Hp1. unfold promise_state. rewrite Hfin, <- Hlen.
    by rewrite list_lookup_middle.
  - rewrite Hp2. unfold promise_state. rewrite Hfin, <- Hlen.
    by rewrite (lookup_after _ _ 1).
Qed.

Lemma notification_timer_closes_next_dialog_witness :
  visible (step (Timeout 0) (step (Tick 5000)
     (drain_all (fst (custom (Some "card")
        (Some (λ cl, showModal no_markup_button cl (CString "Hello")))
        (mkOptions (Some "locked") None)
        (drain_all (fst (notif no_markup_button (CString "Saved") (Some "info") None
                           fresh_page)))))))) = false.
Proof.
  exact (proj1 (proj2 (proj2 (proj2
    (notification_timer_closes_next_dialog no_markup_button fresh_page (CString "Saved")
       (Some "info") None (Some "card") (CString "Hello") (mkOptions (Some "locked") None)
       5000
       (ex_intro _ _ eq_refl) eq_refl eq_refl eq_refl eq_refl eq_refl fresh_page_closed
       ltac:(by vm_compute)))))).
Defined.

(** *** A second click while the confirm dialog is closing *)

(** A promise that is settled stays as it is, whatever happens. *)
Lemma dispatch_settled (ls : list Listener) (q : pid) (x : PState) (st : State) :
  promise_state q st = Some x → x ≠ Pending →
  promise_state q (foldl (λ s l, onTransitionEnd l s) st ls) = Some x.
Proof.
  revert st. induction ls as [|l ls IH]; intros st Hq Hx; simpl; [done|].
  apply IH; [|done]. unfold onTransitionEnd.
  do 2 (apply settle_settled; [|done]).
  by destruct (scrollLock (settings (env l))).
Qed.

Lemma closeModal_settled (cl : Closure) (q : pid) (x : PState) (st : State) :
  promise_state q st = Some x → x ≠ Pending →
  promise_state q (fst (closeModal cl st)) = Some x.
Proof.
  intros Hq Hx.
  assert (promise_state q (fst (new_promise st)) = Some x) as Hn.
  { unfold promise_state in *. simpl.
    destruct (promises (loop st) !! q) as [c|] eqn:E; [|done].
    by rewrite (lookup_app_l_Some _ _ _ _ E). }
  unfold closeModal. destruct (new_promise st) as [s1 c] eqn:E1. simpl in Hn.
  case_match; simpl; [by apply settle_settled|done].
Qed.

Lemma register_settled (p : pid) (r : Reaction) (q : pid) (x : PState) (st : State) :
  promise_state q st = Some x → x ≠ Pending →
  promise_state q (register p r st) = Some x.
Proof.
  intros Hq Hx. unfold register.
  destruct (promises (loop st) !! p) as [[[| |] rs]|] eqn:Ep; try done.
  unfold promise_state in *. simpl.
  destruct (decide (q = p)) as [->|Hne].
  - rewrite Ep in Hq. simpl in Hq. congruence.
  - by rewrite list_lookup_insert_ne.
Qed.

Lemma run_handler_settled (b : bool) (tid : string) (h : Handler) (q : pid) (x : PState)
    (st : State) :
  promise_state q st = Some x → x ≠ Pending →
  promise_state q (run_handler b tid h st) = Some x.
Proof.
  intros Hq Hx. destruct h as [|cl|cl|cl r]; simpl; try done.
  - by apply closeModal_settled.
  - case_match; [by apply closeModal_settled|done].
  - pose proof (closeModal_settled cl q x st Hq Hx) as H.
    destruct (closeModal cl st) as [s1 c]. by apply register_settled.
Qed.

Lemma run_handlers_settled (b : bool) (tid : string) (hs : list Handler) (q : pid)
    (x : PState) (st : State) :
  promise_state q st = Some x → x ≠ Pending →
  promise_state q (foldl (λ s h, run_handler b tid h s) st hs) = Some x.
Proof.
  revert st. induction hs as [|h hs IH]; intros st Hq Hx; simpl; [done|].
  apply IH; [|done]. by apply run_handler_settled.
Qed.

Lemma step_settled (ev : Event) (q : pid) (x : PState) (st : State) :
  promise_state q st = Some x → x ≠ Pending →
  promise_state q (step ev st) = Some x.
Proof.
  intros Hq Hx. unfold step, drain_all. apply drain_settled; [|done].
  destruct ev as [|dt|i|[|path|host tid in_btn|tid]|y]; simpl; try done.
  - by apply dispatch_settled.
  - destruct (timers (loop st) !! i) as [t|]; [|done].
    destruct (due t <=? now (loop st)); [|done].
    destruct (job t) as [|cl]; simpl.
    + unfold fallbackCheck. by case_match.
    + by apply closeModal_settled.
  - by apply run_handler_settled.
  - destruct (modalContent (region st)) as [[s b|l]|]; try done.
    destruct (locate path l) as [[hs tid]|]; [|done].
    apply run_handler_settled; [|done]. by apply run_handlers_settled.
  - destruct (modalContent (region st)) as [r|]; [|done].
    destruct (markup_at host r) as [[b hs]|]; [|done].
    apply run_handler_settled; [|done]. by apply run_handlers_settled.
  - by apply run_handler_settled.
Qed.

Lemma run_settled (evs : list Event) (q : pid) (x : PState) (st : State) :
  promise_state q st = Some x → x ≠ Pending →
  promise_state q (run evs st) = Some x.
Proof.
  revert st. induction evs as [|ev evs IH]; intros st Hq Hx; [done|].
  change (run (ev :: evs) st) with (run evs (step ev st)).
  apply IH; [|done]. by apply step_settled.
Qed.

(** X14: when a button of a confirm dialog is clicked a second time before
    the closing transition has ended, it is the second click that decides
    the answer, at once.  The first click only starts the close; the second
    click, on either button, finds the region without [active], so its
    close is fulfilled at once and the returned promise is settled by it
    before the transition has ended; nothing that happens afterwards,
    further clicks and the end of the transition included, changes the
    answer. *)
Theorem confirm_second_click_decides (oracle : string → bool) (text : string) (st : State)
    (first second : bool) (evs : list Event) :
  has_container st →
  jobs (loop st) = [] →
  let opened := drain_all (fst (confirm oracle text st)) in
  let answer := snd (confirm oracle text st) in
  let once := step (Click (OnElement (button_path first))) opened in
  let twice := step (Click (OnElement (button_path second))) once in
  promise_state answer once = Some Pending ∧
  promise_state answer twice = Some (button_outcome second) ∧
  promise_state answer (step TransitionEnd twice) = Some (button_outcome second) ∧
  promise_state answer (run evs twice) = Some (button_outcome second).
Proof.
  intros [r0 Hc] Hj opened answer once twice.
  pose proof (click_button_spec oracle text st r0 first Hc Hj) as H1.
  pose proof (confirmModal_spec oracle text st r0 Hc) as Ho.
  simpl in H1, Ho. unfold confirm in *. fold opened in H1. fold once in H1.
  set (N := length (promises (loop st))) in *.
  assert (answer = N) as Hans by (unfold answer; by rewrite Ho).
  assert (promise_state answer twice = Some (button_outcome second)) as Htwice.
  { rewrite Hans. unfold twice, step. rewrite H1. unfold handle. open_state.
    assert (∀ s, promise_state N s = Some (button_outcome second) →
                 promise_state N (drain_all s) = Some (button_outcome second)) as Hd.
    { intros s Hs. apply drain_settled; [done|by destruct second]. }
    destruct second; simpl.
    all: unfold closeModal, new_promise; open_state.
    all: change (contains "active" ["choice"]) with false; simpl.
    all: rewrite length_app; simpl.
    all: rewrite <- !app_assoc; simpl.
    all: erewrite (settle_high (promises (loop st)) _ 3) by (done || reflexivity).
    all: open_state.
    all: unfold register; open_state.
    all: rewrite (lookup_after _ _ 3); simpl.
    all: unfold drain_all, pending_work; simpl.
    all: apply drain_settled; [|done].
    all: apply (settle_pending_state _ _ _ []); simpl.
    all: by rewrite list_lookup_middle. }
  split_and!.
  - rewrite H1, Hans. unfold promise_state. simpl. by rewrite list_lookup_middle.
  - done.
  - apply step_settled; [done|by destruct second].
  - apply run_settled; [done|by destruct second].
Qed.

Lemma confirm_second_click_decides_witness :
  promise_state 0
    (step (Click (OnElement no_button))
       (step (Click (OnElement yes_button))
          (drain_all (fst (confirm no_markup_button "Delete?" fresh_page)))))
  = Some (Rejected VUndefined) ∧
  promise_state 0
    (run [Click (OnElement yes_button); TransitionEnd]
       (step (Click (OnElement no_button))
          (step (Click (OnElement yes_button))
             (drain_all (fst (confirm no_markup_button "Delete?" fresh_page))))))
  = Some (Rejected VUndefined).
Proof.
  destruct (confirm_second_click_decides no_markup_button "Delete?" fresh_page true false
              [Click (OnElement yes_button); TransitionEnd]
              (ex_intro _ _ eq_refl) eq_refl) as (_ & H1 & _ & H2).
  split; [exact H1|exact H2].
Defined.

(** *** Messages *)

(** Where the region's handler is [closeModal] itself, a click on any
    element of the region ends with the region closed. *)
Lemma click_closes_all (target : Target) (cl : Closure) (s : State) :
  onclick (region s) = HClose cl →
  target_exists target s = true →
  visible (handle (Click target) s) = false.
Proof.
  intros Ho Ht. destruct target as [|path|host tid in_btn|tid]; simpl in *.
  - rewrite Ho. apply visible_closeModal.
  - destruct (modalContent (region s)) as [[m b|l]|]; try done.
    destruct (locate path l) as [[hs tid]|]; [|done].
    rewrite onclick_run_handlers, Ho. apply visible_closeModal.
  - destruct (modalContent (region s)) as [r|]; [|done].
    destruct (markup_at host r) as [[b hs]|]; [|done].
    rewrite onclick_run_handlers, Ho. apply visible_closeModal.
  - rewrite Ho. apply visible_closeModal.
Qed.

(** The elements of what [success] and [fail] show: the wrapper, its text
    and its icon, and what the markup of the text and of the icon holds. *)
Lemma message_targets (oracle : string → bool) (h : Handler) (msg : Msg) (isFailed : bool)
    (tid : string) (in_btn : bool) (s : State) :
  modalContent (region s)
  = Some (bind_close_btn oracle h (RNodes [message_wrapper msg isFailed])) →
  forallb (λ t, target_exists t s)
    [OnRegion; Elsewhere tid; OnElement [0]; OnElement [0; 0]; OnElement [0; 1];
     InMarkup [0; 0] tid in_btn; InMarkup [0; 1] tid in_btn]%nat = true.
Proof.
  intros Hm. unfold target_exists. rewrite Hm.
  unfold bind_close_btn, message_wrapper, message_text, message_icon. simpl.
  by destruct (oracle (finalMsg msg)), (oracle (icon_markup isFailed)).
Qed.

(** X15: [success] and [fail] mark the region [notification], [success]
    or [error], and [active], and a click on any element of the region
    closes the notification: on the region itself, on the wrapper of the
    message, on its text or its icon, or on anything that the markup of the
    text or of the icon holds. *)
Theorem message_closes_on_any_click (oracle : string → bool) (st : State) (msg : Msg)
    (duration : option Z) (isFailed : bool) (tid : string) (in_btn : bool) :
  has_container st →
  jobs (loop st) = [] →
  let shown := drain_all (fst (successFail oracle msg duration isFailed st)) in
  classes (region shown)
  = ["notification"; if isFailed then "error" else "success"; "active"] ∧
  (∀ target, target_exists target shown = true →
             visible (step (Click target) shown) = false) ∧
  forallb (λ t, target_exists t shown)
    [OnRegion; Elsewhere tid; OnElement [0]; OnElement [0; 0]; OnElement [0; 1];
     InMarkup [0; 0] tid in_btn; InMarkup [0; 1] tid in_btn]%nat = true.
Proof.
  intros [r0 Hc] Hj shown.
  pose proof (notif_spec oracle (CNode (message_wrapper msg isFailed))
                (Some (if isFailed then "error" else "success")) duration st r0 _ Hc
                ltac:(by destruct isFailed) eq_refl) as Ho.
  simpl in Ho. fold (successFail oracle msg duration isFailed) in Ho.
  set (cl := mkClosure (mkSettings "all" false) (length (promises (loop st)))) in *.
  assert (shown = fst (successFail oracle msg duration isFailed st)) as Hshown.
  { unfold shown. apply drain_all_idle. by rewrite Ho. }
  split_and!.
  - rewrite Hshown, Ho. simpl. by destruct isFailed.
  - intros target Ht. unfold step. rewrite visible_drain_all.
    apply (click_closes_all target cl); [|done]. by rewrite Hshown, Ho.
  - apply (message_targets oracle (HClose cl) msg isFailed). by rewrite Hshown, Ho.
Qed.

Lemma message_closes_on_any_click_witness :
  visible (step (Click (InMarkup [0; 1]%nat "" false))
             (drain_all (fst (successFail no_markup_button (MString "Saved") None false
                                fresh_page)))) = false.
Proof.
  destruct (message_closes_on_any_click no_markup_button fresh_page (MString "Saved")
              None false "" false (ex_intro _ _ eq_refl) eq_refl) as (_ & H & _).
  exact (H (InMarkup [0; 1]%nat "" false) eq_refl).
Defined.

End ModalFacts.
